(** * ID2T: attack traffic synthesis

    A shallow embedding of the parts of ID2T that the specification
    speaks about:

    - [CommunicationProcessor] (ID2TLib/Botnet/CommunicationProcessor.py):
      interval selection and the role/message pass over the abstract
      botnet messages;
    - [SMBScanAttack] (Attack/SMBScanAttack.py): target selection, the
      per-connection packet synthesis and the pcap hand-over;
    - [Controller] (Core/Controller.py): the orchestration of several
      attacks.

    Python exceptions are results of type [result] ([OutOfFuel] stands
    for a loop that has not ended within the rounds it was given, which
    is no exception of the program); the shared random
    generator is an explicit state threaded through every call that
    draws from it; collaborators whose code is not part of the sources
    (the C++ message processor, the statistics, scapy's layer sizes,
    the pcap writer) are fields of a record of functions that the
    definitions take as an argument. Timestamps, delays and the hosting
    percentage, floats in the program, are rationals here. *)

From stdpp Require Import gmap strings list fin_maps.
From Stdlib Require Import ZArith QArith Qround Lqa Permutation Sorted Ascii.

Open Scope Z_scope.

#[global] Set Warnings "-clear-no-such-hyp".

(** ** Python results and the random generator *)

Inductive exn : Type :=
| ValueError
| KeyError
| IndexError
| TypeError
| SystemExit
| OutOfFuel.

Inductive result (A : Type) : Type :=
| Ok (a : A)
| Raise (e : exn).

Arguments Ok {A} a.
Arguments Raise {A} e.

#[global] Instance result_ret : MRet result := fun A a => Ok a.

#[global] Instance result_bind : MBind result := fun A B k r =>
  match r with
  | Ok a => k a
  | Raise e => Raise e
  end.

(** The generator behind [random]: a stream of raw draws and the number
    of draws consumed so far. A seed fixes the stream. *)
Record Rng : Type := mkRng { raw : nat → Z; pos : nat }.

Definition draw (g : Rng) : Z * Rng :=
  (raw g (pos g), mkRng (raw g) (S (pos g))).

(** [randrange(a, b)]: a value of [a, b), [ValueError] on an empty range. *)
Definition randrange (a b : Z) (g : Rng) : result (Z * Rng) :=
  if b <=? a then Raise ValueError
  else let '(x, g') := draw g in Ok (a + x mod (b - a), g').

(** [randint(a, b)]: both ends included. *)
Definition randint (a b : Z) (g : Rng) : result (Z * Rng) :=
  randrange a (b + 1) g.

(** [random()]: a rational of [0, 1), here with a resolution of 1/1000. *)
Definition random (g : Rng) : Q * Rng :=
  let '(x, g') := draw g in (inject_Z (x mod 1000) / 1000, g')%Q.

Lemma randrange_bounds a b g x g' :
  randrange a b g = Ok (x, g') → a ≤ x < b ∧ pos g' = S (pos g).
Proof.
  unfold randrange, draw. destruct (Z.leb_spec b a); [discriminate|].
  intros [= <- <-]. simpl. split; [|reflexivity].
  pose proof (Z.mod_pos_bound (raw g (pos g)) (b - a)). lia.
Qed.

Lemma randrange_ok a b g :
  a < b → ∃ x g', randrange a b g = Ok (x, g').
Proof.
  intros Hab. unfold randrange, draw.
  destruct (Z.leb_spec b a); [lia|]. eauto.
Qed.

Lemma random_bounds g x g' :
  random g = (x, g') → (0 <= x)%Q ∧ (x <= 1)%Q ∧ pos g' = S (pos g).
Proof.
  unfold random, draw. intros [= <- <-]. simpl.
  pose proof (Z.mod_pos_bound (raw g (pos g)) 1000 eq_refl) as [Hlo Hhi].
  set (r := raw g (pos g) mod 1000) in *.
  split; [|split; [|reflexivity]].
  - unfold Qle, Qdiv, Qmult, Qinv, inject_Z. simpl. lia.
  - unfold Qle, Qdiv, Qmult, Qinv, inject_Z. simpl. lia.
Qed.

(** ** ID2TLib/Botnet/CommunicationProcessor.py *)

Module CommunicationProcessor.

(** Modelled from the spec: the [MessageType] enum and the [Message]
    class of ID2TLib/Botnet/Message.py are not among the sources. The
    members are the five that the processor names, with [OTHER] for any
    further member; a [Message] is the spec's
    [{id, src_peer, dst_peer, type, time, line_no, refer_msg_id?}], and
    an unset [refer_msg_id] is [-1], the value the processor passes to
    the constructor when it finds no request. Peer ids are kept in
    their printed form, the one [format] puts into the request key. *)
Inductive MessageType : Type :=
| TIMEOUT
| SALITY_NL_REQUEST
| SALITY_NL_REPLY
| SALITY_HELLO
| SALITY_HELLO_REPLY
| OTHER.

#[global] Instance MessageType_eq_dec : EqDecision MessageType.
Proof. solve_decision. Defined.

Record Message : Type := mkMessage {
  msg_id : nat;
  src : string;
  dst : string;
  mtype : MessageType;
  mtime : Q;
  refer_msg_id : Z;
  line_no : Z
}.

Definition with_refer (m : Message) (r : Z) : Message :=
  mkMessage (msg_id m) (src m) (dst m) (mtype m) (mtime m) r (line_no m).

(** An abstract packet, as the C++ processor hands it over: a dict with
    the keys Src, Dst, Type, Time and, optionally, LineNumber. *)
Record packet : Type := mkPacket {
  Src : string;
  Dst : string;
  Type_ : Z;
  Time_ : Q;
  LineNumber : option Z
}.

(** The interval dict: [None] before any search, the empty dict, or the
    dict with the keys IDs, Start and End. *)
Inductive Interval : Type :=
| NoInterval
| EmptyDict
| Dict (IDs : list string) (Start End : Z).

(** [self.interval and self.interval["IDs"]] *)
Definition has_ids (i : Interval) : bool :=
  match i with
  | Dict (_ :: _) _ _ => true
  | _ => false
  end.

(** The C++ message processor [lb.botnet_comm_processor()]. *)
Record botnet_comm_processor : Type := mkCpp {
  get_message_count : Z;
  find_interval_from_startidx : Z → Z → Z → Interval;
  find_interval_from_endidx : Z → Z → Z → Interval;
  find_optimal_interval : Z → Z → list Interval;
  get_interval_init_ids : Z → Z → list string;
  get_messages_cpp : Z → Z → list packet
}.

(** The fields of a [CommunicationProcessor] object. *)
Record CommProc : Type := mkCommProc {
  packets : list packet;
  mtypes : gmap Z MessageType;
  nat_ : bool;
  strategy : string;
  number_ids : Z;
  max_int_time : Z;
  start_idx : option Z;
  end_idx : option Z;
  interval : Interval;
  messages : list Message;
  respnd_ids : gset string;
  external_init_ids : gset string;
  local_init_ids : gset string;
  cpp_comm_proc : botnet_comm_processor
}.

Definition set_interval (cp : CommProc) (i : Interval) : CommProc :=
  mkCommProc (packets cp) (mtypes cp) (nat_ cp) (strategy cp) (number_ids cp)
    (max_int_time cp) (start_idx cp) (end_idx cp) i (messages cp)
    (respnd_ids cp) (external_init_ids cp) (local_init_ids cp) (cpp_comm_proc cp).

Definition set_idx (cp : CommProc) (s e : option Z) : CommProc :=
  mkCommProc (packets cp) (mtypes cp) (nat_ cp) (strategy cp) (number_ids cp)
    (max_int_time cp) s e (interval cp) (messages cp)
    (respnd_ids cp) (external_init_ids cp) (local_init_ids cp) (cpp_comm_proc cp).

(** [set_mapping] *)
Definition set_mapping (cp : CommProc) (pkts : list packet) (mapped_ids : list string)
  : CommProc :=
  mkCommProc pkts (mtypes cp) (nat_ cp) (strategy cp) (number_ids cp)
    (max_int_time cp) (start_idx cp) (end_idx cp) (interval cp) (messages cp)
    (respnd_ids cp) (external_init_ids cp) (list_to_set mapped_ids) (cpp_comm_proc cp).

Definition set_roles (cp : CommProc) (r e : gset string) (msgs : list Message)
  : CommProc :=
  mkCommProc (packets cp) (mtypes cp) (nat_ cp) (strategy cp) (number_ids cp)
    (max_int_time cp) (start_idx cp) (end_idx cp) (interval cp) msgs
    r e (local_init_ids cp) (cpp_comm_proc cp).

(** *** get_comm_interval *)

(** [not x] for an index that is an int or [None]. *)
Definition falsy (x : option Z) : bool :=
  match x with
  | None => true
  | Some z => z =? 0
  end.

Definition idx_val (x : option Z) : Z := default 0 x.

(** The body of [for i in range(5)] of strategy random, [n] rounds. *)
Fixpoint random_attempts (n : nat) (cp : CommProc) (g : Rng)
  : result (CommProc * Rng) :=
  match n with
  | O => Ok (cp, g)
  | S n' =>
      '(start, g') ← randrange 0 (get_message_count (cpp_comm_proc cp)) g;
      let cp' := set_interval cp
        (find_interval_from_startidx (cpp_comm_proc cp) start
           (number_ids cp) (max_int_time cp)) in
      if has_ids (interval cp') then Ok (cp', g')
      else random_attempts n' cp' g'
  end.

(** The body of [for i in range(5)] of strategy optimal. *)
Fixpoint optimal_attempts (n : nat) (intervals : list Interval)
    (cp : CommProc) (g : Rng) : result (CommProc * Rng) :=
  match n with
  | O => Ok (cp, g)
  | S n' =>
      '(k, g') ← randrange 0 (Z.of_nat (length intervals)) g;
      match intervals !! Z.to_nat k with
      | None => Raise IndexError
      | Some i =>
          let cp' := set_interval cp i in
          if has_ids i then Ok (cp', g')
          else optimal_attempts n' intervals cp' g'
      end
  end.

Definition select_interval (cp : CommProc) (g : Rng) : result (CommProc * Rng) :=
  let cpp := cpp_comm_proc cp in
  if String.eqb (strategy cp) "random" then random_attempts 5 cp g
  else if String.eqb (strategy cp) "optimal" then
    let intervals := find_optimal_interval cpp (number_ids cp) (max_int_time cp) in
    match intervals with
    | [] => Ok (cp, g)
    | _ => optimal_attempts 5 intervals cp g
    end
  else if String.eqb (strategy cp) "custom" then
    if falsy (start_idx cp) && falsy (end_idx cp) then
      '(start, g') ← randrange 0 (get_message_count cpp) g;
      Ok (set_interval cp
            (find_interval_from_startidx cpp start (number_ids cp) (max_int_time cp)),
          g')
    else if falsy (start_idx cp) && negb (falsy (end_idx cp)) then
      let e := idx_val (end_idx cp) - 1 in
      let cp1 := set_idx cp (start_idx cp) (Some e) in
      Ok (set_interval cp1
            (find_interval_from_endidx cpp e (number_ids cp) (max_int_time cp)), g)
    else if negb (falsy (start_idx cp)) && falsy (end_idx cp) then
      let s := idx_val (start_idx cp) - 1 in
      let cp1 := set_idx cp (Some s) (end_idx cp) in
      Ok (set_interval cp1
            (find_interval_from_startidx cpp s (number_ids cp) (max_int_time cp)), g)
    else
      let s := idx_val (start_idx cp) - 1 in
      let e := idx_val (end_idx cp) - 1 in
      let cp1 := set_idx cp (Some s) (Some e) in
      let ids := get_interval_init_ids cpp s e in
      match ids with
      | [] => Ok (cp1, g)
      | _ => Ok (set_interval cp1 (Dict ids s e), g)
      end
  else Ok (cp, g).

Definition get_comm_interval (cp : CommProc) (g : Rng)
  : result (Interval * CommProc * Rng) :=
  '(cp1, g1) ← select_interval cp g;
  let cp2 := if has_ids (interval cp1) then cp1 else set_interval cp1 EmptyDict in
  Ok (interval cp2, cp2, g1).

(** *** det_id_roles_and_msgs *)

Definition is_request (t : MessageType) : bool :=
  match t with
  | SALITY_HELLO | SALITY_NL_REQUEST => true
  | _ => false
  end.

Definition is_reply (t : MessageType) : bool :=
  match t with
  | SALITY_HELLO_REPLY | SALITY_NL_REPLY => true
  | _ => false
  end.

(** ["{0}-{1}".format(a, b)] *)
Definition msg_str (a b : string) : string := a +:+ "-" +:+ b.

(** The local variables of the pass over the packets. *)
Record roles : Type := mkRoles {
  r_respnd_ids : gset string;
  msgs : list Message;
  next_id : nat;
  prev_reqs : gmap string nat;
  req_seen : bool;
  r_external_init_ids : gset string
}.

Definition roles_init : roles := mkRoles ∅ [] 0 ∅ false ∅.

(** [msgs[i].refer_msg_id = v] *)
Definition set_refer (i : nat) (v : Z) (l : list Message) : result (list Message) :=
  match l !! i with
  | Some m => Ok (<[i := with_refer m v]> l)
  | None => Raise IndexError
  end.

(** The request branch once the role of the ids is settled. *)
Definition add_request (s : roles) (rs es : gset string) (p : packet)
    (t : MessageType) : roles :=
  let msg := mkMessage (next_id s) (Src p) (Dst p) t (Time_ p) (-1)
               (default (-1) (LineNumber p)) in
  mkRoles rs (msgs s ++ [msg]) (S (next_id s))
    (<[msg_str (Src p) (Dst p) := next_id s]> (prev_reqs s)) true es.

(** The reply branch once the role of the ids is settled. *)
Definition add_reply (s : roles) (rs es : gset string) (p : packet)
    (t : MessageType) : result roles :=
  let key := msg_str (Dst p) (Src p) in
  let lineno := default (-1) (LineNumber p) in
  match prev_reqs s !! key with
  | Some refer_idx =>
      l ← set_refer refer_idx (Z.of_nat (next_id s)) (msgs s);
      let msg := mkMessage (next_id s) (Src p) (Dst p) t (Time_ p)
                   (Z.of_nat refer_idx) lineno in
      Ok (mkRoles rs (l ++ [msg]) (S (next_id s)) (delete key (prev_reqs s))
            (req_seen s) es)
  | None =>
      let msg := mkMessage (next_id s) (Src p) (Dst p) t (Time_ p) (-1) lineno in
      Ok (mkRoles rs (msgs s ++ [msg]) (S (next_id s)) (prev_reqs s)
            (req_seen s) es)
  end.

(** The timeout branch. *)
Definition add_timeout (s : roles) (p : packet) : result roles :=
  let key := msg_str (Dst p) (Src p) in
  let lineno := default (-1) (LineNumber p) in
  match prev_reqs s !! key with
  | Some refer_idx =>
      l ← set_refer refer_idx (Z.of_nat (next_id s)) (msgs s);
      match l !! refer_idx with
      | None => Raise IndexError
      | Some req =>
          let t := if decide (mtype req = SALITY_NL_REQUEST)
                   then SALITY_NL_REPLY else SALITY_HELLO_REPLY in
          let msg := mkMessage (next_id s) (Src p) (Dst p) t (Time_ p)
                       (Z.of_nat refer_idx) lineno in
          Ok (mkRoles (r_respnd_ids s) (l ++ [msg]) (S (next_id s))
                (delete key (prev_reqs s)) (req_seen s) (r_external_init_ids s))
      end
  | None => Ok s
  end.

(** One round of [for packet in self.packets]. *)
Definition process_packet (cp : CommProc) (s : roles) (p : packet) : result roles :=
  let L := local_init_ids cp in
  let id_src := Src p in
  let id_dst := Dst p in
  if bool_decide (id_src ∉ L) && bool_decide (id_dst ∉ L) then Ok s
  else
    match mtypes cp !! Type_ p with
    | None => Raise KeyError
    | Some msg_type =>
        if is_request msg_type then
          if negb (nat_ cp) && bool_decide (id_dst ∈ L) && bool_decide (id_src ∉ L)
          then Ok (add_request s (r_respnd_ids s)
                     ({[id_src]} ∪ r_external_init_ids s) p msg_type)
          else if bool_decide (id_src ∉ L) then Ok s
          else Ok (add_request s ({[id_dst]} ∪ r_respnd_ids s)
                     (r_external_init_ids s) p msg_type)
        else if is_reply msg_type && req_seen s then
          if negb (nat_ cp) && bool_decide (id_src ∈ L) && bool_decide (id_dst ∉ L)
          then add_reply s (r_respnd_ids s)
                 ({[id_dst]} ∪ r_external_init_ids s) p msg_type
          else if bool_decide (id_dst ∉ L) then Ok s
          else add_reply s ({[id_src]} ∪ r_respnd_ids s)
                 (r_external_init_ids s) p msg_type
        else if bool_decide (msg_type = TIMEOUT) && bool_decide (id_src ∈ L)
                && negb (nat_ cp)
        then add_timeout s p
        else Ok s
    end.

Fixpoint process_packets (cp : CommProc) (s : roles) (l : list packet)
  : result roles :=
  match l with
  | [] => Ok s
  | p :: l' => s' ← process_packet cp s p; process_packets cp s' l'
  end.

Definition det_id_roles_and_msgs (cp : CommProc) : result (list Message * CommProc) :=
  s ← process_packets cp roles_init (packets cp);
  let cp' := set_roles cp (r_respnd_ids s) (r_external_init_ids s) (msgs s) in
  Ok (messages cp', cp').

(** *** get_messages *)

(** [while len(mapped_ids) > self.number_ids], at most [fuel] rounds. *)
Fixpoint truncate_ids (fuel : nat) (n : Z) (mapped_ids : list string) (g : Rng)
  : result (list string * Rng) :=
  match fuel with
  | O => Ok (mapped_ids, g)
  | S fuel' =>
      if n <? Z.of_nat (length mapped_ids) then
        '(rm_idx, g') ← randrange 0 (Z.of_nat (length mapped_ids)) g;
        truncate_ids fuel' n (delete (Z.to_nat rm_idx) mapped_ids) g'
      else Ok (mapped_ids, g)
  end.

Definition get_messages (cp : CommProc) (g : Rng)
  : result (list Message * CommProc * Rng) :=
  match interval cp with
  | NoInterval => Raise TypeError
  | EmptyDict => Raise KeyError
  | Dict ids packet_start_idx packet_end_idx =>
      '(mapped_ids, g') ← truncate_ids (S (length ids)) (number_ids cp) ids g;
      let cp1 := set_interval cp (Dict mapped_ids packet_start_idx packet_end_idx) in
      let abstract_packets :=
        get_messages_cpp (cpp_comm_proc cp) packet_start_idx packet_end_idx in
      let cp2 := set_mapping cp1 abstract_packets mapped_ids in
      '(ms, cp3) ← det_id_roles_and_msgs cp2;
      Ok (ms, cp3, g')
  end.


(** *** The invariant of the pass *)

(** Message [m] at index [i] of [l] and the message it refers to point at
    each other; a request points forward to its reply, a reply (a real
    one or the one made for a timeout) points back to its request. *)
Definition linked (l : list Message) (i : nat) (m : Message) : Prop :=
  ∃ j mj, refer_msg_id m = Z.of_nat j ∧ l !! j = Some mj ∧
          refer_msg_id mj = Z.of_nat i ∧
          ((is_request (mtype m) = true ∧ is_reply (mtype mj) = true ∧ (i < j)%nat) ∨
           (is_reply (mtype m) = true ∧ is_request (mtype mj) = true ∧ (j < i)%nat)).

Record roles_inv (s : roles) : Prop := mkRolesInv {
  inv_next : next_id s = length (msgs s);
  inv_ids : ∀ i m, msgs s !! i = Some m → msg_id m = i;
  inv_pending : ∀ k r, prev_reqs s !! k = Some r →
    ∃ m, msgs s !! r = Some m ∧ is_request (mtype m) = true ∧ refer_msg_id m = -1;
  inv_pending_inj : ∀ k1 k2 r,
    prev_reqs s !! k1 = Some r → prev_reqs s !! k2 = Some r → k1 = k2;
  inv_linked : ∀ i m, msgs s !! i = Some m → refer_msg_id m ≠ -1 → linked (msgs s) i m
}.

(** Messages whose reference is set stay as they are. *)
Definition stable (l l' : list Message) : Prop :=
  ∀ i m, l !! i = Some m → refer_msg_id m ≠ -1 → l' !! i = Some m.

Lemma stable_refl l : stable l l.
Proof. intros i m H _. exact H. Qed.

Lemma stable_trans l1 l2 l3 : stable l1 l2 → stable l2 l3 → stable l1 l3.
Proof. intros H12 H23 i m Hi Hr. apply H23; [apply H12|]; assumption. Qed.

Lemma stable_app l x : stable l (l ++ [x]).
Proof. intros i m Hi _. apply lookup_app_l_Some. exact Hi. Qed.

Lemma linked_app l x i m : linked l i m → linked (l ++ [x]) i m.
Proof.
  intros (j & mj & Hr & Hj & Hb & Hd).
  exists j, mj. split_and!; try assumption. by apply lookup_app_l_Some.
Qed.

Lemma roles_init_inv : roles_inv roles_init.
Proof.
  constructor; simpl; done.
Qed.

Lemma set_refer_ok i v l m :
  l !! i = Some m → set_refer i v l = Ok (<[i := with_refer m v]> l).
Proof. intros H. unfold set_refer. by rewrite H. Qed.

Lemma add_request_inv s rs es p t :
  is_request t = true → roles_inv s → roles_inv (add_request s rs es p t).
Proof.
  intros Ht [Hn Hids Hp Hinj Hl]. unfold add_request.
  constructor; simpl.
  - rewrite length_app. simpl. lia.
  - intros i m Hi. apply lookup_app_Some in Hi as [Hi | [Hge Hi]].
    + by apply Hids.
    + apply list_lookup_singleton_Some in Hi as [Hi <-]. simpl. lia.
  - intros k r Hk. rewrite lookup_insert in Hk. case_decide as Hd.
    + injection Hk as <-. eexists. split; [|split].
      * rewrite Hn. rewrite lookup_app_r by lia. by rewrite Nat.sub_diag.
      * exact Ht.
      * reflexivity.
    + destruct (Hp k r Hk) as (m & Hm & Hq & Hr).
      exists m. split_and!; try done. by apply lookup_app_l_Some.
  - intros k1 k2 r H1 H2.
    assert (Hfresh : ∀ k, prev_reqs s !! k = Some (next_id s) → False).
    { intros k Hk. destruct (Hp _ _ Hk) as (m & Hm & _).
      apply lookup_lt_Some in Hm. lia. }
    rewrite lookup_insert in H1. rewrite lookup_insert in H2.
    destruct (decide (msg_str (Src p) (Dst p) = k1)) as [E1|E1];
      destruct (decide (msg_str (Src p) (Dst p) = k2)) as [E2|E2].
    + congruence.
    + injection H1 as <-. destruct (Hfresh _ H2).
    + injection H2 as <-. destruct (Hfresh _ H1).
    + by eapply Hinj.
  - intros i m Hi Hr. apply lookup_app_Some in Hi as [Hi | [Hge Hi]].
    + apply linked_app. by apply Hl.
    + apply list_lookup_singleton_Some in Hi as [Hi <-]. done.
Qed.

(** Linking the pending request [r] to a new last message. *)
Lemma link_inv s rs es key r q (rep : Message) b :
  roles_inv s → prev_reqs s !! key = Some r → msgs s !! r = Some q →
  msg_id rep = next_id s → refer_msg_id rep = Z.of_nat r →
  is_reply (mtype rep) = true →
  roles_inv (mkRoles rs (<[r := with_refer q (Z.of_nat (next_id s))]> (msgs s) ++ [rep])
               (S (next_id s)) (delete key (prev_reqs s)) b es).
Proof.
  intros [Hn Hids Hp Hinj Hl] Hk Hq Hid Href Hrep.
  destruct (Hp _ _ Hk) as (q' & Hq' & Hqt & Hqr). simplify_eq.
  assert (Hlt : (r < length (msgs s))%nat) by by eapply lookup_lt_Some.
  constructor; simpl.
  - rewrite length_app, length_insert. simpl. lia.
  - intros i m Hi. apply lookup_app_Some in Hi as [Hi | [Hge Hi]].
    + destruct (decide (i = r)) as [->|Hne].
      * rewrite list_lookup_insert_eq in Hi by done. injection Hi as <-.
        simpl. by apply Hids.
      * rewrite list_lookup_insert_ne in Hi by done. by apply Hids.
    + rewrite length_insert in Hge, Hi.
      apply list_lookup_singleton_Some in Hi as [Hi <-]. lia.
  - intros k r' Hk'. apply lookup_delete_Some in Hk' as [Hne Hk'].
    assert (r' ≠ r) by (intros ->; apply Hne; by eapply Hinj).
    destruct (Hp _ _ Hk') as (m & Hm & Hmt & Hmr).
    exists m. split_and!; try done.
    apply lookup_app_l_Some. by rewrite list_lookup_insert_ne.
  - intros k1 k2 r' H1 H2.
    apply lookup_delete_Some in H1 as [_ H1].
    apply lookup_delete_Some in H2 as [_ H2]. by eapply Hinj.
  - intros i m Hi Hr. apply lookup_app_Some in Hi as [Hi | [Hge Hi]].
    + destruct (decide (i = r)) as [->|Hne].
      * rewrite list_lookup_insert_eq in Hi by done. injection Hi as <-.
        exists (next_id s), rep. simpl. split_and!; try done.
        -- rewrite Hn. rewrite lookup_app_r by (rewrite length_insert; lia).
           rewrite length_insert. by rewrite Nat.sub_diag.
        -- left. split_and!; try done. lia.
      * rewrite list_lookup_insert_ne in Hi by done.
        destruct (Hl _ _ Hi Hr) as (j & mj & Hrj & Hj & Hb & Hd).
        assert (j ≠ r).
        { intros ->. simplify_eq. rewrite Hqr in Hb. lia. }
        exists j, mj. split_and!; try done.
        apply lookup_app_l_Some. by rewrite list_lookup_insert_ne.
    + rewrite length_insert in Hge, Hi.
      apply list_lookup_singleton_Some in Hi as [Hi <-].
      assert (i = next_id s) as -> by lia.
      exists r, (with_refer q (Z.of_nat (next_id s))). simpl. split_and!; try done.
      * apply lookup_app_l_Some. by rewrite list_lookup_insert_eq.
      * right. split_and!; try done. lia.
Qed.

Lemma link_stable s key r q rep v :
  roles_inv s → prev_reqs s !! key = Some r → msgs s !! r = Some q →
  stable (msgs s) (<[r := with_refer q v]> (msgs s) ++ [rep]).
Proof.
  intros Hinv Hk Hq i m Hi Hr.
  destruct (inv_pending _ Hinv _ _ Hk) as (q' & Hq' & _ & Hqr). simplify_eq.
  apply lookup_app_l_Some. rewrite list_lookup_insert_ne; [done|].
  intros ->. simplify_eq.
Qed.

Lemma add_reply_spec s rs es p t :
  is_reply t = true → roles_inv s →
  ∃ s', add_reply s rs es p t = Ok s' ∧ roles_inv s' ∧ stable (msgs s) (msgs s').
Proof.
  intros Ht Hinv. unfold add_reply.
  destruct (prev_reqs s !! msg_str (Dst p) (Src p)) as [r|] eqn:Hk.
  - destruct (inv_pending _ Hinv _ _ Hk) as (q & Hq & _ & _).
    rewrite (set_refer_ok _ _ _ _ Hq). simpl.
    eexists. split; [reflexivity|]. split.
    + by eapply link_inv.
    + simpl. by eapply link_stable.
  - eexists. split; [reflexivity|].
    destruct Hinv as [Hn Hids Hp Hinj Hl]. split; [|apply stable_app].
    constructor; simpl.
    + rewrite length_app. simpl. lia.
    + intros i m Hi. apply lookup_app_Some in Hi as [Hi | [Hge Hi]].
      * by apply Hids.
      * apply list_lookup_singleton_Some in Hi as [Hi <-]. simpl. lia.
    + intros k r Hkr. destruct (Hp _ _ Hkr) as (m & Hm & Hmt & Hmr).
      exists m. split_and!; try done. by apply lookup_app_l_Some.
    + exact Hinj.
    + intros i m Hi Hr. apply lookup_app_Some in Hi as [Hi | [Hge Hi]].
      * apply linked_app. by apply Hl.
      * apply list_lookup_singleton_Some in Hi as [Hi <-]. done.
Qed.

Lemma add_timeout_spec s p :
  roles_inv s →
  ∃ s', add_timeout s p = Ok s' ∧ roles_inv s' ∧ stable (msgs s) (msgs s').
Proof.
  intros Hinv. unfold add_timeout.
  destruct (prev_reqs s !! msg_str (Dst p) (Src p)) as [r|] eqn:Hk.
  - destruct (inv_pending _ Hinv _ _ Hk) as (q & Hq & _ & _).
    assert (Hlt : (r < length (msgs s))%nat) by by eapply lookup_lt_Some.
    rewrite (set_refer_ok _ _ _ _ Hq). simpl.
    rewrite list_lookup_insert_eq by done.
    eexists. split; [reflexivity|]. split.
    + eapply link_inv; try done. simpl. by case_decide.
    + simpl. by eapply link_stable.
  - exists s. split_and!; try done. apply stable_refl.
Qed.

Lemma process_packet_spec cp s p :
  is_Some (mtypes cp !! Type_ p) → roles_inv s →
  ∃ s', process_packet cp s p = Ok s' ∧ roles_inv s' ∧ stable (msgs s) (msgs s').
Proof.
  intros [t Ht] Hinv. unfold process_packet. rewrite Ht.
  assert (Hsame : ∃ s', Ok s = Ok s' ∧ roles_inv s' ∧ stable (msgs s) (msgs s')).
  { exists s. split_and!; try done. apply stable_refl. }
  destruct (_ && _); [exact Hsame|].
  destruct (is_request t) eqn:Hreq.
  { destruct (_ && _).
    - eexists. split; [reflexivity|]. split; [by apply add_request_inv|].
      apply stable_app.
    - destruct (bool_decide _); [exact Hsame|].
      eexists. split; [reflexivity|]. split; [by apply add_request_inv|].
      apply stable_app. }
  destruct (is_reply t) eqn:Hrep; simpl.
  { destruct (req_seen s); simpl.
    - destruct (_ && _); [by apply add_reply_spec|].
      destruct (bool_decide _); [exact Hsame|]. by apply add_reply_spec.
    - destruct (_ && _); [by apply add_timeout_spec | exact Hsame]. }
  destruct (_ && _); [by apply add_timeout_spec | exact Hsame].
Qed.

Lemma process_packets_spec cp s l :
  (∀ p, p ∈ l → is_Some (mtypes cp !! Type_ p)) → roles_inv s →
  ∃ s', process_packets cp s l = Ok s' ∧ roles_inv s' ∧ stable (msgs s) (msgs s').
Proof.
  revert s. induction l as [|p l IH]; intros s Hty Hinv; simpl.
  - exists s. split_and!; try done. apply stable_refl.
  - destruct (process_packet_spec cp s p) as (s1 & H1 & Hinv1 & Hst1);
      [apply Hty; left | done |].
    rewrite H1. simpl.
    destruct (IH s1) as (s2 & H2 & Hinv2 & Hst2);
      [intros q Hq; apply Hty; by right | done |].
    exists s2. split_and!; try done. by eapply stable_trans.
Qed.

Lemma process_packets_app cp s l1 l2 :
  process_packets cp s (l1 ++ l2) =
  (s1 ← process_packets cp s l1; process_packets cp s1 l2).
Proof.
  revert s. induction l1 as [|p l1 IH]; intros s; simpl; [done|].
  destruct (process_packet cp s p); simpl; [apply IH | done].
Qed.

(** *** Sample runs *)

Definition sality_mtypes : gmap Z MessageType :=
  <[3 := TIMEOUT]> (<[101 := SALITY_NL_REQUEST]> (<[102 := SALITY_NL_REPLY]>
    (<[103 := SALITY_HELLO]> (<[104 := SALITY_HELLO_REPLY]> ∅)))).

Definition no_cpp : botnet_comm_processor :=
  mkCpp 0 (fun _ _ _ => EmptyDict) (fun _ _ _ => EmptyDict) (fun _ _ => [])
    (fun _ _ => []) (fun _ _ => []).

(** A processor after [set_mapping pkts ids], no NAT. *)
Definition mapped (pkts : list packet) (ids : list string) : CommProc :=
  set_mapping
    (mkCommProc [] sality_mtypes false "random" 1 10 None None NoInterval []
       ∅ ∅ ∅ no_cpp) pkts ids.

(** A hello from the mapped peer a to b, and b's reply. *)
Definition hello_and_reply : list packet :=
  [mkPacket "a" "b" 103 0 None; mkPacket "b" "a" 104 1 None].

(** A hello from a to b, then a reply of d to the mapped peer c, which
    never asked d anything. *)
Definition hello_then_stray_reply : list packet :=
  [mkPacket "a" "b" 103 0 None; mkPacket "d" "c" 104 1 None].

(** The reading of the reference rule in which every set reference
    points to an earlier index. *)
Definition refers_earlier (ms : list Message) : Prop :=
  ∀ i m, ms !! i = Some m → refer_msg_id m ≠ -1 → refer_msg_id m < Z.of_nat i.

(** The reading of the reply rule in which a reply without a pending
    request for its pair leaves the pass as it is. *)
Definition drops_unmatched_replies (cp : CommProc) : Prop :=
  ∀ s p t, roles_inv s → mtypes cp !! Type_ p = Some t → is_reply t = true →
    prev_reqs s !! msg_str (Dst p) (Src p) = None →
    process_packet cp s p = Ok s.

(** A custom search between the user's indices 1 and 2 for five
    initiators, on a log in which only the peer a initiates there. *)
Definition one_initiator_cpp : botnet_comm_processor :=
  mkCpp 2 (fun _ _ _ => EmptyDict) (fun _ _ _ => EmptyDict) (fun _ _ => [])
    (fun _ _ => ["a"]) (fun _ _ => hello_and_reply).

Definition custom_search : CommProc :=
  mkCommProc [] sality_mtypes false "custom" 5 10 (Some 1) (Some 2) NoInterval []
    ∅ ∅ ∅ one_initiator_cpp.

(** A random search on a log without messages. *)
Definition empty_log_search : CommProc :=
  mkCommProc [] sality_mtypes false "random" 1 10 None None NoInterval []
    ∅ ∅ ∅ no_cpp.

Definition zero_rng : Rng := mkRng (fun _ => 0) 0.

(** The reading of the interval rule in which an interval with fewer
    participants than the target is never returned. *)
Definition rejects_under_selection (cp : CommProc) : Prop :=
  ∀ g ids s e cp' g',
    get_comm_interval cp g = Ok (Dict ids s e, cp', g') →
    number_ids cp ≤ Z.of_nat (length ids).

(** *** Interval selection *)

Lemma random_attempts_spec n cp g :
  0 < get_message_count (cpp_comm_proc cp) →
  ∃ cp' g', random_attempts n cp g = Ok (cp', g') ∧
            (pos g' ≤ pos g + n)%nat ∧
            cpp_comm_proc cp' = cpp_comm_proc cp ∧
            number_ids cp' = number_ids cp.
Proof.
  revert cp g. induction n as [|n IH]; intros cp g Hc; simpl.
  - exists cp, g. split_and!; try done. lia.
  - destruct (randrange_ok 0 _ g Hc) as (x & g1 & Hx). rewrite Hx. simpl.
    apply randrange_bounds in Hx as [_ Hp].
    destruct (has_ids _).
    + eexists _, g1. split_and!; try done. lia.
    + destruct (IH (set_interval cp
                      (find_interval_from_startidx (cpp_comm_proc cp) x
                         (number_ids cp) (max_int_time cp))) g1 Hc)
        as (cp' & g' & H & Hpos & Hcpp & Hn).
      exists cp', g'. split_and!; try done. lia.
Qed.

(** With a message in the log, a random search ends after at most five
    draws of a start index, and what it returns is the empty dict or an
    interval with participants. *)
Lemma random_search_returns cp g :
  strategy cp = "random" → 0 < get_message_count (cpp_comm_proc cp) →
  ∃ i cp' g', get_comm_interval cp g = Ok (i, cp', g') ∧
              (pos g' ≤ pos g + 5)%nat ∧ interval cp' = i ∧
              (i = EmptyDict ∨ has_ids i = true).
Proof.
  intros Hs Hc. unfold get_comm_interval, select_interval.
  rewrite Hs, String.eqb_refl.
  destruct (random_attempts_spec 5 cp g Hc) as (cp1 & g1 & H & Hpos & _).
  rewrite H. simpl. eexists _, _, g1. split; [reflexivity|].
  split; [exact Hpos|]. split; [reflexivity|].
  destruct (has_ids (interval cp1)) eqn:E; [by right | by left].
Qed.

Lemma truncate_ids_spec fuel n ids g :
  0 ≤ n → (length ids < fuel)%nat →
  ∃ ids' g', truncate_ids fuel n ids g = Ok (ids', g') ∧
             Z.of_nat (length ids') ≤ n ∧ ids' `sublist_of` ids ∧
             (Z.of_nat (length ids) ≤ n → ids' = ids).
Proof.
  intros Hn. revert ids g. induction fuel as [|fuel IH]; intros ids g Hf; [lia|].
  simpl. destruct (Z.ltb_spec n (Z.of_nat (length ids))) as [Hlt|Hge].
  - destruct (randrange_ok 0 (Z.of_nat (length ids)) g) as (x & g1 & Hx); [lia|].
    rewrite Hx. simpl. apply randrange_bounds in Hx as [Hx _].
    assert (Hsome : is_Some (ids !! Z.to_nat x)) by (apply lookup_lt_is_Some; lia).
    pose proof (length_delete ids (Z.to_nat x) Hsome) as Hlen.
    destruct (IH (delete (Z.to_nat x) ids) g1) as (ids' & g' & H & Hle & Hsub & _);
      [lia|].
    exists ids', g'. split_and!; try done; [|lia].
    etrans; [exact Hsub | apply sublist_delete].
  - exists ids, g. split_and!; done.
Qed.

Lemma truncate_ids_draws fuel n : ∀ ids g ids' g',
  0 ≤ n → (length ids < fuel)%nat → truncate_ids fuel n ids g = Ok (ids', g') →
  pos g' = (pos g + (length ids - Z.to_nat n))%nat ∧
  length ids' = (length ids `min` Z.to_nat n)%nat.
Proof.
  induction fuel as [|fuel IH]; intros ids g ids' g' Hn Hf; [lia|].
  cbn [truncate_ids]. destruct (Z.ltb_spec n (Z.of_nat (length ids))) as [Hlt|Hge].
  - destruct (randrange 0 (Z.of_nat (length ids)) g) as [[k g1]|] eqn:Hk; [|done].
    cbn [mbind result_bind]. apply randrange_bounds in Hk as [Hk Hpos]. intros H.
    assert (Hsome : is_Some (ids !! Z.to_nat k)) by (apply lookup_lt_is_Some; lia).
    pose proof (length_delete ids (Z.to_nat k) Hsome) as Hlen.
    apply IH in H as [H1 H2]; [|done|lia]. rewrite H1, H2, Hpos. lia.
  - intros [= <- <-]. lia.
Qed.

Lemma size_list_to_set_le (l : list string) :
  (size (list_to_set l : gset string) ≤ length l)%nat.
Proof.
  induction l as [|x l IH].
  - done.
  - rewrite list_to_set_cons, size_union_alt, size_singleton. simpl.
    pose proof (subseteq_size (list_to_set l ∖ {[x]}) (list_to_set l : gset string)
                  (subseteq_difference_l _ _ _ (reflexivity _))).
    lia.
Qed.

Definition known_types (cp : CommProc) (l : list packet) : Prop :=
  Forall (fun p => is_Some (mtypes cp !! Type_ p)) l.

Lemma det_id_roles_and_msgs_ok cp :
  known_types cp (packets cp) →
  ∃ s, process_packets cp roles_init (packets cp) = Ok s ∧ roles_inv s ∧
       det_id_roles_and_msgs cp =
         Ok (msgs s, set_roles cp (r_respnd_ids s) (r_external_init_ids s) (msgs s)).
Proof.
  intros Hk. destruct (process_packets_spec cp roles_init (packets cp))
    as (s & Hs & Hinv & _).
  - intros p Hp. unfold known_types in Hk. rewrite Forall_forall in Hk. by apply Hk.
  - apply roles_init_inv.
  - exists s. split_and!; try done. unfold det_id_roles_and_msgs. by rewrite Hs.
Qed.

(** *** The claims about the role pass *)

(** C5 (as amended). When every packet type is a key of [mtypes], the
    pass returns a message list in which a message whose [refer_msg_id]
    is set and the message it names point at each other: a reply names
    the earlier request it answers, a request names the later reply
    that answered it. No message is named by two messages, and a
    reference that is set after some prefix of the packets is the same
    in the returned list. *)
Theorem refer_links cp :
  known_types cp (packets cp) →
  ∃ ms cp', det_id_roles_and_msgs cp = Ok (ms, cp') ∧ messages cp' = ms ∧
    (∀ i m, ms !! i = Some m → msg_id m = i) ∧
    (∀ i m, ms !! i = Some m → refer_msg_id m ≠ -1 →
       ∃ j mj, refer_msg_id m = Z.of_nat j ∧ ms !! j = Some mj ∧
               refer_msg_id mj = Z.of_nat i ∧
               ((is_request (mtype m) = true ∧ is_reply (mtype mj) = true ∧ (i < j)%nat) ∨
                (is_reply (mtype m) = true ∧ is_request (mtype mj) = true ∧ (j < i)%nat))) ∧
    (∀ i1 i2 m1 m2, ms !! i1 = Some m1 → ms !! i2 = Some m2 →
       refer_msg_id m1 ≠ -1 → refer_msg_id m1 = refer_msg_id m2 → i1 = i2) ∧
    (∀ l1 l2, packets cp = l1 ++ l2 →
       ∃ s1, process_packets cp roles_init l1 = Ok s1 ∧
             ∀ i m, msgs s1 !! i = Some m → refer_msg_id m ≠ -1 → ms !! i = Some m).
Proof.
  intros Hk. destruct (det_id_roles_and_msgs_ok cp Hk) as (s & Hs & Hinv & Hdet).
  eexists _, _. split; [exact Hdet|]. split; [reflexivity|].
  split; [apply (inv_ids _ Hinv)|]. split; [apply (inv_linked _ Hinv)|]. split.
  - intros i1 i2 m1 m2 H1 H2 Hset Heq.
    destruct (inv_linked _ Hinv _ _ H1 Hset) as (j1 & q1 & Hr1 & Hq1 & Hb1 & _).
    destruct (inv_linked _ Hinv i2 m2 H2) as (j2 & q2 & Hr2 & Hq2 & Hb2 & _);
      [congruence|].
    assert (j1 = j2) by lia. simplify_eq. lia.
  - intros l1 l2 Hsplit. rewrite Hsplit in Hs, Hk.
    rewrite process_packets_app in Hs.
    destruct (process_packets cp roles_init l1) as [s1|] eqn:H1; [|done].
    simpl in Hs. exists s1. split; [done|].
    unfold known_types in Hk. rewrite Forall_app in Hk. destruct Hk as [Hk1 Hk2].
    destruct (process_packets_spec cp roles_init l1) as (s1' & H1' & Hinv1 & _);
      [by apply Forall_forall | apply roles_init_inv |].
    rewrite H1 in H1'. injection H1' as <-.
    destruct (process_packets_spec cp s1 l2) as (s2 & H2 & _ & Hst);
      [by apply Forall_forall | done |].
    rewrite Hs in H2. injection H2 as <-. exact Hst.
Qed.

Lemma refer_links_witness :
  ∃ ms cp', det_id_roles_and_msgs (mapped hello_and_reply ["a"]) = Ok (ms, cp') ∧
            messages cp' = ms.
Proof.
  destruct (refer_links (mapped hello_and_reply ["a"])) as (ms & cp' & H1 & H2 & _).
  - repeat constructor; vm_compute; eauto.
  - exists ms, cp'. split; assumption.
Defined.

(** C5 as stated fails: the hello of a is message 0 of the returned
    list and names its reply, message 1, which comes later. *)
Lemma request_refers_forward :
  ∃ ms cp', det_id_roles_and_msgs (mapped hello_and_reply ["a"]) = Ok (ms, cp') ∧
            ¬ refers_earlier ms.
Proof.
  eexists _, _. split; [vm_compute; reflexivity|].
  intros H. specialize (H 0%nat _ eq_refl). simpl in H. lia.
Qed.

(** C6 (as amended). A reply for whose pair no request is pending is
    dropped while no request at all has been processed ([req_seen] is
    still false). Once a request has been processed, such a reply, when
    its destination is mapped or when NAT is off and its source is
    mapped, is appended with an unset reference; the messages before it
    and the pending requests stay as they are. *)
Theorem reply_without_pending cp s p t :
  mtypes cp !! Type_ p = Some t → is_reply t = true →
  prev_reqs s !! msg_str (Dst p) (Src p) = None →
  (req_seen s = false → process_packet cp s p = Ok s) ∧
  (req_seen s = true →
   Dst p ∈ local_init_ids cp ∨ (nat_ cp = false ∧ Src p ∈ local_init_ids cp) →
   ∃ s', process_packet cp s p = Ok s' ∧
         msgs s' = msgs s ++ [mkMessage (next_id s) (Src p) (Dst p) t (Time_ p) (-1)
                                (default (-1) (LineNumber p))] ∧
         prev_reqs s' = prev_reqs s ∧ req_seen s' = true).
Proof.
  intros Ht Hrep Hnone. unfold process_packet. rewrite Ht.
  assert (Hreq : is_request t = false) by (destruct t; done).
  assert (Hto : bool_decide (t = TIMEOUT) = false).
  { apply bool_decide_eq_false. intros ->. done. }
  rewrite Hreq, Hrep, !bool_decide_not. split.
  - intros ->. simpl. rewrite Hto. simpl. by destruct (_ && _).
  - intros Hseen Hmapped. rewrite Hseen. simpl. unfold add_reply. rewrite Hnone.
    destruct (bool_decide (Src p ∈ local_init_ids cp)) eqn:Ea;
      destruct (bool_decide (Dst p ∈ local_init_ids cp)) eqn:Eb;
      destruct (nat_ cp) eqn:En; simpl;
      try (eexists; split_and!; (reflexivity || exact Hseen)); exfalso;
      try apply bool_decide_eq_false in Ea; try apply bool_decide_eq_false in Eb;
      destruct Hmapped as [? | [? ?]]; done.
Qed.

Lemma reply_without_pending_witness :
  ∃ s', process_packet (mapped hello_then_stray_reply ["a"; "c"])
          (add_request roles_init {["b"]} ∅ (mkPacket "a" "b" 103 0 None) SALITY_HELLO)
          (mkPacket "d" "c" 104 1 None) = Ok s' ∧
        length (msgs s') = 2%nat.
Proof.
  destruct (reply_without_pending (mapped hello_then_stray_reply ["a"; "c"])
              (add_request roles_init {["b"]} ∅ (mkPacket "a" "b" 103 0 None) SALITY_HELLO)
              (mkPacket "d" "c" 104 1 None) SALITY_HELLO_REPLY) as [_ H].
  - vm_compute. reflexivity.
  - reflexivity.
  - vm_compute. reflexivity.
  - destruct H as (s' & H1 & H2 & _).
    + reflexivity.
    + left. vm_compute. set_solver.
    + exists s'. split; [exact H1|]. rewrite H2. reflexivity.
Defined.

(** C6 as stated fails: a has sent a hello to b, and the reply of d to
    the mapped peer c, for which no request is pending, is kept as
    message 1 of the returned list. *)
Lemma stray_reply_kept :
  ¬ drops_unmatched_replies (mapped hello_then_stray_reply ["a"; "c"]) ∧
  ∃ ms cp', det_id_roles_and_msgs (mapped hello_then_stray_reply ["a"; "c"])
              = Ok (ms, cp') ∧
            ms !! 1%nat = Some (mkMessage 1 "d" "c" SALITY_HELLO_REPLY 1 (-1) (-1)).
Proof.
  split.
  - intros H.
    specialize (H (add_request roles_init {["b"]} ∅ (mkPacket "a" "b" 103 0 None)
                     SALITY_HELLO)
                  (mkPacket "d" "c" 104 1 None) SALITY_HELLO_REPLY).
    assert (Hlen : ∀ s s', Ok s = Ok s' → length (msgs s) = length (msgs s')).
    { intros s s' [= ->]. reflexivity. }
    apply Hlen in H.
    + vm_compute in H. discriminate.
    + apply add_request_inv; [reflexivity | apply roles_init_inv].
    + vm_compute. reflexivity.
    + reflexivity.
    + vm_compute. reflexivity.
  - eexists _, _. split; vm_compute; reflexivity.
Qed.

(** *** The claims about interval selection *)

(** C7, on the log without messages: the first draw of a start index is
    [randrange(0, 0)], which raises [ValueError]; no empty dict is
    returned. *)
Theorem random_search_empty_log g :
  get_comm_interval empty_log_search g = Raise ValueError.
Proof. reflexivity. Qed.

(** An interval with two initiators for a target of one. *)
Definition over_selected : CommProc :=
  mkCommProc [] sality_mtypes false "custom" 1 10 (Some 1) (Some 2)
    (Dict ["a"; "b"] 0 1) [] ∅ ∅ ∅ one_initiator_cpp.

(** C8 (as amended). [get_messages] removes ids from an over-selected
    interval until exactly [number_ids] are left, and leaves an interval
    that is not over-selected as it is; the mapped id set is the set of
    the ids that are left. [get_comm_interval] returns the empty dict or
    an interval with at least one participant: a custom search between
    two given indices returns the initiators found between them, however
    few of them there are. *)
Theorem interval_target_count :
  (∀ cp g ids s e,
     interval cp = Dict ids s e → 0 ≤ number_ids cp →
     known_types cp (get_messages_cpp (cpp_comm_proc cp) s e) →
     ∃ ms cp' g' ids',
       get_messages cp g = Ok (ms, cp', g') ∧
       interval cp' = Dict ids' s e ∧ ids' `sublist_of` ids ∧
       Z.of_nat (length ids') ≤ number_ids cp ∧
       length ids' = (length ids `min` Z.to_nat (number_ids cp))%nat ∧
       local_init_ids cp' = list_to_set ids' ∧
       Z.of_nat (size (local_init_ids cp')) ≤ number_ids cp ∧
       (Z.of_nat (length ids) ≤ number_ids cp → ids' = ids)) ∧
  (∀ cp g i cp' g',
     get_comm_interval cp g = Ok (i, cp', g') → i = EmptyDict ∨ has_ids i = true) ∧
  (∀ cp g a b,
     strategy cp = "custom" → start_idx cp = Some a → end_idx cp = Some b →
     a ≠ 0 → b ≠ 0 →
     get_interval_init_ids (cpp_comm_proc cp) (a - 1) (b - 1) ≠ [] →
     ∃ cp', get_comm_interval cp g =
              Ok (Dict (get_interval_init_ids (cpp_comm_proc cp) (a - 1) (b - 1))
                    (a - 1) (b - 1), cp', g)).
Proof.
  split; [|split].
  - intros cp g ids s e Hi Hn Hk. unfold get_messages. rewrite Hi.
    destruct (truncate_ids_spec (S (length ids)) (number_ids cp) ids g)
      as (ids' & g' & Ht & Hle & Hsub & Hsame); [done | lia |].
    rewrite Ht. simpl.
    destruct (truncate_ids_draws _ _ _ _ _ _ Hn (Nat.lt_succ_diag_r _) Ht) as [_ Hmin].
    destruct (det_id_roles_and_msgs_ok
                (set_mapping (set_interval cp (Dict ids' s e))
                   (get_messages_cpp (cpp_comm_proc cp) s e) ids'))
      as (r & _ & _ & Hdet); [exact Hk|].
    rewrite Hdet. simpl. eexists _, _, g', ids'. split; [reflexivity|].
    simpl. split_and!; try done.
    pose proof (size_list_to_set_le ids'). lia.
  - intros cp g i cp' g'. unfold get_comm_interval.
    destruct (select_interval cp g) as [[cp1 g1]|]; [|done]. simpl.
    destruct (has_ids (interval cp1)) eqn:E; intros [= <- <- <-]; simpl; auto.
  - intros cp g a b Hs Ha Hb Hna Hnb Hids.
    unfold get_comm_interval, select_interval. rewrite Hs, Ha, Hb. simpl.
    destruct (Z.eqb_spec a 0) as [|_]; [done|].
    destruct (Z.eqb_spec b 0) as [|_]; [done|]. simpl.
    destruct (get_interval_init_ids _ _ _) as [|x l]; [done|]. simpl.
    eexists. reflexivity.
Qed.

Lemma interval_target_count_witness :
  (∃ ms cp' g' ids', get_messages over_selected zero_rng = Ok (ms, cp', g') ∧
                     interval cp' = Dict ids' 0 1 ∧
                     length ids' = 1%nat) ∧
  (∃ cp', get_comm_interval custom_search zero_rng = Ok (Dict ["a"] 0 1, cp', zero_rng)).
Proof.
  destruct interval_target_count as (Hget & _ & Hcustom). split.
  - destruct (Hget over_selected zero_rng ["a"; "b"] 0 1)
      as (ms & cp' & g' & ids' & H1 & H2 & _ & _ & H3 & _).
    + reflexivity.
    + simpl. lia.
    + repeat constructor; vm_compute; eauto.
    + exists ms, cp', g', ids'. split_and!; assumption.
  - apply (Hcustom custom_search zero_rng 1 2); try reflexivity; try lia.
    simpl. discriminate.
Defined.

(** C8 as stated fails: the custom search for five initiators between
    the indices 1 and 2 returns the interval with the single initiator
    a. *)
Lemma under_selected_interval_accepted : ¬ rejects_under_selection custom_search.
Proof.
  intros H.
  specialize (H zero_rng ["a"] 0 1
                (set_interval (set_idx custom_search (Some 0) (Some 1)) (Dict ["a"] 0 1))
                zero_rng eq_refl).
  simpl in H. lia.
Qed.

(** *** What one round of the pass can do *)

(** The message that a request, a reply or a timeout appends. *)
Definition new_msg (s : roles) (p : packet) (t : MessageType) (refer : Z) : Message :=
  mkMessage (next_id s) (Src p) (Dst p) t (Time_ p) refer (default (-1) (LineNumber p)).

Lemma add_reply_cases s rs es p t s' :
  add_reply s rs es p t = Ok s' →
  (prev_reqs s !! msg_str (Dst p) (Src p) = None ∧
   s' = mkRoles rs (msgs s ++ [new_msg s p t (-1)]) (S (next_id s)) (prev_reqs s)
          (req_seen s) es) ∨
  (∃ r q, prev_reqs s !! msg_str (Dst p) (Src p) = Some r ∧ msgs s !! r = Some q ∧
          s' = mkRoles rs
                 (<[r := with_refer q (Z.of_nat (next_id s))]> (msgs s)
                    ++ [new_msg s p t (Z.of_nat r)])
                 (S (next_id s)) (delete (msg_str (Dst p) (Src p)) (prev_reqs s))
                 (req_seen s) es).
Proof.
  unfold add_reply, set_refer.
  destruct (prev_reqs s !! msg_str (Dst p) (Src p)) as [r|]; [|intros [= <-]; by left].
  destruct (msgs s !! r) as [q|] eqn:Hq; [|discriminate].
  intros [= <-]. right. by exists r, q.
Qed.

Lemma add_timeout_cases s p s' :
  add_timeout s p = Ok s' →
  (prev_reqs s !! msg_str (Dst p) (Src p) = None ∧ s' = s) ∨
  (∃ r q, prev_reqs s !! msg_str (Dst p) (Src p) = Some r ∧ msgs s !! r = Some q ∧
          s' = mkRoles (r_respnd_ids s)
                 (<[r := with_refer q (Z.of_nat (next_id s))]> (msgs s)
                    ++ [new_msg s p
                          (if decide (mtype q = SALITY_NL_REQUEST)
                           then SALITY_NL_REPLY else SALITY_HELLO_REPLY)
                          (Z.of_nat r)])
                 (S (next_id s)) (delete (msg_str (Dst p) (Src p)) (prev_reqs s))
                 (req_seen s) (r_external_init_ids s)).
Proof.
  unfold add_timeout, set_refer.
  destruct (prev_reqs s !! msg_str (Dst p) (Src p)) as [r|]; [|intros [= <-]; by left].
  destruct (msgs s !! r) as [q|] eqn:Hq; [|discriminate].
  cbn [mbind result_bind].
  rewrite list_lookup_insert_eq by (by eapply lookup_lt_Some).
  intros [= <-]. right. by exists r, q.
Qed.

(** The rounds that change the state: a request from an outside peer
    to a mapped one (NAT off) or from a mapped peer, a reply to an
    outside peer from a mapped one (NAT off) or to a mapped peer, each
    with the role it records, and a timeout of a mapped peer (NAT off). *)
Inductive round (cp : CommProc) (s : roles) (p : packet) : roles → Prop :=
| round_skip : round cp s p s
| round_request_external t :
    mtypes cp !! Type_ p = Some t → is_request t = true →
    nat_ cp = false → Dst p ∈ local_init_ids cp → Src p ∉ local_init_ids cp →
    round cp s p (add_request s (r_respnd_ids s) ({[Src p]} ∪ r_external_init_ids s) p t)
| round_request_local t :
    mtypes cp !! Type_ p = Some t → is_request t = true →
    Src p ∈ local_init_ids cp →
    round cp s p (add_request s ({[Dst p]} ∪ r_respnd_ids s) (r_external_init_ids s) p t)
| round_reply_external t s' :
    mtypes cp !! Type_ p = Some t → is_reply t = true → req_seen s = true →
    nat_ cp = false → Src p ∈ local_init_ids cp → Dst p ∉ local_init_ids cp →
    add_reply s (r_respnd_ids s) ({[Dst p]} ∪ r_external_init_ids s) p t = Ok s' →
    round cp s p s'
| round_reply_local t s' :
    mtypes cp !! Type_ p = Some t → is_reply t = true → req_seen s = true →
    Dst p ∈ local_init_ids cp →
    add_reply s ({[Src p]} ∪ r_respnd_ids s) (r_external_init_ids s) p t = Ok s' →
    round cp s p s'
| round_timeout s' :
    mtypes cp !! Type_ p = Some TIMEOUT → nat_ cp = false →
    Src p ∈ local_init_ids cp → add_timeout s p = Ok s' →
    round cp s p s'.

Lemma process_packet_round cp s p s' :
  process_packet cp s p = Ok s' → round cp s p s'.
Proof.
  unfold process_packet. rewrite !bool_decide_not.
  destruct (bool_decide (Src p ∈ local_init_ids cp)) eqn:Ea;
    destruct (bool_decide (Dst p ∈ local_init_ids cp)) eqn:Eb;
    cbn [negb andb];
    try apply bool_decide_eq_true in Ea; try apply bool_decide_eq_true in Eb;
    try apply bool_decide_eq_false in Ea; try apply bool_decide_eq_false in Eb.
  4: { intros [= <-]. constructor. }
  all: destruct (mtypes cp !! Type_ p) as [t|] eqn:Ht; [|discriminate].
  all: destruct (is_request t) eqn:Hreq;
    [ destruct (nat_ cp) eqn:En; cbn [negb andb]; intros [= <-];
      solve [ constructor | by eapply round_request_local
            | by eapply round_request_external ] |].
  all: destruct (is_reply t) eqn:Hrep; destruct (req_seen s) eqn:Hseen;
    destruct (nat_ cp) eqn:En; cbn [negb andb]; rewrite ?andb_false_r;
    try (intros [= <-]; constructor).
  all: try (intros H; solve [ by eapply round_reply_local
                            | by eapply round_reply_external ]).
  all: destruct (bool_decide (t = TIMEOUT)) eqn:Et; cbn [negb andb];
    try (intros [= <-]; constructor).
  all: apply bool_decide_eq_true in Et; subst t; intros H;
    by eapply round_timeout.
Qed.

Lemma round_inv cp s p s' : roles_inv s → round cp s p s' → roles_inv s'.
Proof.
  intros Hinv Hr.
  destruct Hr as [ | t Ht Hreq Hn Hb Ha | t Ht Hreq Ha
                 | t s' Ht Hrep Hs Hn Ha Hb Hadd | t s' Ht Hrep Hs Hb Hadd
                 | s' Ht Hn Ha Hadd ].
  - done.
  - by apply add_request_inv.
  - by apply add_request_inv.
  - destruct (add_reply_spec s (r_respnd_ids s) ({[Dst p]} ∪ r_external_init_ids s) p t
                Hrep Hinv) as (sx & Hx & Hinvx & _). congruence.
  - destruct (add_reply_spec s ({[Src p]} ∪ r_respnd_ids s) (r_external_init_ids s) p t
                Hrep Hinv) as (sx & Hx & Hinvx & _). congruence.
  - destruct (add_timeout_spec s p Hinv) as (sx & Hx & Hinvx & _). congruence.
Qed.

Lemma process_packets_ind cp (I : roles → Prop) :
  (∀ s p s', roles_inv s → I s → round cp s p s' → I s') →
  ∀ l s s', roles_inv s → I s → process_packets cp s l = Ok s' → roles_inv s' ∧ I s'.
Proof.
  intros Hstep. induction l as [|p l IH]; intros s s' Hinv HI H; simpl in H.
  - by injection H as <-.
  - destruct (process_packet cp s p) as [s1|] eqn:Hp; [|discriminate H].
    cbn [mbind result_bind] in H. apply process_packet_round in Hp.
    eapply IH; [| |exact H]; eauto using round_inv.
Qed.

(** What a round leaves of the messages: their number grows by at most
    one, and every message keeps its place, its peers and its type. *)
Definition same_fields (m m' : Message) : Prop :=
  msg_id m' = msg_id m ∧ src m' = src m ∧ dst m' = dst m ∧ mtype m' = mtype m ∧
  mtime m' = mtime m ∧ line_no m' = line_no m.

Lemma same_fields_insert (l : list Message) r q v i m x :
  l !! r = Some q → l !! i = Some m →
  ∃ m', (<[r := with_refer q v]> l ++ x) !! i = Some m' ∧ same_fields m m'.
Proof.
  intros Hq Hi. destruct (decide (i = r)) as [->|Hne].
  - exists (with_refer q v). split; [|by simplify_eq].
    apply lookup_app_l_Some. apply list_lookup_insert_eq. by eapply lookup_lt_Some.
  - exists m. split; [|done].
    apply lookup_app_l_Some. by rewrite list_lookup_insert_ne.
Qed.

Lemma round_msgs cp s p s' :
  round cp s p s' →
  (length (msgs s') ≤ S (length (msgs s)))%nat ∧
  ∀ i m, msgs s !! i = Some m → ∃ m', msgs s' !! i = Some m' ∧ same_fields m m'.
Proof.
  assert (Happ : ∀ x, (length (msgs s ++ [x]) ≤ S (length (msgs s)))%nat ∧
            ∀ i m, msgs s !! i = Some m →
                   ∃ m', (msgs s ++ [x]) !! i = Some m' ∧ same_fields m m').
  { intros x. split; [rewrite length_app; simpl; lia|].
    intros i m Hi. exists m. split; [by apply lookup_app_l_Some | done]. }
  assert (Hins : ∀ r q v x, msgs s !! r = Some q →
            (length (<[r := with_refer q v]> (msgs s) ++ [x]) ≤ S (length (msgs s)))%nat ∧
            ∀ i m, msgs s !! i = Some m →
                   ∃ m', (<[r := with_refer q v]> (msgs s) ++ [x]) !! i = Some m'
                         ∧ same_fields m m').
  { intros r q v x Hq. split; [rewrite length_app, length_insert; simpl; lia|].
    intros i m Hi. by apply same_fields_insert. }
  assert (Hid : (length (msgs s) ≤ S (length (msgs s)))%nat ∧
            ∀ i m, msgs s !! i = Some m → ∃ m', msgs s !! i = Some m' ∧ same_fields m m').
  { split; [lia|]. intros i m Hi. by exists m. }
  intros [ | t | t | t s2 _ _ _ _ _ _ Hadd | t s2 _ _ _ _ Hadd | s2 _ _ _ Hadd ];
    try done; try apply Happ.
  - apply add_reply_cases in Hadd as [[_ ->] | (r & q & _ & Hq & ->)]; cbn [msgs]; auto.
  - apply add_reply_cases in Hadd as [[_ ->] | (r & q & _ & Hq & ->)]; cbn [msgs]; auto.
  - apply add_timeout_cases in Hadd as [[_ ->] | (r & q & _ & Hq & ->)]; cbn [msgs]; auto.
Qed.

(** The roles that the pass has recorded and the messages behind them. *)
Record roles_sets (cp : CommProc) (s : roles) : Prop := mkRolesSets {
  rs_external : ∀ x, x ∈ r_external_init_ids s →
    (x ∉ local_init_ids cp) ∧ nat_ cp = false ∧
    ∃ m, m ∈ msgs s ∧
         ((is_request (mtype m) = true ∧ src m = x ∧ dst m ∈ local_init_ids cp) ∨
          (is_reply (mtype m) = true ∧ dst m = x ∧ src m ∈ local_init_ids cp));
  rs_respnd : ∀ x, x ∈ r_respnd_ids s →
    ∃ m, m ∈ msgs s ∧
         ((is_request (mtype m) = true ∧ dst m = x ∧ src m ∈ local_init_ids cp) ∨
          (is_reply (mtype m) = true ∧ src m = x ∧ dst m ∈ local_init_ids cp));
  rs_mapped : ∀ m, m ∈ msgs s → src m ∈ local_init_ids cp ∨ dst m ∈ local_init_ids cp
}.

(** A peer that a message of the list shows as the initiator of an
    exchange with a mapped peer, from outside. *)
Definition shows_external (cp : CommProc) (x : string) (m : Message) : Prop :=
  (is_request (mtype m) = true ∧ src m = x ∧ dst m ∈ local_init_ids cp) ∨
  (is_reply (mtype m) = true ∧ dst m = x ∧ src m ∈ local_init_ids cp).

(** A peer that a message of the list shows as answering a mapped peer. *)
Definition shows_responder (cp : CommProc) (x : string) (m : Message) : Prop :=
  (is_request (mtype m) = true ∧ dst m = x ∧ src m ∈ local_init_ids cp) ∨
  (is_reply (mtype m) = true ∧ src m = x ∧ dst m ∈ local_init_ids cp).

Lemma shows_external_same cp x m m' :
  same_fields m m' → shows_external cp x m → shows_external cp x m'.
Proof. intros (_ & Hs & Hd & Ht & _). unfold shows_external. by rewrite Hs, Hd, Ht. Qed.

Lemma shows_responder_same cp x m m' :
  same_fields m m' → shows_responder cp x m → shows_responder cp x m'.
Proof. intros (_ & Hs & Hd & Ht & _). unfold shows_responder. by rewrite Hs, Hd, Ht. Qed.

(** The messages [l'] are those of [l], with the same fields, and [x]. *)
Definition extends (l l' : list Message) (x : Message) : Prop :=
  x ∈ l' ∧
  (∀ m, m ∈ l → ∃ m', m' ∈ l' ∧ same_fields m m') ∧
  (∀ m', m' ∈ l' → m' = x ∨ ∃ m, m ∈ l ∧ same_fields m m').

Lemma extends_app l x : extends l (l ++ [x]) x.
Proof.
  split; [set_solver|]. split.
  - intros m Hm. exists m. split; [set_solver | done].
  - intros m' [Hm | Hm%list_elem_of_singleton]%elem_of_app; [right | by left].
    by exists m'.
Qed.

Lemma extends_insert (l : list Message) r q v x :
  l !! r = Some q → extends l (<[r := with_refer q v]> l ++ [x]) x.
Proof.
  intros Hq. split; [set_solver|]. split.
  - intros m (i & Hi)%list_elem_of_lookup.
    destruct (same_fields_insert l r q v i m [x] Hq Hi) as (m' & Hm' & Hs).
    exists m'. split; [by eapply list_elem_of_lookup_2 | done].
  - intros m' [Hm | Hm%list_elem_of_singleton]%elem_of_app; [right | by left].
    apply list_elem_of_lookup in Hm as (i & Hi).
    destruct (decide (i = r)) as [->|Hne].
    + rewrite list_lookup_insert_eq in Hi by (by eapply lookup_lt_Some).
      injection Hi as <-. exists q. split; [by eapply list_elem_of_lookup_2 | done].
    + rewrite list_lookup_insert_ne in Hi by done.
      exists m'. split; [by eapply list_elem_of_lookup_2 | done].
Qed.

Lemma roles_sets_extend cp s l' x rs es n prev seen :
  roles_sets cp s → extends (msgs s) l' x →
  src x ∈ local_init_ids cp ∨ dst x ∈ local_init_ids cp →
  (∀ y, y ∈ es → y ∈ r_external_init_ids s ∨
                 ((y ∉ local_init_ids cp) ∧ nat_ cp = false ∧ shows_external cp y x)) →
  (∀ y, y ∈ rs → y ∈ r_respnd_ids s ∨ shows_responder cp y x) →
  roles_sets cp (mkRoles rs l' n prev seen es).
Proof.
  intros [He Hr Hm] (Hx & Hfwd & Hback) Hmx Hes Hrs. constructor; cbn.
  - intros y Hy. destruct (Hes y Hy) as [Hold | (? & ? & ?)]; [|by eauto 6].
    destruct (He y Hold) as (? & ? & m & Hin & Hsh).
    destruct (Hfwd m Hin) as (m' & Hin' & Hsame).
    split_and!; try done. exists m'. split; [done|].
    by eapply shows_external_same.
  - intros y Hy. destruct (Hrs y Hy) as [Hold | ?]; [|by eauto].
    destruct (Hr y Hold) as (m & Hin & Hsh).
    destruct (Hfwd m Hin) as (m' & Hin' & Hsame).
    exists m'. split; [done|]. by eapply shows_responder_same.
  - intros m' Hin'. destruct (Hback m' Hin') as [-> | (m & Hin & Hsame)]; [done|].
    destruct Hsame as (_ & -> & -> & _). by apply Hm.
Qed.

Lemma round_sets cp s p s' :
  roles_inv s → roles_sets cp s → round cp s p s' → roles_sets cp s'.
Proof.
  intros Hinv Hs Hr.
  destruct Hr as [ | t Ht Hreq Hn Hb Ha | t Ht Hreq Ha
                 | t s2 Ht Hrep Hseen Hn Ha Hb Hadd | t s2 Ht Hrep Hseen Hb Hadd
                 | s2 Ht Hn Ha Hadd ].
  - done.
  - unfold add_request. eapply roles_sets_extend; [done | apply extends_app | ..].
    + by right.
    + intros y [->%elem_of_singleton | Hy]%elem_of_union; [right | by left].
      split_and!; try done. by left.
    + by left.
  - unfold add_request. eapply roles_sets_extend; [done | apply extends_app | ..].
    + by left.
    + by left.
    + intros y [->%elem_of_singleton | Hy]%elem_of_union; [right | by left].
      by left.
  - assert (Hext : ∀ refer y, y ∈ {[Dst p]} ∪ r_external_init_ids s →
              y ∈ r_external_init_ids s ∨
              ((y ∉ local_init_ids cp) ∧ nat_ cp = false ∧
               shows_external cp y (new_msg s p t refer))).
    { intros refer y [->%elem_of_singleton | Hy]%elem_of_union; [right | by left].
      split_and!; try done. by right. }
    apply add_reply_cases in Hadd as [[_ ->] | (r & q & _ & Hq & ->)].
    + eapply roles_sets_extend;
        [done | apply extends_app | by left | apply Hext | by left].
    + eapply roles_sets_extend;
        [done | by apply extends_insert | by left | apply Hext | by left].
  - assert (Hres : ∀ refer y, y ∈ {[Src p]} ∪ r_respnd_ids s →
              y ∈ r_respnd_ids s ∨ shows_responder cp y (new_msg s p t refer)).
    { intros refer y [->%elem_of_singleton | Hy]%elem_of_union; [right | by left].
      by right. }
    apply add_reply_cases in Hadd as [[_ ->] | (r & q & _ & Hq & ->)].
    + eapply roles_sets_extend;
        [done | apply extends_app | by right | by left | apply Hres].
    + eapply roles_sets_extend;
        [done | by apply extends_insert | by right | by left | apply Hres].
  - apply add_timeout_cases in Hadd as [[_ ->] | (r & q & _ & Hq & ->)]; [done|].
    eapply roles_sets_extend;
      [done | by apply extends_insert | by left | by left | by left].
Qed.

Lemma roles_init_sets cp : roles_sets cp roles_init.
Proof. constructor; cbn; set_solver. Qed.

Lemma process_packets_length cp l : ∀ s s',
  process_packets cp s l = Ok s' →
  (length (msgs s') ≤ length (msgs s) + length l)%nat.
Proof.
  induction l as [|p l IH]; intros s s' H; simpl in H.
  - injection H as <-. lia.
  - destruct (process_packet cp s p) as [s1|] eqn:Hp; [|discriminate H].
    cbn [mbind result_bind] in H. apply process_packet_round, round_msgs in Hp as [Hp _].
    apply IH in H. simpl. lia.
Qed.

Lemma det_id_roles_and_msgs_inv cp ms cp' :
  det_id_roles_and_msgs cp = Ok (ms, cp') →
  ∃ s, process_packets cp roles_init (packets cp) = Ok s ∧
       ms = msgs s ∧
       cp' = set_roles cp (r_respnd_ids s) (r_external_init_ids s) (msgs s).
Proof.
  unfold det_id_roles_and_msgs.
  destruct (process_packets cp roles_init (packets cp)) as [s|]; [|discriminate].
  cbn [mbind result_bind]. intros [= <- <-]. by exists s.
Qed.

(** A packet that the pass looks at: one of its peers is mapped. *)
Definition relevant (cp : CommProc) (p : packet) : Prop :=
  Src p ∈ local_init_ids cp ∨ Dst p ∈ local_init_ids cp.

Lemma process_packet_skip cp s p :
  ¬ relevant cp p → process_packet cp s p = Ok s.
Proof.
  intros Hn. unfold process_packet.
  assert (Ha : Src p ∉ local_init_ids cp) by (intros ?; apply Hn; by left).
  assert (Hb : Dst p ∉ local_init_ids cp) by (intros ?; apply Hn; by right).
  by rewrite (bool_decide_eq_true_2 _ Ha), (bool_decide_eq_true_2 _ Hb).
Qed.

Lemma process_packet_unknown cp s p :
  relevant cp p → mtypes cp !! Type_ p = None → process_packet cp s p = Raise KeyError.
Proof.
  intros Hr Hn. unfold process_packet. rewrite Hn.
  destruct (bool_decide (Src p ∉ local_init_ids cp)) eqn:Ea;
    destruct (bool_decide (Dst p ∉ local_init_ids cp)) eqn:Eb; try done.
  apply bool_decide_eq_true in Ea, Eb. by destruct Hr.
Qed.

#[global] Instance relevant_dec cp p : Decision (relevant cp p).
Proof. unfold relevant. apply _. Defined.

(** *** More about the role pass *)

(** X1. The pass returns when the type of every packet it looks at is a key
    of [mtypes]; otherwise it raises [KeyError], and it raises nothing
    else: the indices it takes from the pending requests are in range.
    A packet between two unmapped peers is not looked at. *)
Theorem role_pass_raises_only_KeyError cp :
  (Forall (fun p => relevant cp p → is_Some (mtypes cp !! Type_ p)) (packets cp) →
   ∃ ms cp', det_id_roles_and_msgs cp = Ok (ms, cp')) ∧
  (¬ Forall (fun p => relevant cp p → is_Some (mtypes cp !! Type_ p)) (packets cp) →
   det_id_roles_and_msgs cp = Raise KeyError).
Proof.
  assert (Hgen : ∀ l s, roles_inv s →
            (Forall (fun p => relevant cp p → is_Some (mtypes cp !! Type_ p)) l →
             ∃ s', process_packets cp s l = Ok s') ∧
            (¬ Forall (fun p => relevant cp p → is_Some (mtypes cp !! Type_ p)) l →
             process_packets cp s l = Raise KeyError)).
  { induction l as [|p l IH]; intros s Hinv.
    - split; [eauto|]. intros H. destruct H. constructor.
    - cbn [process_packets]. destruct (decide (relevant cp p)) as [Hr|Hr].
      + destruct (mtypes cp !! Type_ p) as [t|] eqn:Ht.
        * destruct (process_packet_spec cp s p) as (s1 & -> & Hinv1 & _);
            [by rewrite Ht | done |].
          cbn [mbind result_bind]. destruct (IH s1 Hinv1) as [IH1 IH2]. split.
          -- intros Hf. apply IH1. by inversion Hf.
          -- intros Hf. apply IH2. intros Hl. apply Hf. constructor; [|done].
             intros _. by rewrite Ht.
        * rewrite process_packet_unknown by done. cbn [mbind result_bind].
          split; [|done].
          intros Hf. exfalso. inversion Hf as [|? ? Hp _]; subst.
          destruct (Hp Hr) as [? Hsome]. rewrite Ht in Hsome. discriminate Hsome.
      + rewrite process_packet_skip by done. cbn [mbind result_bind].
        destruct (IH s Hinv) as [IH1 IH2]. split.
        * intros Hf. apply IH1. by inversion Hf.
        * intros Hf. apply IH2. intros Hl. apply Hf. by constructor. }
  destruct (Hgen (packets cp) roles_init roles_init_inv) as [H1 H2].
  unfold det_id_roles_and_msgs. split.
  - intros Hf. destruct (H1 Hf) as (s' & ->). cbn [mbind result_bind]. eauto.
  - intros Hf. by rewrite (H2 Hf).
Qed.

(** A hello between two unmapped peers with a type that [mtypes] does
    not know, before a hello of the mapped peer a. *)
Definition unknown_type_between_strangers : list packet :=
  [mkPacket "x" "y" 999 0 None; mkPacket "a" "b" 103 1 None].

Lemma role_pass_raises_only_KeyError_witness :
  (∃ ms cp', det_id_roles_and_msgs (mapped unknown_type_between_strangers ["a"])
             = Ok (ms, cp')) ∧
  det_id_roles_and_msgs (mapped unknown_type_between_strangers ["x"]) = Raise KeyError.
Proof.
  split.
  - apply (proj1 (role_pass_raises_only_KeyError
                    (mapped unknown_type_between_strangers ["a"]))).
    apply (bool_decide_unpack _). vm_compute. exact I.
  - apply (proj2 (role_pass_raises_only_KeyError
                    (mapped unknown_type_between_strangers ["x"]))).
    apply (bool_decide_unpack _). vm_compute. exact I.
Defined.

Lemma role_pass_sets cp ms cp' :
  det_id_roles_and_msgs cp = Ok (ms, cp') →
  ∃ s, ms = msgs s ∧ respnd_ids cp' = r_respnd_ids s ∧
       external_init_ids cp' = r_external_init_ids s ∧
       local_init_ids cp' = local_init_ids cp ∧
       roles_inv s ∧ roles_sets cp s ∧ (length ms ≤ length (packets cp))%nat.
Proof.
  intros H. apply det_id_roles_and_msgs_inv in H as (s & Hp & -> & ->).
  exists s. split_and!; try done.
  - eapply (process_packets_ind cp (roles_sets cp)); [| | |exact Hp];
      eauto using round_sets, roles_init_inv, roles_init_sets.
  - eapply (process_packets_ind cp (roles_sets cp)); [| | |exact Hp];
      eauto using round_sets, roles_init_inv, roles_init_sets.
  - apply process_packets_length in Hp. simpl in Hp. lia.
Qed.

(** X2. The roles that the pass records. An external initiator is never a
    mapped id and is recorded only without NAT; it is the source of a
    returned request to a mapped id, or the destination of a returned
    reply of a mapped id. A responder is the destination of a returned
    request of a mapped id, or the source of a returned reply to a
    mapped id. *)
Theorem recorded_roles cp ms cp' :
  det_id_roles_and_msgs cp = Ok (ms, cp') →
  (∀ x, x ∈ external_init_ids cp' →
     (x ∉ local_init_ids cp) ∧ nat_ cp = false ∧
     ∃ m, m ∈ ms ∧
          ((is_request (mtype m) = true ∧ src m = x ∧ dst m ∈ local_init_ids cp) ∨
           (is_reply (mtype m) = true ∧ dst m = x ∧ src m ∈ local_init_ids cp))) ∧
  (∀ x, x ∈ respnd_ids cp' →
     ∃ m, m ∈ ms ∧
          ((is_request (mtype m) = true ∧ dst m = x ∧ src m ∈ local_init_ids cp) ∨
           (is_reply (mtype m) = true ∧ src m = x ∧ dst m ∈ local_init_ids cp))).
Proof.
  intros H. apply role_pass_sets in H as (s & -> & -> & -> & _ & _ & [He Hr _] & _).
  split; [exact He | exact Hr].
Qed.

(** The hello of the outside peer x to the mapped peer a, a's reply,
    and a hello of a to b. *)
Definition hello_from_outside : list packet :=
  [mkPacket "x" "a" 103 0 None; mkPacket "a" "x" 104 1 None;
   mkPacket "a" "b" 103 2 None].

Lemma recorded_roles_witness :
  ∃ ms cp', det_id_roles_and_msgs (mapped hello_from_outside ["a"]) = Ok (ms, cp') ∧
            "x" ∈ external_init_ids cp' ∧
            ∃ m, m ∈ ms ∧ (src m = "x" ∨ dst m = "x").
Proof.
  destruct (det_id_roles_and_msgs (mapped hello_from_outside ["a"]))
    as [[ms cp']|] eqn:H; [|vm_compute in H; discriminate H].
  destruct (recorded_roles _ _ _ H) as [He _].
  assert (Hx : "x" ∈ external_init_ids cp').
  { vm_compute in H. injection H as _ <-. cbn. set_solver. }
  destruct (He "x" Hx) as (_ & _ & m & Hm & [(_ & Hs & _) | (_ & Hd & _)]).
  - exists ms, cp'. split_and!; try done. exists m. by split; [|left].
  - exists ms, cp'. split_and!; try done. exists m. by split; [|right].
Defined.

(** X3. Every returned message has a mapped peer at one end, and there are
    at most as many messages as packets. *)
Theorem returned_messages_are_mapped cp ms cp' :
  det_id_roles_and_msgs cp = Ok (ms, cp') →
  Forall (fun m => src m ∈ local_init_ids cp ∨ dst m ∈ local_init_ids cp) ms ∧
  (length ms ≤ length (packets cp))%nat.
Proof.
  intros H. apply role_pass_sets in H as (s & -> & _ & _ & _ & _ & [_ _ Hm] & Hlen).
  split; [|done]. by apply Forall_forall.
Qed.

Lemma returned_messages_are_mapped_witness :
  ∃ ms cp', det_id_roles_and_msgs (mapped unknown_type_between_strangers ["a"])
            = Ok (ms, cp') ∧ length ms = 1%nat ∧
            Forall (fun m => src m = "a" ∨ dst m = "a") ms.
Proof.
  destruct (det_id_roles_and_msgs (mapped unknown_type_between_strangers ["a"]))
    as [[ms cp']|] eqn:H; [|vm_compute in H; discriminate H].
  destruct (returned_messages_are_mapped _ _ _ H) as [Hm _].
  exists ms, cp'. split_and!; [done | |].
  - vm_compute in H. by injection H as <- _.
  - eapply Forall_impl; [exact Hm|]. intros m. cbn.
    rewrite !elem_of_union, !elem_of_singleton, !elem_of_empty. tauto.
Defined.


(** *** Which request a reply refers to *)

(** The key under which a request is pending is the key of its peers,
    and a reply that refers to a request has that key, read from its
    destination to its source. *)
Record keyed (s : roles) : Prop := mkKeyed {
  keyed_pending : ∀ k r, prev_reqs s !! k = Some r →
    ∃ q, msgs s !! r = Some q ∧ k = msg_str (src q) (dst q);
  keyed_reply : ∀ i m j, msgs s !! i = Some m → is_reply (mtype m) = true →
    refer_msg_id m = Z.of_nat j →
    ∃ q, msgs s !! j = Some q ∧ msg_str (src q) (dst q) = msg_str (dst m) (src m)
}.

Lemma is_request_not_reply t : is_request t = true → is_reply t = false.
Proof. by destruct t. Qed.

Lemma keyed_append s x rs es n prev seen :
  keyed s →
  (∀ k r, prev !! k = Some r →
     prev_reqs s !! k = Some r ∨
     (r = length (msgs s) ∧ k = msg_str (src x) (dst x))) →
  (is_reply (mtype x) = true → refer_msg_id x = -1) →
  keyed (mkRoles rs (msgs s ++ [x]) n prev seen es).
Proof.
  intros [Hp Hr] Hprev Hx. constructor; cbn.
  - intros k r Hk. destruct (Hprev k r Hk) as [Hold | [-> ->]].
    + destruct (Hp k r Hold) as (q & Hq & Hkey). exists q.
      split; [by apply lookup_app_l_Some | done].
    + exists x. split; [|done]. rewrite lookup_app_r by lia.
      by rewrite Nat.sub_diag.
  - intros i m j Hi Hrep Hj. apply lookup_app_Some in Hi as [Hi | [_ Hi]].
    + destruct (Hr i m j Hi Hrep Hj) as (q & Hq & Hkey). exists q.
      split; [by apply lookup_app_l_Some | done].
    + apply list_lookup_singleton_Some in Hi as [_ <-]. specialize (Hx Hrep). lia.
Qed.

Lemma keyed_link s p x r q v rs es n seen :
  roles_inv s → keyed s →
  prev_reqs s !! msg_str (Dst p) (Src p) = Some r → msgs s !! r = Some q →
  src x = Src p → dst x = Dst p → refer_msg_id x = Z.of_nat r →
  keyed (mkRoles rs (<[r := with_refer q v]> (msgs s) ++ [x]) n
           (delete (msg_str (Dst p) (Src p)) (prev_reqs s)) seen es).
Proof.
  intros Hinv [Hp Hr] Hk Hq Hsx Hdx Hrx.
  assert (Hkq : msg_str (src q) (dst q) = msg_str (Dst p) (Src p)).
  { destruct (Hp _ _ Hk) as (q' & Hq' & ->). congruence. }
  assert (Hreq : is_request (mtype q) = true).
  { destruct (inv_pending _ Hinv _ _ Hk) as (q' & Hq' & ? & _). congruence. }
  constructor; cbn.
  - intros k r' [_ Hk']%lookup_delete_Some.
    destruct (Hp k r' Hk') as (q' & Hq' & ->).
    destruct (same_fields_insert (msgs s) r q v r' q' [x] Hq Hq')
      as (m' & Hm' & _ & Hs' & Hd' & _).
    exists m'. split; [done|]. by rewrite Hs', Hd'.
  - intros i m j Hi Hrep Hj. apply lookup_app_Some in Hi as [Hi | [Hge Hi]].
    + destruct (decide (i = r)) as [->|Hne].
      * rewrite list_lookup_insert_eq in Hi by (by eapply lookup_lt_Some).
        injection Hi as <-. cbn in Hrep.
        rewrite (is_request_not_reply _ Hreq) in Hrep. discriminate Hrep.
      * rewrite list_lookup_insert_ne in Hi by done.
        destruct (Hr i m j Hi Hrep Hj) as (q' & Hq' & Hkey).
        destruct (same_fields_insert (msgs s) r q v j q' [x] Hq Hq')
          as (m' & Hm' & _ & Hs' & Hd' & _).
        exists m'. split; [done|]. by rewrite Hs', Hd'.
    + apply list_lookup_singleton_Some in Hi as [_ <-].
      assert (j = r) as -> by lia.
      exists (with_refer q v). split.
      * apply lookup_app_l_Some, list_lookup_insert_eq. by eapply lookup_lt_Some.
      * cbn. by rewrite Hkq, Hsx, Hdx.
Qed.

Lemma round_keyed cp s p s' : roles_inv s → keyed s → round cp s p s' → keyed s'.
Proof.
  intros Hinv Hk Hr.
  assert (Hreq : ∀ rs es t, is_request t = true → keyed (add_request s rs es p t)).
  { intros rs es t Ht. unfold add_request. apply keyed_append; [done| |].
    - intros k r Hkr. rewrite lookup_insert in Hkr. case_decide as Hd.
      + injection Hkr as <-. right. split; [apply (inv_next _ Hinv) | by subst k].
      + by left.
    - cbn. by rewrite (is_request_not_reply _ Ht). }
  assert (Hrep : ∀ rs es t s2, add_reply s rs es p t = Ok s2 → keyed s2).
  { intros rs es t s2 Hadd.
    apply add_reply_cases in Hadd as [[_ ->] | (r & q & Hpr & Hq & ->)].
    - apply keyed_append; [done | by left | done].
    - by eapply keyed_link. }
  destruct Hr as [ | t Ht Hrq Hn Hb Ha | t Ht Hrq Ha
                 | t s2 Ht Hrp Hseen Hn Ha Hb Hadd | t s2 Ht Hrp Hseen Hb Hadd
                 | s2 Ht Hn Ha Hadd ]; eauto.
  apply add_timeout_cases in Hadd as [[_ ->] | (r & q & Hpr & Hq & ->)]; [done|].
  by eapply keyed_link.
Qed.

Lemma roles_init_keyed : keyed roles_init.
Proof. constructor; cbn; [done|]. intros i m j Hi. by rewrite lookup_nil in Hi. Qed.

(** An id without the separator of the request key. *)
Fixpoint dash_free (a : string) : bool :=
  match a with
  | EmptyString => true
  | String c a' => negb (Ascii.eqb c "-"%char) && dash_free a'
  end.

Lemma msg_str_nil b : msg_str "" b = String "-" b.
Proof. reflexivity. Qed.

Lemma msg_str_cons c a b : msg_str (String c a) b = String c (msg_str a b).
Proof. reflexivity. Qed.

Lemma msg_str_inj a b a' b' :
  dash_free a = true → dash_free a' = true →
  msg_str a b = msg_str a' b' → a = a' ∧ b = b'.
Proof.
  revert a'. induction a as [|c a IH]; intros [|c' a'] Ha Ha';
    rewrite ?msg_str_nil, ?msg_str_cons.
  - by intros [= ->].
  - intros [= <- _]. cbn in Ha'. done.
  - intros [= -> _]. cbn in Ha. done.
  - intros [= <- H]. cbn in Ha, Ha'.
    apply andb_prop in Ha as [_ Ha]. apply andb_prop in Ha' as [_ Ha'].
    destruct (IH a' Ha Ha' H) as [-> ->]. done.
Qed.


Lemma role_pass_keyed cp ms cp' :
  det_id_roles_and_msgs cp = Ok (ms, cp') →
  ∃ s, ms = msgs s ∧ roles_inv s ∧ keyed s.
Proof.
  intros H. apply det_id_roles_and_msgs_inv in H as (s & Hp & -> & _).
  exists s. split; [done|].
  eapply (process_packets_ind cp keyed); [| | |exact Hp];
    eauto using round_keyed, roles_init_inv, roles_init_keyed.
Qed.

(** X4. The request that a returned reply refers to was pending under the
    key of the reply: ["{0}-{1}".format] of the reply's destination and
    source is the same string for the source and destination of the
    request. When the two sources contain no "-", the request went from
    the reply's destination to the reply's source; ids with a "-" can
    share a key without being the same pair. *)
Theorem reply_refers_to_its_key cp ms cp' :
  det_id_roles_and_msgs cp = Ok (ms, cp') →
  ∀ i m j, ms !! i = Some m → is_reply (mtype m) = true →
           refer_msg_id m = Z.of_nat j →
    ∃ q, ms !! j = Some q ∧ is_request (mtype q) = true ∧
         refer_msg_id q = Z.of_nat i ∧ (j < i)%nat ∧
         msg_str (src q) (dst q) = msg_str (dst m) (src m) ∧
         (dash_free (src q) = true → dash_free (dst m) = true →
          src q = dst m ∧ dst q = src m).
Proof.
  intros H i m j Hi Hrep Hj.
  apply role_pass_keyed in H as (s & -> & Hinv & [_ Hk]).
  destruct (Hk i m j Hi Hrep Hj) as (q & Hq & Hkey).
  destruct (inv_linked _ Hinv i m Hi) as (j' & q' & Hj' & Hq' & Hback & Hkind); [lia|].
  assert (j' = j) as -> by lia. rewrite Hq in Hq'. injection Hq' as <-.
  exists q. destruct Hkind as [(Hreq & _) | (_ & Hreq & Hlt)].
  - rewrite (is_request_not_reply _ Hreq) in Hrep. discriminate Hrep.
  - split_and!; try done. intros Ha Hb. by apply msg_str_inj.
Qed.

Lemma reply_refers_to_its_key_witness :
  ∃ ms cp' m q, det_id_roles_and_msgs (mapped hello_and_reply ["a"]) = Ok (ms, cp') ∧
                ms !! 1%nat = Some m ∧ ms !! 0%nat = Some q ∧
                src q = dst m ∧ dst q = src m.
Proof.
  destruct (det_id_roles_and_msgs (mapped hello_and_reply ["a"]))
    as [[ms cp']|] eqn:H; [|vm_compute in H; discriminate H].
  assert (Hm : ms !! 1%nat = Some (mkMessage 1 "b" "a" SALITY_HELLO_REPLY 1 0 (-1))).
  { vm_compute in H. by injection H as <- _. }
  destruct (reply_refers_to_its_key _ _ _ H 1%nat _ 0%nat Hm eq_refl eq_refl)
    as (q & Hq & _ & _ & _ & _ & Hpair).
  destruct Hpair as [Hs Hd].
  - assert (Hsrc : src q = "a").
    { vm_compute in H. injection H as <- _. by injection Hq as <-. }
    by rewrite Hsrc.
  - reflexivity.
  - by exists ms, cp', (mkMessage 1 "b" "a" SALITY_HELLO_REPLY 1 0 (-1)), q.
Defined.

(** A request of a to b-c and a reply of c to a-b: two pairs with the
    key a-b-c. *)
Definition pairs_with_one_key : list packet :=
  [mkPacket "a" "b-c" 103 0 None; mkPacket "c" "a-b" 104 1 None].

Lemma reply_linked_across_pairs :
  ∃ ms cp', det_id_roles_and_msgs (mapped pairs_with_one_key ["a"; "a-b"])
            = Ok (ms, cp') ∧
            ms !! 1%nat = Some (mkMessage 1 "c" "a-b" SALITY_HELLO_REPLY 1 0 (-1)) ∧
            ms !! 0%nat = Some (mkMessage 0 "a" "b-c" SALITY_HELLO 0 1 (-1)).
Proof. eexists _, _. split_and!; vm_compute; reflexivity. Qed.


(** *** The kinds of the returned messages *)

(** A request, or a reply; behind NAT, a request of a mapped peer or a
    reply to one. *)
Definition kind_ok (cp : CommProc) (m : Message) : Prop :=
  (is_request (mtype m) = true ∨ is_reply (mtype m) = true) ∧
  (nat_ cp = true →
   (is_request (mtype m) = true ∧ src m ∈ local_init_ids cp) ∨
   (is_reply (mtype m) = true ∧ dst m ∈ local_init_ids cp)).

Lemma kind_ok_same cp m m' : same_fields m m' → kind_ok cp m → kind_ok cp m'.
Proof. intros (_ & Hs & Hd & Ht & _). unfold kind_ok. by rewrite Hs, Hd, Ht. Qed.

Lemma kind_ok_extend cp (l l' : list Message) x :
  extends l l' x → kind_ok cp x → Forall (kind_ok cp) l → Forall (kind_ok cp) l'.
Proof.
  intros (_ & _ & Hback) Hx Hl. apply Forall_forall. intros m' Hm'.
  destruct (Hback m' Hm') as [-> | (m & Hm & Hsame)]; [done|].
  eapply kind_ok_same; [done|]. rewrite Forall_forall in Hl. by apply Hl.
Qed.

Lemma round_kinds cp s p s' :
  roles_inv s → Forall (kind_ok cp) (msgs s) → round cp s p s' →
  Forall (kind_ok cp) (msgs s').
Proof.
  intros Hinv Hs Hr.
  assert (Hrep : ∀ rs es t s2, is_reply t = true →
            (nat_ cp = true → Dst p ∈ local_init_ids cp) →
            add_reply s rs es p t = Ok s2 → Forall (kind_ok cp) (msgs s2)).
  { intros rs es t s2 Ht Hd Hadd.
    assert (Hx : ∀ refer, kind_ok cp (new_msg s p t refer)).
    { intros refer. split; cbn; [by right|]. intros Hn. right. auto. }
    apply add_reply_cases in Hadd as [[_ ->] | (r & q & _ & Hq & ->)]; cbn [msgs].
    - eapply kind_ok_extend; [apply extends_app | apply Hx | done].
    - eapply kind_ok_extend; [by apply extends_insert | apply Hx | done]. }
  destruct Hr as [ | t Ht Hrq Hn Hb Ha | t Ht Hrq Ha
                 | t s2 Ht Hrp Hseen Hn Ha Hb Hadd | t s2 Ht Hrp Hseen Hb Hadd
                 | s2 Ht Hn Ha Hadd ].
  - done.
  - unfold add_request. cbn [msgs].
    eapply kind_ok_extend; [apply extends_app | | done].
    split; cbn; [by left|]. intros Hn'. congruence.
  - unfold add_request. cbn [msgs].
    eapply kind_ok_extend; [apply extends_app | | done].
    split; cbn; [by left|]. intros _. by left.
  - eapply Hrep; [done | | done]. intros Hn'. congruence.
  - eapply Hrep; [done | | done]. done.
  - apply add_timeout_cases in Hadd as [[_ ->] | (r & q & _ & Hq & ->)]; [done|].
    cbn [msgs]. eapply kind_ok_extend; [by apply extends_insert | | done].
    split; cbn; [|intros Hn'; congruence].
    right. by destruct (decide (mtype q = SALITY_NL_REQUEST)).
Qed.

(** X5. Every returned message is a request or a reply: a timeout is
    returned as the reply it stands for, and a packet of any other type
    is left out. Behind NAT every returned message is a request of a
    mapped peer or a reply to one. *)
Theorem returned_message_kinds cp ms cp' :
  det_id_roles_and_msgs cp = Ok (ms, cp') →
  Forall (fun m => is_request (mtype m) = true ∨ is_reply (mtype m) = true) ms ∧
  (nat_ cp = true →
   Forall (fun m => (is_request (mtype m) = true ∧ src m ∈ local_init_ids cp) ∨
                    (is_reply (mtype m) = true ∧ dst m ∈ local_init_ids cp)) ms).
Proof.
  intros H. apply det_id_roles_and_msgs_inv in H as (s & Hp & -> & _).
  assert (Hk : Forall (kind_ok cp) (msgs s)).
  { eapply (process_packets_ind cp (fun s => Forall (kind_ok cp) (msgs s)));
      [| | |exact Hp]; eauto using round_kinds, roles_init_inv. }
  split.
  - eapply Forall_impl; [exact Hk|]. by intros m [? _].
  - intros Hn. eapply Forall_impl; [exact Hk|]. intros m [_ Hm]. auto.
Qed.

(** A hello of a to b, and the timeout that a reports for it. *)
Definition hello_and_timeout : list packet :=
  [mkPacket "a" "b" 103 0 None; mkPacket "b" "a" 3 5 None].

Lemma returned_message_kinds_witness :
  ∃ ms cp', det_id_roles_and_msgs (mapped hello_and_timeout ["a"; "b"]) = Ok (ms, cp') ∧
            length ms = 2%nat ∧
            Forall (fun m => is_request (mtype m) = true ∨ is_reply (mtype m) = true) ms.
Proof.
  destruct (det_id_roles_and_msgs (mapped hello_and_timeout ["a"; "b"]))
    as [[ms cp']|] eqn:H; [|vm_compute in H; discriminate H].
  destruct (returned_message_kinds _ _ _ H) as [Hk _].
  exists ms, cp'. split_and!; [done | | done].
  vm_compute in H. by injection H as <- _.
Defined.


(** X6. One round on a timeout. Behind NAT, from an unmapped source or
    without a request pending from its destination to its source, the
    packet changes nothing. Otherwise the pending request gets a reply
    made for the timeout, an NL reply for an NL request and a hello
    reply for any other, the two refer to each other, the request is no
    longer pending, and no role is recorded. The index of a pending
    request is in range: nothing is raised. *)
Theorem timeout_round cp s p :
  roles_inv s → mtypes cp !! Type_ p = Some TIMEOUT →
  (nat_ cp = true ∨ Src p ∉ local_init_ids cp ∨
   prev_reqs s !! msg_str (Dst p) (Src p) = None →
   process_packet cp s p = Ok s) ∧
  (∀ r, nat_ cp = false → Src p ∈ local_init_ids cp →
     prev_reqs s !! msg_str (Dst p) (Src p) = Some r →
     ∃ q, msgs s !! r = Some q ∧
       process_packet cp s p =
         Ok (mkRoles (r_respnd_ids s)
               (<[r := with_refer q (Z.of_nat (next_id s))]> (msgs s)
                  ++ [new_msg s p
                        (if decide (mtype q = SALITY_NL_REQUEST)
                         then SALITY_NL_REPLY else SALITY_HELLO_REPLY)
                        (Z.of_nat r)])
               (S (next_id s)) (delete (msg_str (Dst p) (Src p)) (prev_reqs s))
               (req_seen s) (r_external_init_ids s))).
Proof.
  intros Hinv Ht.
  assert (Hpp : process_packet cp s p =
            if bool_decide (Src p ∈ local_init_ids cp) && negb (nat_ cp)
            then add_timeout s p else Ok s).
  { unfold process_packet. rewrite Ht. cbn.
    destruct (bool_decide (Src p ∉ local_init_ids cp)) eqn:Ea;
      destruct (bool_decide (Dst p ∉ local_init_ids cp)) eqn:Eb; cbn;
      rewrite bool_decide_not in Ea; try rewrite bool_decide_not in Eb;
      try (apply negb_true_iff in Ea; rewrite Ea);
      try (apply negb_false_iff in Ea; rewrite Ea); done. }
  rewrite Hpp. split.
  - intros [Hn | [Ha | Hnone]].
    + rewrite Hn. by rewrite andb_false_r.
    + by rewrite (bool_decide_eq_false_2 _ Ha).
    + unfold add_timeout. rewrite Hnone. by destruct (_ && _).
  - intros r Hn Ha Hr. rewrite Hn, (bool_decide_eq_true_2 _ Ha). cbn.
    destruct (inv_pending _ Hinv _ _ Hr) as (q & Hq & _). exists q. split; [done|].
    destruct (add_timeout_spec s p Hinv) as (s' & Hs' & _).
    apply add_timeout_cases in Hs' as Hc.
    destruct Hc as [[Hnone _] | (r' & q' & Hr' & Hq' & ->)]; [congruence|].
    rewrite Hr in Hr'. injection Hr' as <-. rewrite Hq in Hq'. injection Hq' as <-.
    exact Hs'.
Qed.

Lemma timeout_round_witness :
  ∃ s', process_packet (mapped hello_and_timeout ["a"; "b"])
          (add_request roles_init {["b"]} ∅ (mkPacket "a" "b" 103 0 None) SALITY_HELLO)
          (mkPacket "b" "a" 3 5 None) = Ok s' ∧
        map mtype (msgs s') = [SALITY_HELLO; SALITY_HELLO_REPLY] ∧
        map refer_msg_id (msgs s') = [1; 0].
Proof.
  destruct (timeout_round (mapped hello_and_timeout ["a"; "b"])
              (add_request roles_init {["b"]} ∅ (mkPacket "a" "b" 103 0 None) SALITY_HELLO)
              (mkPacket "b" "a" 3 5 None)) as [_ H].
  - apply add_request_inv; [reflexivity | apply roles_init_inv].
  - vm_compute. reflexivity.
  - destruct (H 0%nat) as (q & Hq & Hrun).
    + reflexivity.
    + apply (bool_decide_unpack _). vm_compute. exact I.
    + vm_compute. reflexivity.
    + injection Hq as <-. eexists. split; [exact Hrun|]. split; reflexivity.
Defined.


(** *** More about interval selection *)

Lemma optimal_attempts_spec intervals n : ∀ cp g,
  intervals ≠ [] →
  ∃ cp' g', optimal_attempts n intervals cp g = Ok (cp', g') ∧
            (pos g' ≤ pos g + n)%nat ∧
            ((n = 0%nat ∧ cp' = cp) ∨ interval cp' ∈ intervals).
Proof.
  induction n as [|n IH]; intros cp g Hne; cbn [optimal_attempts].
  - exists cp, g. split_and!; [done | lia | by left].
  - destruct (randrange_ok 0 (Z.of_nat (length intervals)) g) as (k & g1 & Hk).
    { destruct intervals; [done | simpl; lia]. }
    rewrite Hk. cbn [mbind result_bind].
    apply randrange_bounds in Hk as [Hk Hpos].
    destruct (lookup_lt_is_Some_2 intervals (Z.to_nat k)) as [i Hi]; [lia|].
    rewrite Hi. destruct (has_ids i) eqn:Hids.
    + eexists _, g1. split_and!; [done | lia |]. right. cbn.
      by eapply list_elem_of_lookup_2.
    + destruct (IH (set_interval cp i) g1 Hne) as (cp' & g' & -> & Hp & Hin).
      exists cp', g'. split_and!; [done | lia |].
      destruct Hin as [[-> ->] | Hin]; [|by right]. right. cbn.
      by eapply list_elem_of_lookup_2.
Qed.

(** X7. The search with strategy optimal raises nothing and draws at most
    five times. It returns the empty dict or one of the intervals that
    the C++ processor found, with participants; when the processor found
    none, nothing is drawn and the interval that the object held before
    is kept. *)
Theorem optimal_search cp g :
  strategy cp = "optimal" →
  ∃ i cp' g', get_comm_interval cp g = Ok (i, cp', g') ∧ interval cp' = i ∧
    (pos g' ≤ pos g + 5)%nat ∧
    (i = EmptyDict ∨
     (has_ids i = true ∧
      (i ∈ find_optimal_interval (cpp_comm_proc cp) (number_ids cp) (max_int_time cp) ∨
       i = interval cp))) ∧
    (find_optimal_interval (cpp_comm_proc cp) (number_ids cp) (max_int_time cp) = [] →
     g' = g ∧ i = if has_ids (interval cp) then interval cp else EmptyDict).
Proof.
  intros Hs. unfold get_comm_interval, select_interval. rewrite Hs. cbn [String.eqb].
  change (String.eqb "optimal" "random") with false.
  change (String.eqb "optimal" "optimal") with true. cbn iota.
  destruct (find_optimal_interval _ _ _) as [|i0 l] eqn:Hopt.
  - cbn [mbind result_bind]. eexists _, _, g. split; [reflexivity|].
    destruct (has_ids (interval cp)) eqn:Hids; cbn.
    + split_and!; [done | lia | right; auto | done].
    + split_and!; [done | lia | by left | done].
  - destruct (optimal_attempts_spec (i0 :: l) 5 cp g) as (cp1 & g1 & H1 & Hpos & Hin);
      [done|].
    rewrite H1. cbn [mbind result_bind]. eexists _, _, g1. split; [reflexivity|].
    destruct Hin as [[? _] | Hin]; [done|].
    destruct (has_ids (interval cp1)) eqn:Hids; cbn.
    + split_and!; [done | lia | right; auto | done].
    + split_and!; [done | lia | by left | done].
Qed.

(** Two intervals of the optimal search, the first without participants. *)
Definition two_optimal_cpp : botnet_comm_processor :=
  mkCpp 4 (fun _ _ _ => EmptyDict) (fun _ _ _ => EmptyDict)
    (fun _ _ => [Dict [] 0 1; Dict ["a"; "b"] 2 3])
    (fun _ _ => []) (fun _ _ => []).

Definition optimal_sample : CommProc :=
  mkCommProc [] sality_mtypes false "optimal" 2 10 None None NoInterval []
    ∅ ∅ ∅ two_optimal_cpp.

Lemma optimal_search_witness :
  ∃ i cp' g', get_comm_interval optimal_sample (mkRng (fun n => Z.of_nat n) 0)
              = Ok (i, cp', g') ∧ i = Dict ["a"; "b"] 2 3 ∧ pos g' = 2%nat.
Proof.
  destruct (optimal_search optimal_sample (mkRng (fun n => Z.of_nat n) 0) eq_refl)
    as (i & cp' & g' & H & _).
  exists i, cp', g'. split; [exact H|].
  vm_compute in H. by injection H as <- _ <-.
Defined.


(** [self.interval] as the last lines of a search leave it. *)
Definition or_empty (i : Interval) : Interval :=
  if has_ids i then i else EmptyDict.

Lemma get_comm_interval_of cp g cp1 g1 :
  select_interval cp g = Ok (cp1, g1) →
  get_comm_interval cp g =
    Ok (or_empty (interval cp1), set_interval cp1 (or_empty (interval cp1)), g1).
Proof.
  intros H. unfold get_comm_interval, or_empty. rewrite H. cbn [mbind result_bind].
  destruct (has_ids (interval cp1)) eqn:Hi; [|done]. by destruct cp1.
Qed.

(** X8. The custom search without a start and an end index (an index 0
    counts as none) draws one random start index and searches from it
    once, without the retries of the random search; on a log without
    messages the draw raises [ValueError]. *)
Theorem custom_search_without_indices cp g :
  strategy cp = "custom" → falsy (start_idx cp) = true → falsy (end_idx cp) = true →
  (get_message_count (cpp_comm_proc cp) ≤ 0 → get_comm_interval cp g = Raise ValueError) ∧
  (0 < get_message_count (cpp_comm_proc cp) →
   ∃ x g', randrange 0 (get_message_count (cpp_comm_proc cp)) g = Ok (x, g') ∧
     0 ≤ x < get_message_count (cpp_comm_proc cp) ∧ pos g' = S (pos g) ∧
     let i := or_empty (find_interval_from_startidx (cpp_comm_proc cp) x
                          (number_ids cp) (max_int_time cp)) in
     get_comm_interval cp g = Ok (i, set_interval cp i, g')).
Proof.
  intros Hs Ha Hb.
  assert (Hsel : select_interval cp g =
            '(start, g') ← randrange 0 (get_message_count (cpp_comm_proc cp)) g;
            Ok (set_interval cp
                  (find_interval_from_startidx (cpp_comm_proc cp) start
                     (number_ids cp) (max_int_time cp)), g')).
  { unfold select_interval. rewrite Hs, Ha, Hb. reflexivity. }
  split.
  - intros Hc. unfold get_comm_interval. rewrite Hsel. unfold randrange.
    destruct (Z.leb_spec (get_message_count (cpp_comm_proc cp)) 0); [done | lia].
  - intros Hc. destruct (randrange_ok 0 _ g Hc) as (x & g' & Hx).
    exists x, g'. split; [done|]. destruct (randrange_bounds _ _ _ _ _ Hx) as [Hb1 Hb2].
    split_and!; [lia | lia | done |]. cbn zeta.
    rewrite Hx in Hsel. cbn [mbind result_bind] in Hsel.
    rewrite (get_comm_interval_of _ _ _ _ Hsel). by destruct cp.
Qed.

(** A custom search with the start index 0 on a log of two messages. *)
Definition custom_from_zero : CommProc :=
  mkCommProc [] sality_mtypes false "custom" 1 10 (Some 0) None NoInterval []
    ∅ ∅ ∅ (mkCpp 2 (fun s _ _ => Dict ["a"] s (s + 1)) (fun _ _ _ => EmptyDict)
             (fun _ _ => []) (fun _ _ => []) (fun _ _ => [])).

Lemma custom_search_without_indices_witness :
  ∃ cp' g', get_comm_interval custom_from_zero (mkRng (fun _ => 5) 0)
            = Ok (Dict ["a"] 1 2, cp', g') ∧ pos g' = 1%nat.
Proof.
  destruct (custom_search_without_indices custom_from_zero (mkRng (fun _ => 5) 0))
    as [_ H]; try reflexivity.
  destruct H as (x & g' & Hx & _ & Hpos & Hrun); [reflexivity|].
  vm_compute in Hx. injection Hx as <- <-.
  eexists _, _. split; [exact Hrun | reflexivity].
Defined.

(** X9. The custom search with one index searches at the index minus one
    (the user counts the messages from 1) without a draw, and stores the
    index minus one in the object: a second search on the same object
    starts one message earlier again. *)
Theorem custom_search_one_index cp g a :
  strategy cp = "custom" → a ≠ 0 →
  (start_idx cp = Some a → falsy (end_idx cp) = true →
   let i := or_empty (find_interval_from_startidx (cpp_comm_proc cp) (a - 1)
                        (number_ids cp) (max_int_time cp)) in
   let cp' := set_interval (set_idx cp (Some (a - 1)) (end_idx cp)) i in
   get_comm_interval cp g = Ok (i, cp', g) ∧
   (a ≠ 1 →
    ∃ cp'', get_comm_interval cp' g =
      Ok (or_empty (find_interval_from_startidx (cpp_comm_proc cp) (a - 2)
                      (number_ids cp) (max_int_time cp)), cp'', g))) ∧
  (end_idx cp = Some a → falsy (start_idx cp) = true →
   let i := or_empty (find_interval_from_endidx (cpp_comm_proc cp) (a - 1)
                        (number_ids cp) (max_int_time cp)) in
   let cp' := set_interval (set_idx cp (start_idx cp) (Some (a - 1))) i in
   get_comm_interval cp g = Ok (i, cp', g) ∧
   (a ≠ 1 →
    ∃ cp'', get_comm_interval cp' g =
      Ok (or_empty (find_interval_from_endidx (cpp_comm_proc cp) (a - 2)
                      (number_ids cp) (max_int_time cp)), cp'', g))).
Proof.
  intros Hs Ha.
  assert (Hstart : ∀ cp0 b, strategy cp0 = "custom" → b ≠ 0 → start_idx cp0 = Some b →
            falsy (end_idx cp0) = true →
            select_interval cp0 g =
              Ok (set_interval (set_idx cp0 (Some (b - 1)) (end_idx cp0))
                    (find_interval_from_startidx (cpp_comm_proc cp0) (b - 1)
                       (number_ids cp0) (max_int_time cp0)), g)).
  { intros cp0 b Hs0 Hb Hst He. unfold select_interval. rewrite Hs0, Hst, He. cbn.
    by destruct (Z.eqb_spec b 0). }
  assert (Hend : ∀ cp0 b, strategy cp0 = "custom" → b ≠ 0 → end_idx cp0 = Some b →
            falsy (start_idx cp0) = true →
            select_interval cp0 g =
              Ok (set_interval (set_idx cp0 (start_idx cp0) (Some (b - 1)))
                    (find_interval_from_endidx (cpp_comm_proc cp0) (b - 1)
                       (number_ids cp0) (max_int_time cp0)), g)).
  { intros cp0 b Hs0 Hb He Hst. unfold select_interval. rewrite Hs0, He, Hst. cbn.
    by destruct (Z.eqb_spec b 0). }
  split.
  - intros Hst He. cbn zeta. split.
    + by rewrite (get_comm_interval_of _ _ _ _ (Hstart cp a Hs Ha Hst He)).
    + intros H1. eexists.
      match goal with |- get_comm_interval ?c _ = _ =>
        rewrite (get_comm_interval_of _ _ _ _
                   (Hstart c (a - 1) Hs ltac:(lia) eq_refl He)) end. cbn.
      by replace (a - 1 - 1) with (a - 2) by lia.
  - intros He Hst. cbn zeta. split.
    + by rewrite (get_comm_interval_of _ _ _ _ (Hend cp a Hs Ha He Hst)).
    + intros H1. eexists.
      match goal with |- get_comm_interval ?c _ = _ =>
        rewrite (get_comm_interval_of _ _ _ _
                   (Hend c (a - 1) Hs ltac:(lia) eq_refl Hst)) end. cbn.
      by replace (a - 1 - 1) with (a - 2) by lia.
Qed.

(** A custom search from the user's message 3. *)
Definition custom_from_three : CommProc :=
  mkCommProc [] sality_mtypes false "custom" 1 10 (Some 3) None NoInterval []
    ∅ ∅ ∅ (mkCpp 5 (fun s _ _ => Dict ["a"] s (s + 1)) (fun _ _ _ => EmptyDict)
             (fun _ _ => []) (fun _ _ => []) (fun _ _ => [])).

Lemma custom_search_one_index_witness :
  ∃ cp' cp'', get_comm_interval custom_from_three zero_rng
              = Ok (Dict ["a"] 2 3, cp', zero_rng) ∧
              get_comm_interval cp' zero_rng = Ok (Dict ["a"] 1 2, cp'', zero_rng).
Proof.
  destruct (custom_search_one_index custom_from_three zero_rng 3) as [H _];
    [reflexivity | lia |].
  destruct H as [H1 H2]; [reflexivity | reflexivity |].
  destruct H2 as (cp'' & H2); [lia|].
  eexists _, cp''. split; [exact H1 | exact H2].
Defined.


(** *** More about get_messages *)

(** X10. A search that found nothing leaves the empty dict in the object, and
    [get_messages] on that object raises [KeyError] at
    [self.interval["IDs"]]; on an object that never searched, the
    interval is [None] and the subscript raises [TypeError]. *)
Theorem get_messages_without_interval cp g cp' g' :
  (get_comm_interval cp g = Ok (EmptyDict, cp', g') →
   ∀ g2, get_messages cp' g2 = Raise KeyError) ∧
  (interval cp = NoInterval → get_messages cp g = Raise TypeError).
Proof.
  split.
  - intros H g2. unfold get_comm_interval in H.
    destruct (select_interval cp g) as [[cp1 g1]|]; [|discriminate H].
    cbn [mbind result_bind] in H. unfold get_messages.
    destruct (has_ids (interval cp1)) eqn:Hi.
    + revert H. intros [= H <- _]. by rewrite H.
    + revert H. by intros [= <- _].
  - intros H. unfold get_messages. by rewrite H.
Qed.

Lemma get_messages_without_interval_witness :
  ∃ cp' g', get_comm_interval optimal_sample (mkRng (fun _ => 0) 0)
            = Ok (EmptyDict, cp', g') ∧
            get_messages cp' g' = Raise KeyError.
Proof.
  destruct (get_comm_interval optimal_sample (mkRng (fun _ => 0) 0))
    as [[[i cp'] g']|] eqn:H; [|vm_compute in H; discriminate H].
  assert (i = EmptyDict) as ->.
  { vm_compute in H. revert H. by intros [= <- _ _]. }
  exists cp', g'. split; [reflexivity|].
  exact (proj1 (get_messages_without_interval optimal_sample (mkRng (fun _ => 0) 0)
                  cp' g') H g').
Defined.

Lemma truncate_ids_negative fuel n : ∀ ids g,
  n < 0 → (length ids < fuel)%nat → truncate_ids fuel n ids g = Raise ValueError.
Proof.
  induction fuel as [|fuel IH]; intros ids g Hn Hf; [lia|].
  cbn [truncate_ids]. destruct (Z.ltb_spec n (Z.of_nat (length ids))) as [_|]; [|lia].
  destruct ids as [|x ids].
  - reflexivity.
  - destruct (randrange_ok 0 (Z.of_nat (length (x :: ids))) g) as (k & g1 & Hk);
      [simpl; lia|].
    rewrite Hk. cbn [mbind result_bind]. apply randrange_bounds in Hk as [Hk _].
    apply IH; [done|].
    assert (Hsome : is_Some ((x :: ids) !! Z.to_nat k)) by (apply lookup_lt_is_Some; lia).
    pose proof (length_delete (x :: ids) (Z.to_nat k) Hsome). simpl in *. lia.
Qed.

(** X11. [get_messages] on an interval with ids. With a negative target the
    loop that removes ids empties the list and then draws from an empty
    range: [ValueError]. With a target of at least 0, one random index is
    drawn for each id above the target, and the object keeps the ids
    that are left, in the interval and as the mapped ids. *)
Theorem get_messages_draws cp g ids s e :
  interval cp = Dict ids s e →
  (number_ids cp < 0 → get_messages cp g = Raise ValueError) ∧
  (0 ≤ number_ids cp → ∀ ms cp' g', get_messages cp g = Ok (ms, cp', g') →
     pos g' = (pos g + (length ids - Z.to_nat (number_ids cp)))%nat ∧
     ∃ ids', interval cp' = Dict ids' s e ∧ local_init_ids cp' = list_to_set ids' ∧
             length ids' = (length ids `min` Z.to_nat (number_ids cp))%nat).
Proof.
  intros Hi. unfold get_messages. rewrite Hi. split.
  - intros Hn. by rewrite truncate_ids_negative by (done || lia).
  - intros Hn ms cp' g'.
    destruct (truncate_ids _ _ _ _) as [[ids' g1]|] eqn:Ht; [|done].
    cbn [mbind result_bind].
    destruct (det_id_roles_and_msgs _) as [[ms1 cp3]|] eqn:Hd; [|done].
    cbn [mbind result_bind]. intros [= <- <- <-].
    apply truncate_ids_draws in Ht as [Hp Hl]; [|done|lia]. split; [done|].
    exists ids'. apply det_id_roles_and_msgs_inv in Hd as (r & _ & _ & ->).
    by split_and!.
Qed.

Lemma get_messages_draws_witness :
  get_messages (set_interval empty_log_search (Dict ["a"; "b"] 0 1)) zero_rng
    = Ok ([], set_roles (set_mapping (set_interval empty_log_search (Dict ["b"] 0 1))
                           [] ["b"]) ∅ ∅ [], mkRng (fun _ => 0) 1) ∧
  pos (mkRng (fun _ => 0) 1) = 1%nat.
Proof.
  split; [reflexivity|].
  destruct (get_messages_draws (set_interval empty_log_search (Dict ["a"; "b"] 0 1))
              zero_rng ["a"; "b"] 0 1 eq_refl) as [_ H].
  destruct (H ltac:(simpl; lia) _ _ _ eq_refl) as [Hp _]. exact Hp.
Defined.


(** *** det_ext_and_local_ids *)

(** One round of [for id_ in self.respnd_ids]; [choose] is
    [rspnd_locality.random]. *)
Definition locality_round (choose : Rng → string * Rng)
    (st : gset string * gset string * Rng) (id_ : string)
  : gset string * gset string * Rng :=
  let '(local_ids, external_ids, g) := st in
  if bool_decide (id_ ∈ local_ids) || bool_decide (id_ ∈ external_ids) then st
  else
    let '(pos, g) := choose g in
    if String.eqb pos "local" then ({[id_]} ∪ local_ids, external_ids, g)
    else if String.eqb pos "external" then (local_ids, {[id_]} ∪ external_ids, g)
    else (local_ids, external_ids, g).

(** [det_ext_and_local_ids]. The Lea library is not among the sources:
    [Lea_random local external] stands for the [random] method of
    [Lea.fromValFreqsDict({"local": local, "external": external})].
    [self.external_init_ids] and [self.respnd_ids], which the role pass
    stored as sorted lists, are read in their order. The pair that is
    returned is also stored in [self.local_ids] and
    [self.external_ids]. *)
Definition det_ext_and_local_ids (Lea_random : Q → Q → Rng → string * Rng)
    (self_local_init_ids : gset string)
    (self_external_init_ids self_respnd_ids : list string)
    (prob_rspnd_local : Q) (g : Rng) : gset string * gset string * Rng :=
  let external_ids : gset string := ∅ in
  let local_ids := self_local_init_ids in
  (* set up probabilistic chooser *)
  let rspnd_locality :=
    Lea_random (prob_rspnd_local * 100)%Q ((1 - prob_rspnd_local) * 100)%Q in
  let external_ids :=
    foldl (fun acc id_ => {[id_]} ∪ acc) external_ids self_external_init_ids in
  (* determine responder localities *)
  foldl (locality_round rspnd_locality) (local_ids, external_ids, g) self_respnd_ids.

Lemma add_all (l : list string) : ∀ acc : gset string,
  foldl (fun acc id_ => {[id_]} ∪ acc) acc l = list_to_set l ∪ acc.
Proof.
  induction l as [|x l IH]; intros acc; cbn; [set_solver|]. rewrite IH. set_solver.
Qed.


Lemma locality_round_spec choose (L E : gset string) g x L1 E1 g1 :
  locality_round choose (L, E, g) x = (L1, E1, g1) → L ## E →
  L ⊆ L1 ∧ E ⊆ E1 ∧ L1 ## E1 ∧ L1 ∪ E1 ⊆ L ∪ E ∪ {[x]} ∧
  ((∀ g0, (choose g0).1 = "local" ∨ (choose g0).1 = "external") → x ∈ L1 ∪ E1).
Proof.
  unfold locality_round. intros H Hd.
  destruct (bool_decide (x ∈ L)) eqn:HxL; [|destruct (bool_decide (x ∈ E)) eqn:HxE];
    cbn in H.
  - injection H as <- <- <-. apply bool_decide_eq_true in HxL. set_solver.
  - injection H as <- <- <-. apply bool_decide_eq_true in HxE. set_solver.
  - apply bool_decide_eq_false in HxL, HxE.
    destruct (choose g) as [pos g2] eqn:Hch.
    destruct (String.eqb_spec pos "local") as [->|Hnl];
      [|destruct (String.eqb_spec pos "external") as [->|Hne]];
      injection H as <- <- <-.
    + set_solver.
    + set_solver.
    + split_and!; [done | done | done | set_solver |].
      intros Hc. exfalso. specialize (Hc g). rewrite Hch in Hc. cbn in Hc.
      by destruct Hc.
Qed.

Lemma locality_rounds choose l : ∀ (L E : gset string) g L' E' g',
  foldl (locality_round choose) (L, E, g) l = (L', E', g') → L ## E →
  L ⊆ L' ∧ E ⊆ E' ∧ L' ## E' ∧ L' ∪ E' ⊆ L ∪ E ∪ list_to_set l ∧
  ((∀ g0, (choose g0).1 = "local" ∨ (choose g0).1 = "external") →
   list_to_set l ⊆ L' ∪ E').
Proof.
  induction l as [|x l IH]; intros L E g L' E' g' H Hd; cbn [foldl] in H.
  - injection H as <- <- <-. set_solver.
  - destruct (locality_round choose (L, E, g) x) as [[L1 E1] g1] eqn:Hx.
    apply locality_round_spec in Hx as (Ha & Hb & Hc & Hd1 & He); [|done].
    apply IH in H as (Ha' & Hb' & Hc' & Hd' & He'); [|done]. clear IH.
    split_and!; [by etrans | by etrans | done | |].
    + clear -Hd1 Hd'. set_solver.
    + intros Htot. specialize (He Htot). specialize (He' Htot).
      clear -He He' Ha' Hb'. set_solver.
Qed.

(** X12. The localities after the role pass. The mapped ids stay local and
    the external initiators stay external, no id is both local and
    external, and only mapped ids, external initiators and responders
    are given a locality. When the chooser answers nothing but local and
    external, each of these ids is given one. *)
Theorem localities_partition Lea_random cp ms cp' ext rsp prob g L' E' g' :
  det_id_roles_and_msgs cp = Ok (ms, cp') →
  list_to_set ext = external_init_ids cp' → list_to_set rsp = respnd_ids cp' →
  det_ext_and_local_ids Lea_random (local_init_ids cp') ext rsp prob g = (L', E', g') →
  local_init_ids cp ⊆ L' ∧ external_init_ids cp' ⊆ E' ∧ L' ## E' ∧
  L' ∪ E' ⊆ local_init_ids cp ∪ external_init_ids cp' ∪ respnd_ids cp' ∧
  ((∀ a b g0, (Lea_random a b g0).1 = "local" ∨ (Lea_random a b g0).1 = "external") →
   L' ∪ E' = local_init_ids cp ∪ external_init_ids cp' ∪ respnd_ids cp').
Proof.
  intros Hrun Hext Hrsp H.
  apply role_pass_sets in Hrun as (s & _ & Hr & He & HL & _ & [Hes _ _] & _).
  unfold det_ext_and_local_ids in H. rewrite add_all in H.
  assert (Hd : local_init_ids cp' ## list_to_set ext ∪ (∅ : gset string)).
  { rewrite Hext, He, HL. intros x Hx Hy. apply elem_of_union in Hy as [Hy|Hy].
    - by destruct (Hes x Hy).
    - by apply elem_of_empty in Hy. }
  apply locality_rounds in H as (H1 & H2 & H3 & H4 & H5); [|done].
  rewrite Hext, Hrsp, HL in *. clear Hd Hes.
  split_and!; [done | clear -H2; set_solver | done | clear -H4; set_solver |].
  intros Htot. specialize (H5 (fun g0 => Htot _ _ g0)).
  clear -H1 H2 H4 H5. set_solver.
Qed.

Lemma localities_partition_witness :
  ∃ ms cp' L' E' g',
    det_id_roles_and_msgs (mapped hello_from_outside ["a"]) = Ok (ms, cp') ∧
    det_ext_and_local_ids (fun _ _ g => ("external", g)) (local_init_ids cp')
      (elements (external_init_ids cp')) (elements (respnd_ids cp')) 0 zero_rng
      = (L', E', g') ∧
    "a" ∈ L' ∧ "x" ∈ E' ∧ L' ## E'.
Proof.
  destruct (det_id_roles_and_msgs (mapped hello_from_outside ["a"]))
    as [[ms cp']|] eqn:H; [|vm_compute in H; discriminate H].
  destruct (det_ext_and_local_ids (fun _ _ g => ("external", g)) (local_init_ids cp')
              (elements (external_init_ids cp')) (elements (respnd_ids cp')) 0 zero_rng)
    as [[L' E'] g'] eqn:Hloc.
  destruct (localities_partition _ _ _ _ _ _ _ _ _ _ _ H
              (list_to_set_elements_L _) (list_to_set_elements_L _) Hloc)
    as (HL & HE & Hd & _).
  exists ms, cp', L', E', g'. split_and!; [done | done | | | done].
  - apply HL. cbn. set_solver.
  - apply HE. vm_compute in H. injection H as _ <-. cbn. set_solver.
Defined.

End CommunicationProcessor.

(** ** Attack/SMBScanAttack.py *)

Module SMBScanAttack.

(** A value that is one address or a list of addresses. *)
Inductive pyaddr : Type :=
| Single (a : string)
| Many (l : list string).

#[global] Instance pyaddr_eq_dec : EqDecision pyaddr.
Proof. solve_decision. Defined.

(** The value of mac.dst: unset, one address or a list. *)
Inductive pymac : Type :=
| MacNone
| MacStr (m : string)
| MacList (l : list string).

(** *** Packets *)

Inductive tcp_flags : Type := S_ | SA | A | PA | FA | RA.

#[global] Instance tcp_flags_eq_dec : EqDecision tcp_flags.
Proof. solve_decision. Defined.

Record Ether : Type := mkEther { ether_src : string; ether_dst : string }.

Record IP : Type := mkIP {
  ip_src : pyaddr; ip_dst : pyaddr; ttl : Z; DF : bool
}.

Record TCP : Type := mkTCP {
  sport : Z; dport : Z; flags : tcp_flags; seq : Z;
  ack : option Z; window : option Z; MSS : option Z
}.

(** What [SMBLib.get_smb_platform_data] returns. *)
Record platform_data : Type := mkPlatformData {
  server_guid : string;
  security_blob : string;
  capabilities : Z;
  data_size : Z;
  server_start_time : Z
}.

(** The layers above TCP. *)
Inductive layer : Type :=
| NBTSession (TYPE LENGTH : Z)
| SMBNegociate_Protocol_Request_Header (Flags2 PID MID ByteCount : Z)
| SMBNegociate_Protocol_Request_Tail (BufferData : option string)
| SMBNegociate_Protocol_Response_Advanced_Security
    (Start : string) (PID MID DialectIndex : Z) (SecurityBlob : string)
| SMB2_SYNC_Header (Flags : Z)
| SMB2_Negotiate_Protocol_Response
    (DialectRevision SecurityBufferOffset SecurityBufferLength : Z)
    (SecurityBlob : string)
    (Capabilities MaxTransactSize MaxReadSize MaxWriteSize SystemTime ServerStartTime : Z)
    (ServerGuid : string).

Record Packet : Type := mkPacket {
  ether : Ether; ip : IP; tcp : TCP; payload : list layer; ptime : Q
}.

(** *** Timestamp controller *)

(** Modelled from the spec: the timestamp controller is not among the
    sources. [set(t)] forces [current = t]; [next(min_delay = 0,
    max_delay = None)] returns
    [current + U(min_delay, max_delay or model_default)] and stores it
    as [current], where [U(a, b)] is [a + (b - a) * random()]. *)
Record TimestampController : Type := mkTC {
  current_timestamp : Q;
  model_default : Q
}.

Definition set_timestamp (t : Q) (tc : TimestampController) : TimestampController :=
  mkTC t (model_default tc).

Definition uniform (a b : Q) (g : Rng) : Q * Rng :=
  let '(f, g') := random g in ((a + (b - a) * f)%Q, g').

Definition next_timestamp (min_delay : Q) (max_delay : option Q)
    (tc : TimestampController) (g : Rng) : Q * TimestampController * Rng :=
  let '(d, g') := uniform min_delay (default (model_default tc) max_delay) g in
  let t := (current_timestamp tc + d)%Q in
  (t, mkTC t (model_default tc), g').

(** *** Parameters and collaborators *)

(** The resolved parameter values that [generate_attack_packets] reads. *)
Record Params : Type := mkParams {
  INJECT_AT_TIMESTAMP : Q;
  IP_SOURCE : string;
  TARGET_COUNT : Z;
  IP_DESTINATION : pyaddr;
  HOSTING_PERCENTAGE : Q;
  HOSTING_IP : pyaddr;
  MAC_SOURCE : string;
  MAC_DESTINATION : pymac;
  PROTOCOL_VERSION : string;
  HOSTING_VERSION : string;
  SOURCE_PLATFORM : string;
  PORT_SOURCE_RANDOMIZE : bool;
  PORT_SOURCE : Z;
  IP_SOURCE_RANDOMIZE : bool
}.

Definition with_targets (P : Params) (dst hosting : pyaddr) : Params :=
  mkParams (INJECT_AT_TIMESTAMP P) (IP_SOURCE P) (TARGET_COUNT P) dst
    (HOSTING_PERCENTAGE P) hosting (MAC_SOURCE P) (MAC_DESTINATION P)
    (PROTOCOL_VERSION P) (HOSTING_VERSION P) (SOURCE_PLATFORM P)
    (PORT_SOURCE_RANDOMIZE P) (PORT_SOURCE P) (IP_SOURCE_RANDOMIZE P).

(** The code the attack calls and that is not among the sources:
    Core.Statistics, Attack.BaseAttack, Lib.Utility, Lib.SMBLib, the
    [time] and [random] modules and scapy's [len]. Calls that draw
    random values thread the generator. *)
Record Env : Type := mkEnv {
  (* Core.Statistics *)
  get_ip_address_count : Z;
  get_random_ip_address : Z → Rng → pyaddr * Rng;
  get_ip_address_from_mac : string → list string;
  get_mac_address : string → string;
  get_mac_addresses : list string → gmap string string;
  get_pcap_timestamp_start : string;
  (* Attack.BaseAttack *)
  get_ip_data : pyaddr → Rng → (Z * Z * Z) * Rng;
  get_reply_latency : string → pyaddr → Q * Q;
  generate_random_ipv4_address : Rng → string * Rng;
  generate_random_mac_address : Rng → string * Rng;
  ip_src_dst_catch_equal : string → pyaddr → result unit;
  write_attack_pcap : list Packet → string;
  (* Lib.Utility *)
  generate_source_port_from_platform : string → option Z → Rng → Z * Rng;
  get_filetime_format : Q → Z;
  (* Lib.SMBLib *)
  smb_versions : list string;
  smb_dialects : list string;
  smb_port : Z;
  get_smb_platform_data : string → Q → Rng → platform_data * Rng;
  (* time.mktime(time.strptime(s, "%Y-%m-%d %H:%M:%S")) *)
  mktime_strptime : string → result Q;
  (* random.shuffle, str.lower, len of a scapy layer *)
  shuffle : list string → Rng → list string * Rng;
  lower : string → string;
  len : layer → nat
}.

(** The fields of the attack object. *)
Record Attack : Type := mkAttack {
  params : Params;
  packets : list Packet;
  attack_start_utime : Q;
  attack_end_utime : Q;
  timestamp_controller : TimestampController;
  host_os : string
}.


(** *** One connection *)

(** What is fixed when the packets of one target are built. *)
Record conn : Type := mkConn {
  mac_source : string;
  mac_destination : string;
  ip_source : string;
  ip_target : pyaddr;
  c_sport : Z;
  source_mss_value : Z;
  source_ttl_value : Z;
  source_win_value : Z;
  destination_mss_value : Z;
  destination_ttl_value : Z;
  destination_win_value : Z;
  min_delay : Q;
  smb_version : string;
  hosting_version : string;
  hosts_smb : bool;                (* ip in hosting_ip *)
  timestamp_next_pkt : Q;
  first_timestamp_smb : string;
  c_host_os : string;
  attacker_seq0 : Z;
  victim_seq0 : Z
}.

(** A packet handed to [add_packet], with the values that the two
    sequence counters have at that call. *)
Record emitted : Type := mkEmitted {
  pkt : Packet;
  attacker_seq : Z;
  victim_seq : Z
}.

Definition sum_len (E : Env) (l : list layer) : Z :=
  foldr (fun x acc => Z.of_nat (len E x) + acc) 0 l.

(** The dialects offered and the request tails built from them. *)
Definition smb_req_dialects (E : Env) (version : string) : list string :=
  if String.eqb version "1" then take 6 (smb_dialects E) else smb_dialects E.

Definition smb_req_tail_arr (E : Env) (version : string) : list layer :=
  match smb_req_dialects E version with
  | [] => [SMBNegociate_Protocol_Request_Tail None]
  | ds => map (fun dia => SMBNegociate_Protocol_Request_Tail (Some dia)) ds
  end.

(** The [Start] field of the SMB1 response: the byte 255 and SMB. *)
Definition smb1_start : string := String "255"%char "SMB".

(** [smb_version != "1" and hosting_version != "1"] *)
Definition smb2_response (c : conn) : bool :=
  negb (String.eqb (smb_version c) "1") && negb (String.eqb (hosting_version c) "1").

(** The packets of a target that hosts SMB, after the SYN. *)
Definition hosting_packets (E : Env) (c : conn) (e1 : emitted)
    (timestamp_reply : Q) (tc : TimestampController) (g : Rng)
  : result (list emitted * TimestampController * Rng) :=
  let attacker_seq := attacker_seq e1 in
  let victim_seq := victim_seq e1 in
  let request_ether := mkEther (mac_source c) (mac_destination c) in
  let request_ip := mkIP (Single (ip_source c)) (ip_target c) (source_ttl_value c) true in
  (* destination sends SYN, ACK *)
  let reply_ether := mkEther (mac_destination c) (mac_source c) in
  let reply_ip := mkIP (ip_target c) (Single (ip_source c)) (destination_ttl_value c) true in
  let reply_tcp := mkTCP (smb_port E) (c_sport c) SA victim_seq (Some attacker_seq)
                     (Some (destination_win_value c)) (Some (destination_mss_value c)) in
  let victim_seq := victim_seq + 1 in
  let e2 := mkEmitted (mkPacket reply_ether reply_ip reply_tcp [] timestamp_reply)
              attacker_seq victim_seq in
  (* requester confirms, ACK *)
  let confirm_ether := request_ether in
  let confirm_ip := request_ip in
  let confirm_tcp := mkTCP (c_sport c) (smb_port E) A attacker_seq (Some victim_seq)
                       (Some (source_win_value c)) None in
  let tc := set_timestamp timestamp_reply tc in
  let '(timestamp_confirm, tc, g) := next_timestamp (min_delay c) None tc g in
  let e3 := mkEmitted (mkPacket confirm_ether confirm_ip confirm_tcp [] timestamp_confirm)
              attacker_seq victim_seq in
  (* SMB negotiation request *)
  '(smb_mid, g) ← randint 1 65535 g;
  '(smb_pid, g) ← randint 1 65535 g;
  let tail_arr := smb_req_tail_arr E (smb_version c) in
  let smb_req_tail_size := sum_len E tail_arr in
  let smb_req_head :=
    SMBNegociate_Protocol_Request_Header 0x2801 smb_pid smb_mid smb_req_tail_size in
  let smb_req_length := Z.of_nat (len E smb_req_head) + smb_req_tail_size in
  let smb_req_net_bio := NBTSession 0 smb_req_length in
  let smb_req_tcp := mkTCP (c_sport c) (smb_port E) PA attacker_seq (Some victim_seq)
                       None None in
  let smb_req_ip := mkIP (Single (ip_source c)) (ip_target c) (source_ttl_value c) false in
  let smb_req_ether := mkEther (mac_source c) (mac_destination c) in
  let attacker_seq := attacker_seq + (Z.of_nat (len E smb_req_net_bio)
                        + Z.of_nat (len E smb_req_head) + smb_req_tail_size) in
  let tc := set_timestamp timestamp_confirm tc in
  let '(timestamp_smb_req, tc, g) := next_timestamp (min_delay c) None tc g in
  let e4 := mkEmitted (mkPacket smb_req_ether smb_req_ip smb_req_tcp
                         (smb_req_net_bio :: smb_req_head :: tail_arr) timestamp_smb_req)
              attacker_seq victim_seq in
  (* destination confirms SMB request package *)
  let reply_tcp := mkTCP (smb_port E) (c_sport c) A victim_seq (Some attacker_seq)
                     (Some (destination_win_value c)) None in
  let tc := set_timestamp timestamp_smb_req tc in
  let '(timestamp_reply, tc, g) := next_timestamp (min_delay c) None tc g in
  let e5 := mkEmitted (mkPacket reply_ether reply_ip reply_tcp [] timestamp_reply)
              attacker_seq victim_seq in
  (* smb response package *)
  first_timestamp ← mktime_strptime E (first_timestamp_smb c);
  let '(pd, g) := get_smb_platform_data E (c_host_os c) first_timestamp g in
  let tc := set_timestamp timestamp_reply tc in
  let '(timestamp_smb_rsp, tc, g) := next_timestamp (min_delay c) None tc g in
  let diff := (timestamp_smb_rsp - timestamp_smb_req)%Q in
  let begin_ := get_filetime_format E (timestamp_smb_req + diff * (1 # 10))%Q in
  let end_ := get_filetime_format E (timestamp_smb_rsp - diff * (1 # 10))%Q in
  '(system_time, g) ← randint begin_ end_ g;
  let smb_rsp_negotiate_body :=
    SMB2_Negotiate_Protocol_Response 0x02ff 124
      (Z.of_nat (String.length (security_blob pd))) (security_blob pd)
      (capabilities pd) (data_size pd) (data_size pd) (data_size pd)
      system_time (server_start_time pd) (server_guid pd) in
  let smb_rsp_packet :=
    if smb2_response c then SMB2_SYNC_Header 1
    else SMBNegociate_Protocol_Response_Advanced_Security smb1_start smb_pid smb_mid 5
           (security_blob pd) in
  let smb_rsp_length :=
    if smb2_response c
    then Z.of_nat (len E smb_rsp_packet) + Z.of_nat (len E smb_rsp_negotiate_body)
    else Z.of_nat (len E smb_rsp_packet) in
  let smb_rsp_net_bio := NBTSession 0 smb_rsp_length in
  let smb_rsp_tcp := mkTCP (smb_port E) (c_sport c) PA victim_seq (Some attacker_seq)
                       None None in
  let smb_rsp_ip := mkIP (ip_target c) (Single (ip_source c)) (destination_ttl_value c)
                      false in
  let smb_rsp_ether := mkEther (mac_destination c) (mac_source c) in
  let victim_seq := victim_seq + (Z.of_nat (len E smb_rsp_net_bio)
                      + Z.of_nat (len E smb_rsp_packet)) in
  let victim_seq :=
    if smb2_response c then victim_seq + Z.of_nat (len E smb_rsp_negotiate_body)
    else victim_seq in
  let smb_rsp_combined :=
    smb_rsp_net_bio :: smb_rsp_packet ::
      (if smb2_response c then [smb_rsp_negotiate_body] else []) in
  let e6 := mkEmitted (mkPacket smb_rsp_ether smb_rsp_ip smb_rsp_tcp smb_rsp_combined
                         timestamp_smb_rsp)
              attacker_seq victim_seq in
  (* source confirms SMB response package *)
  let confirm_tcp := mkTCP (c_sport c) (smb_port E) A attacker_seq (Some victim_seq)
                       (Some (source_win_value c)) None in
  let tc := set_timestamp timestamp_smb_rsp tc in
  let '(timestamp_confirm, tc, g) := next_timestamp (min_delay c) None tc g in
  let e7 := mkEmitted (mkPacket confirm_ether confirm_ip confirm_tcp [] timestamp_confirm)
              attacker_seq victim_seq in
  (* attacker sends FIN ACK *)
  let confirm_tcp := mkTCP (c_sport c) (smb_port E) FA attacker_seq (Some victim_seq)
                       (Some (source_win_value c)) None in
  let tc := set_timestamp timestamp_confirm tc in
  let '(timestamp_src_fin_ack, tc, g) := next_timestamp (min_delay c) None tc g in
  let attacker_seq := attacker_seq + 1 in
  let e8 := mkEmitted (mkPacket confirm_ether confirm_ip confirm_tcp []
                         timestamp_src_fin_ack)
              attacker_seq victim_seq in
  (* victim sends FIN ACK *)
  let reply_tcp := mkTCP (smb_port E) (c_sport c) FA victim_seq (Some attacker_seq)
                     (Some (destination_win_value c)) None in
  let tc := set_timestamp timestamp_src_fin_ack tc in
  let '(timestamp_dest_fin_ack, tc, g) := next_timestamp (min_delay c) None tc g in
  let victim_seq := victim_seq + 1 in
  let e9 := mkEmitted (mkPacket reply_ether reply_ip reply_tcp [] timestamp_dest_fin_ack)
              attacker_seq victim_seq in
  (* source sends final ACK *)
  let confirm_tcp := mkTCP (c_sport c) (smb_port E) A attacker_seq (Some victim_seq)
                       (Some (source_win_value c)) None in
  let tc := set_timestamp timestamp_dest_fin_ack tc in
  let '(timestamp_final_ack, tc, g) := next_timestamp (min_delay c) None tc g in
  let e10 := mkEmitted (mkPacket confirm_ether confirm_ip confirm_tcp []
                          timestamp_final_ack)
               attacker_seq victim_seq in
  Ok ([e2; e3; e4; e5; e6; e7; e8; e9; e10], tc, g).

(** The packets of one target, in the order of the [add_packet] calls. *)
Definition connection (E : Env) (c : conn) (tc : TimestampController) (g : Rng)
  : result (list emitted * TimestampController * Rng) :=
  (* 1) Build request package *)
  let request_ether := mkEther (mac_source c) (mac_destination c) in
  let request_ip := mkIP (Single (ip_source c)) (ip_target c) (source_ttl_value c) true in
  let request_tcp := mkTCP (c_sport c) (smb_port E) S_ (attacker_seq0 c) None
                       (Some (source_win_value c)) (Some (source_mss_value c)) in
  let attacker_seq := attacker_seq0 c + 1 in
  let e1 := mkEmitted (mkPacket request_ether request_ip request_tcp []
                         (timestamp_next_pkt c))
              attacker_seq (victim_seq0 c) in
  let '(timestamp_reply, tc, g) := next_timestamp (min_delay c) None tc g in
  if hosts_smb c then
    '(l, tc, g) ← hosting_packets E c e1 timestamp_reply tc g;
    Ok (e1 :: l, tc, g)
  else
    (* Build RST package *)
    let reply_ether := mkEther (mac_destination c) (mac_source c) in
    let reply_ip := mkIP (ip_target c) (Single (ip_source c)) (destination_ttl_value c)
                      true in
    let reply_tcp := mkTCP (smb_port E) (c_sport c) RA 0 (Some attacker_seq)
                       (Some (destination_win_value c)) (Some (destination_mss_value c)) in
    let e2 := mkEmitted (mkPacket reply_ether reply_ip reply_tcp [] timestamp_reply)
                attacker_seq (victim_seq0 c) in
    Ok ([e1; e2], tc, g).


(** *** generate_attack_packets *)

(** [l.remove(x)] when [x in l]. *)
Fixpoint remove_first (x : string) (l : list string) : list string :=
  match l with
  | [] => []
  | y :: l' => if decide (x = y) then l' else y :: remove_first x l'
  end.

(** [int(q)]: truncation towards zero. *)
Definition py_int (q : Q) : Z := Z.quot (Qnum q) (Z.pos (Qden q)).

(** [l[:n]] *)
Definition slice_to {X : Type} (n : Z) (l : list X) : list X :=
  if n <? 0 then take (Z.to_nat (Z.of_nat (length l) + n)) l
  else take (Z.to_nat n) l.

Definition as_list (a : pyaddr) : list string :=
  match a with
  | Single x => [x]
  | Many l => l
  end.

(** A user defined address or list and the count that is left for the
    random addresses; ["1.1.1.1"] stands for none. *)
Definition user_defined {N : Type} (sub : N → Z → N) (count : N) (a : pyaddr)
  : N * list string :=
  match a with
  | Many l => (sub count (Z.of_nat (length l)), l)
  | Single x =>
      if decide (x = "1.1.1.1") then (count, []) else (sub count 1, [x])
  end.

(** The targets, before the shuffle, and the targets that host SMB. The
    product of the number of targets and the hosting percentage is exact
    here; the program computes it in doubles before [int] truncates it. *)
Definition select_targets (E : Env) (P : Params) (g : Rng)
  : list string * list string * Rng :=
  let ip_source := IP_SOURCE P in
  let dest_ip_count := TARGET_COUNT P in
  let ip_addr_count := get_ip_address_count E in
  let dest_ip_count :=
    if ip_addr_count <? dest_ip_count + 1 then ip_addr_count else dest_ip_count in
  (* Check for user defined target IP addresses *)
  let '(dest_ip_count, ip_destinations) :=
    user_defined Z.sub dest_ip_count (IP_DESTINATION P) in
  (* Take random targets from pcap *)
  let '(rnd_ips, g) := get_random_ip_address E dest_ip_count g in
  let ip_destinations := ip_destinations ++ as_list rnd_ips in
  (* Make sure the source IP is not part of targets *)
  let ip_destinations := remove_first ip_source ip_destinations in
  (* Calculate the amount of IP addresses which are hosting SMB *)
  let host_percentage := HOSTING_PERCENTAGE P in
  let rnd_ip_count := (inject_Z (Z.of_nat (length ip_destinations)) * host_percentage)%Q in
  (* Check for user defined IP addresses which are hosting SMB *)
  let '(rnd_ip_count, hosting_ip) :=
    user_defined (fun q z => (q - inject_Z z)%Q) rnd_ip_count (HOSTING_IP P) in
  let hosting_ip := hosting_ip ++ slice_to (py_int rnd_ip_count) ip_destinations in
  (ip_destinations, hosting_ip, g).

(** [while ip_source in ip_dests], at most [fuel] rounds. *)
Fixpoint fresh_source (E : Env) (fuel : nat) (ip_dests : list string)
    (ip_source : string) (g : Rng) : result (string * Rng) :=
  if bool_decide (ip_source ∈ ip_dests) then
    match fuel with
    | O => Raise OutOfFuel
    | S fuel' =>
        let '(ip_source, g) := generate_random_ipv4_address E g in
        fresh_source E fuel' ip_dests ip_source g
    end
  else Ok (ip_source, g).

(** What the loop over the targets reads and does not change. *)
Record scan : Type := mkScan {
  s_ip_source : string;
  s_mac_source : string;
  s_mac_dest : pymac;
  s_hosting_ip : list string;
  s_mac_dests : gmap string string;
  s_source_data : Z * Z * Z;       (* MSS, TTL and window of the source *)
  s_src_platform : string;
  s_first_timestamp_smb : string
}.

(** What the loop over the targets changes; [conns] lists, for every
    target that got packets, the connection and what was emitted. *)
Record loop : Type := mkLoop {
  l_sport : Z;
  l_timestamp_next_pkt : Q;
  l_tc : TimestampController;
  l_g : Rng;
  conns : list (conn * list emitted)
}.

(** The body of [if ip != ip_source]. *)
Definition target_packets (E : Env) (A0 : Attack) (sc : scan) (s : loop) (ip : string)
  : result loop :=
  let P := params A0 in
  let g := l_g s in
  (* Get destination Mac Address *)
  let mac_destination := default "" (s_mac_dests sc !! ip) in
  '(ip, mac_destination, g) ←
    (if (String.length mac_destination =? 0)%nat then
       match s_mac_dest sc with
       | MacStr mac_dest =>
           let ip_from_mac := get_ip_address_from_mac E mac_dest in
           ip ← (match ip_from_mac with
                 | [] => Ok (Single ip)
                 | _ => _ ← ip_src_dst_catch_equal E (s_ip_source sc) (Many ip_from_mac);
                        Ok (Many ip_from_mac)
                 end);
           Ok (ip, mac_dest, g)
       | _ =>
           let '(m, g) := generate_random_mac_address E g in
           Ok (Single ip, m, g)
       end
     else Ok (Single ip, mac_destination, g));
  (* Get MSS, TTL and Window size value for destination IP *)
  let '(destination_mss_value, destination_ttl_value, destination_win_value, g) :=
    get_ip_data E ip g in
  let '(min_delay, max_delay) := get_reply_latency E (s_ip_source sc) ip in
  (* New connection, new random TCP sequence numbers *)
  '(attacker_seq, g) ← randint 1000 50000 g;
  '(victim_seq, g) ← randint 1000 50000 g;
  (* Randomize source port for each connection if specified *)
  let '(sport, g) :=
    if PORT_SOURCE_RANDOMIZE P
    then generate_source_port_from_platform E (s_src_platform sc) (Some (l_sport s)) g
    else (l_sport s, g) in
  let '(source_mss_value, source_ttl_value, source_win_value) := s_source_data sc in
  let hosts := match ip with
               | Single a => bool_decide (a ∈ s_hosting_ip sc)
               | Many _ => false
               end in
  let c := mkConn (s_mac_source sc) mac_destination (s_ip_source sc) ip sport
             source_mss_value source_ttl_value source_win_value
             destination_mss_value destination_ttl_value destination_win_value
             min_delay (PROTOCOL_VERSION P) (HOSTING_VERSION P) hosts
             (l_timestamp_next_pkt s) (s_first_timestamp_smb sc) (host_os A0)
             attacker_seq victim_seq in
  '(out, tc, g) ← connection E c (l_tc s) g;
  Ok (mkLoop sport (l_timestamp_next_pkt s) tc g (conns s ++ [(c, out)])).

(** One round of [for ip in ip_dests]. *)
Definition target_round (E : Env) (A0 : Attack) (sc : scan) (s : loop) (ip : string)
  : result loop :=
  s ← (if decide (ip = s_ip_source sc) then Ok s else target_packets E A0 sc s ip);
  let tc := set_timestamp (l_timestamp_next_pkt s) (l_tc s) in
  let '(timestamp_next_pkt, tc, g) := next_timestamp 0 None tc (l_g s) in
  Ok (mkLoop (l_sport s) timestamp_next_pkt tc g (conns s)).

Fixpoint target_rounds (E : Env) (A0 : Attack) (sc : scan) (s : loop)
    (ip_dests : list string) : result loop :=
  match ip_dests with
  | [] => Ok s
  | ip :: rest => s ← target_round E A0 sc s ip; target_rounds E A0 sc s rest
  end.

Definition emitted_packets (cs : list (conn * list emitted)) : list Packet :=
  concat (map (fun c => map pkt (snd c)) cs).

(** SMBLib.invalid_smb_version ends the run. *)
Definition check_smb_version (E : Env) (v : string) : result unit :=
  if bool_decide (v ∈ smb_versions E) then Ok () else Raise SystemExit.

(** [generate_attack_packets]. BaseAttack.add_packet, which is not among
    the sources, appends the packet to [self.packets]. [fuel] bounds the
    rounds of the search for a random source address. *)
Definition generate_attack_packets (E : Env) (fuel : nat) (A0 : Attack) (g : Rng)
  : result (Attack * Rng * list (conn * list emitted)) :=
  let P := params A0 in
  (* Timestamp *)
  let timestamp_next_pkt := INJECT_AT_TIMESTAMP P in
  let ip_source := IP_SOURCE P in
  let '(ip_destinations, hosting_ip, g) := select_targets E P g in
  let P' := with_targets P (Many ip_destinations) (Many hosting_ip) in
  (* Shuffle targets *)
  let '(ip_destinations, g) := shuffle E ip_destinations g in
  let mac_source := MAC_SOURCE P in
  let mac_dest := MAC_DESTINATION P in
  (* Check smb version *)
  _ ← check_smb_version E (PROTOCOL_VERSION P);
  _ ← check_smb_version E (HOSTING_VERSION P);
  (* Check source platform *)
  let src_platform := lower E (SOURCE_PLATFORM P) in
  (* randomize source ports according to platform, if specified *)
  let '(sport, g) :=
    if PORT_SOURCE_RANDOMIZE P
    then generate_source_port_from_platform E src_platform None g
    else (PORT_SOURCE P, g) in
  (* a destination MAC was specified, generate IP that fits MAC *)
  '(ip_destinations, g) ←
    (match mac_dest with
     | MacStr m =>
         let '(ds, g) :=
           match get_ip_address_from_mac E m with
           | [] => let '(a, g) := generate_random_ipv4_address E g in (Single a, g)
           | l => (Many l, g)
           end in
         _ ← ip_src_dst_catch_equal E ip_source ds;
         Ok (ds, g)
     | _ => Ok (Many ip_destinations, g)
     end);
  let '(ip_dests, g) := shuffle E (as_list ip_destinations) g in
  (* Randomize source IP, if specified *)
  '(ip_source, mac_source, g) ←
    (if IP_SOURCE_RANDOMIZE P then
       let '(a, g) := generate_random_ipv4_address E g in
       '(a, g) ← fresh_source E fuel ip_dests a g;
       let m := get_mac_address E a in
       let '(m, g) := if (String.length m =? 0)%nat
                      then generate_random_mac_address E g else (m, g) in
       Ok (a, m, g)
     else Ok (ip_source, mac_source, g));
  (* Get MSS, TTL and Window size value for source IP *)
  let '(source_data, g) := get_ip_data E (Single ip_source) g in
  let mac_dests := get_mac_addresses E ip_dests in
  let first_timestamp_smb := String.substring 0 19 (get_pcap_timestamp_start E) in
  let sc := mkScan ip_source mac_source mac_dest hosting_ip mac_dests source_data
              src_platform first_timestamp_smb in
  s ← target_rounds E A0 sc
        (mkLoop sport timestamp_next_pkt (timestamp_controller A0) g []) ip_dests;
  Ok (mkAttack P' (packets A0 ++ emitted_packets (conns s)) timestamp_next_pkt
        (attack_end_utime A0) (l_tc s) (host_os A0),
      l_g s, conns s).

(** *** generate_attack_pcap *)

(** [sorted(l, key=lambda pkt: pkt.time)]: a stable sort. *)
Fixpoint insert_by_time (p : Packet) (l : list Packet) : list Packet :=
  match l with
  | [] => [p]
  | q :: l' => if Qle_bool (ptime p) (ptime q) then p :: q :: l'
               else q :: insert_by_time p l'
  end.

Definition sorted_by_time (l : list Packet) : list Packet :=
  foldr insert_by_time [] l.

Definition generate_attack_pcap (E : Env) (A0 : Attack) : result (Z * string * Attack) :=
  match last (packets A0) with
  | None => Raise IndexError
  | Some p =>
      (* store end time of attack *)
      let A1 := mkAttack (params A0) (packets A0) (attack_start_utime A0) (ptime p)
                  (timestamp_controller A0) (host_os A0) in
      (* write attack self.packets to pcap *)
      let pcap_path := write_attack_pcap E (sorted_by_time (packets A1)) in
      Ok (Z.of_nat (length (packets A1)), pcap_path, A1)
  end.


(** *** Sample runs *)

Definition sample_len (x : layer) : nat :=
  match x with
  | NBTSession _ _ => 4
  | SMBNegociate_Protocol_Request_Header _ _ _ _ => 35
  | SMBNegociate_Protocol_Request_Tail None => 2
  | SMBNegociate_Protocol_Request_Tail (Some dia) => 2 + String.length dia
  | SMBNegociate_Protocol_Response_Advanced_Security _ _ _ _ blob =>
      73 + String.length blob
  | SMB2_SYNC_Header _ => 64
  | SMB2_Negotiate_Protocol_Response _ _ _ blob _ _ _ _ _ _ _ => 64 + String.length blob
  end.

Definition sample_pool : list string :=
  ["10.0.0.1"; "10.0.0.2"; "10.0.0.3"; "10.0.0.4"; "10.0.0.5"; "10.0.0.6";
   "10.0.0.7"; "10.0.0.8"; "10.0.0.9"; "10.0.0.10"; "10.0.0.11"; "10.0.0.12"].

(** A capture with [count] addresses, of which the random pick returns
    the first of [pool]; replies take at least one second. *)
Definition sample_env (count : Z) (pool : list string) : Env :=
  mkEnv count
    (fun n g => (Many (take (Z.to_nat n) pool), g))
    (fun _ => [])
    (fun _ => "00:00:00:00:00:01")
    (fun _ => ∅)
    "2018-01-01 00:00:00.000000"
    (fun _ g => ((1460, 64, 8192), g))
    (fun _ _ => (1%Q, 2%Q))
    (fun g => ("172.16.0.1", g))
    (fun g => ("02:00:00:00:00:02", g))
    (fun _ _ => Ok ())
    (fun _ => "attack.pcap")
    (fun _ _ g => (49152, g))
    Qfloor
    ["1"; "2.0"; "2.1"; "3.0"; "3.0.2"; "3.1.1"]
    ["PC NETWORK PROGRAM 1.0"; "LANMAN1.0"; "Windows for Workgroups 3.1a";
     "LM1.2X002"; "LANMAN2.1"; "NT LM 0.12"; "SMB 2.002"; "SMB 2.???"]
    445
    (fun _ _ g => (mkPlatformData "guid" "blob" 7 65536 0, g))
    (fun _ => Ok 1514764800%Q)
    (fun l g => (rev l, g))
    (fun x => x)
    sample_len.

Definition sample_params (target_count : Z) (version : string) : Params :=
  mkParams 100 "192.168.0.1" target_count (Single "1.1.1.1") (1 # 2)
    (Single "1.1.1.1") "00:00:00:00:00:01" MacNone version "2.1" "win7"
    true 50000 false.

Definition sample_attack (target_count : Z) (version : string) : Attack :=
  mkAttack (sample_params target_count version) [] 0 0 (mkTC 100 1) "win7".

Definition sample_rng : Rng := mkRng (fun _ => 500) 0.


(** *** Timestamps *)

Lemma uniform_nonneg a b f : (0 <= a → 0 <= b → 0 <= f → f <= 1 → 0 <= a + (b - a) * f)%Q.
Proof.
  intros Ha Hb Hf0 Hf1.
  assert (E : (a + (b - a) * f == a * (1 - f) + b * f)%Q) by ring.
  rewrite E.
  assert (0 <= a * (1 - f))%Q by (apply Qmult_le_0_compat; lra).
  assert (0 <= b * f)%Q by (apply Qmult_le_0_compat; lra).
  lra.
Qed.

Lemma next_timestamp_spec m tc g t tc' g' :
  next_timestamp m None tc g = (t, tc', g') →
  current_timestamp tc' = t ∧ model_default tc' = model_default tc ∧
  ((0 <= m)%Q → (0 <= model_default tc)%Q → (current_timestamp tc <= t)%Q).
Proof.
  unfold next_timestamp, uniform.
  destruct (random g) as [f g1] eqn:Hf. cbn [default].
  intros [= <- <- <-]. cbn [current_timestamp model_default].
  split; [reflexivity|]. split; [reflexivity|].
  intros Hm Hd. apply random_bounds in Hf as (Hf0 & Hf1 & _).
  pose proof (uniform_nonneg m (model_default tc) f Hm Hd Hf0 Hf1). lra.
Qed.

#[local] Opaque next_timestamp.

(** *** Sequence counters *)

(** The sequence numbers a segment consumes: one for SYN and for FIN,
    and the bytes of the layers above TCP. *)
Definition seg_len (E : Env) (p : Packet) : Z :=
  match flags (tcp p) with
  | S_ | SA | FA => 1
  | _ => 0
  end + sum_len E (payload p).

Definition from_attacker (c : conn) (p : Packet) : bool :=
  bool_decide (ip_src (ip p) = Single (ip_source c)).

(** From the counters [a] and [v] before a packet to the counters at its
    [add_packet]: the sender's counter is the sequence number of the
    packet (a reset carries 0 instead) and grows by the length of the
    segment; the other counter is the acknowledgement number and stays. *)
Definition seq_step (E : Env) (c : conn) (a v : Z) (e : emitted) : Prop :=
  let t := tcp (pkt e) in
  if from_attacker c (pkt e) then
    seq t = a ∧ (flags t ≠ S_ → ack t = Some v) ∧
    attacker_seq e = a + seg_len E (pkt e) ∧ victim_seq e = v
  else
    (flags t ≠ RA → seq t = v) ∧ ack t = Some a ∧
    victim_seq e = v + seg_len E (pkt e) ∧ attacker_seq e = a.

Fixpoint seq_chain (E : Env) (c : conn) (a v : Z) (l : list emitted) : Prop :=
  match l with
  | [] => True
  | e :: l' => seq_step E c a v e ∧ seq_chain E c (attacker_seq e) (victim_seq e) l'
  end.

Lemma sum_len_nonneg E l : 0 ≤ sum_len E l.
Proof. induction l as [|x l IH]; simpl; lia. Qed.

Lemma sum_len_cons E x l : sum_len E (x :: l) = Z.of_nat (len E x) + sum_len E l.
Proof. reflexivity. Qed.

Lemma sum_len_nil E : sum_len E [] = 0.
Proof. reflexivity. Qed.

#[local] Arguments sum_len : simpl never.

Lemma seg_len_nonneg E p : 0 ≤ seg_len E p.
Proof.
  unfold seg_len. pose proof (sum_len_nonneg E (payload p)).
  destruct (flags (tcp p)); lia.
Qed.

Lemma seq_chain_monotone E c a v l :
  seq_chain E c a v l →
  Sorted Z.le (a :: map attacker_seq l) ∧ Sorted Z.le (v :: map victim_seq l).
Proof.
  revert a v. induction l as [|e l IH]; intros a v; simpl.
  - intros _. split; repeat constructor.
  - intros [Hs Hc]. destruct (IH _ _ Hc) as [Ha Hv].
    pose proof (seg_len_nonneg E (pkt e)).
    unfold seq_step in Hs. destruct (from_attacker c (pkt e)).
    + destruct Hs as (_ & _ & Ha' & Hv').
      split; constructor; try done; constructor; lia.
    + destruct Hs as (_ & _ & Hv' & Ha').
      split; constructor; try done; constructor; lia.
Qed.

(** Destructs the calls of which [connection] takes the results apart. *)
Ltac conn_cases H :=
  repeat (first
    [ match type of H with
      | context [next_timestamp ?m ?o ?tc ?g] =>
          let E := fresh "Hts" in
          destruct (next_timestamp m o tc g) as [[? ?] ?] eqn:E
      end
    | match type of H with
      | context [randint ?a ?b ?g] =>
          let E := fresh "Hri" in
          destruct (randint a b g) as [[? ?]|] eqn:E; [|discriminate H]
      end
    | match type of H with
      | context [mktime_strptime ?E ?s] =>
          destruct (mktime_strptime E s) as [?|]; [|discriminate H]
      end
    | match type of H with
      | context [get_smb_platform_data ?E ?o ?t ?g] =>
          destruct (get_smb_platform_data E o t g) as [? ?]
      end ]; cbn [mbind result_bind] in H).

Lemma connection_seq_chain E c tc g out tc' g' :
  connection E c tc g = Ok (out, tc', g') →
  ip_target c ≠ Single (ip_source c) →
  seq_chain E c (attacker_seq0 c) (victim_seq0 c) out.
Proof.
  intros H Hne. unfold connection in H.
  assert (Hv : bool_decide (ip_target c = Single (ip_source c)) = false)
    by by apply bool_decide_eq_false.
  conn_cases H. destruct (hosts_smb c).
  - unfold hosting_packets in H. cbn [attacker_seq victim_seq] in H.
    conn_cases H. injection H as <- <- <-.
    unfold seq_chain, seq_step, from_attacker, seg_len. cbn.
    rewrite !Hv, !bool_decide_eq_true_2 by done.
    destruct (smb2_response c); cbn; rewrite ?sum_len_cons, ?sum_len_nil;
      repeat split; try done; lia.
  - injection H as <- <- <-.
    unfold seq_chain, seq_step, from_attacker, seg_len. cbn.
    rewrite !Hv, !bool_decide_eq_true_2 by done.
    cbn; rewrite ?sum_len_nil; repeat split; try done; lia.
Qed.


(** Turns the equations of the [next_timestamp] calls into their bounds. *)
Ltac timestamp_bounds :=
  repeat match goal with
  | H : next_timestamp _ None _ _ = _ |- _ =>
      apply next_timestamp_spec in H as (? & ? & ?);
      cbn [set_timestamp model_default current_timestamp] in *
  end;
  repeat match goal with
  | H : model_default ?t = model_default _ |- _ => rewrite H in *; clear H
  end.

Definition times (out : list emitted) : list Q := map (fun e => ptime (pkt e)) out.

Lemma connection_times E c tc g out tc' g' :
  connection E c tc g = Ok (out, tc', g') →
  model_default tc' = model_default tc ∧
  ((timestamp_next_pkt c <= current_timestamp tc)%Q →
   (0 <= min_delay c)%Q → (0 <= model_default tc)%Q →
   Sorted Qle (times out)).
Proof.
  intros H. unfold connection in H. conn_cases H. destruct (hosts_smb c).
  - unfold hosting_packets in H. cbn [attacker_seq victim_seq] in H.
    conn_cases H. injection H as <- <- <-. timestamp_bounds.
    split; [reflexivity|]. intros H0 Hm Hd.
    repeat match goal with
    | H : _ → _ → (_ <= _)%Q |- _ => specialize (H Hm Hd)
    end.
    unfold times. cbn. repeat constructor; lra.
  - injection H as <- <- <-. timestamp_bounds.
    split; [reflexivity|]. intros H0 Hm Hd.
    repeat match goal with
    | H : _ → _ → (_ <= _)%Q |- _ => specialize (H Hm Hd)
    end.
    unfold times. cbn. repeat constructor; lra.
Qed.

Definition flag_list (out : list emitted) : list tcp_flags :=
  map (fun e => flags (tcp (pkt e))) out.

(** The handshake, the negotiation and the teardown; or the SYN and the
    reset. *)
Lemma connection_flags E c tc g out tc' g' :
  connection E c tc g = Ok (out, tc', g') →
  flag_list out = if hosts_smb c then [S_; SA; A; PA; A; PA; A; FA; FA; A] else [S_; RA].
Proof.
  intros H. unfold connection in H. conn_cases H. destruct (hosts_smb c).
  - unfold hosting_packets in H. cbn [attacker_seq victim_seq] in H.
    conn_cases H. by injection H as <- <- <-.
  - by injection H as <- <- <-.
Qed.

(** What the environment has to grant for a connection to be built. *)
Record well_behaved (E : Env) : Prop := mkWellBehaved {
  wb_filetime : ∀ x y, (x <= y)%Q → get_filetime_format E x ≤ get_filetime_format E y;
  wb_latency : ∀ a b, (0 <= (get_reply_latency E a b).1)%Q;
  wb_mktime : ∀ s, ∃ t, mktime_strptime E s = Ok t;
  wb_shuffle : ∀ l g, (shuffle E l g).1 ≡ₚ l
}.

Lemma randint_ok a b g : a ≤ b → ∃ x g', randint a b g = Ok (x, g').
Proof. intros H. apply randrange_ok. lia. Qed.

Lemma connection_ok E c tc g :
  well_behaved E → (0 <= min_delay c)%Q → (0 <= model_default tc)%Q →
  ∃ out tc' g', connection E c tc g = Ok (out, tc', g').
Proof.
  intros Hwb Hm Hd. unfold connection.
  destruct (next_timestamp _ _ tc g) as [[q1 t1] g1] eqn:H1.
  destruct (hosts_smb c); [|eauto].
  unfold hosting_packets. cbn [attacker_seq victim_seq].
  destruct (next_timestamp _ _ (set_timestamp q1 t1) g1) as [[q2 t2] g2] eqn:H2.
  destruct (randint_ok 1 65535 g2) as (mid & g3 & ->); [lia|].
  cbn [mbind result_bind].
  destruct (randint_ok 1 65535 g3) as (pid & g4 & ->); [lia|].
  cbn [mbind result_bind].
  destruct (next_timestamp _ _ (set_timestamp q2 t2) g4) as [[q3 t3] g5] eqn:H3.
  destruct (next_timestamp _ _ (set_timestamp q3 t3) g5) as [[q4 t4] g6] eqn:H4.
  destruct (wb_mktime E Hwb (first_timestamp_smb c)) as (ft & ->).
  cbn [mbind result_bind].
  destruct (get_smb_platform_data E _ ft g6) as [pd g7].
  destruct (next_timestamp _ _ (set_timestamp q4 t4) g7) as [[q5 t5] g8] eqn:H5.
  destruct (randint_ok (get_filetime_format E (q3 + (q5 - q3) * (1 # 10)))
              (get_filetime_format E (q5 - (q5 - q3) * (1 # 10))) g8)
    as (st & g9 & ->).
  { apply (wb_filetime E Hwb). timestamp_bounds.
    repeat match goal with
    | H : _ → _ → (_ <= _)%Q |- _ => specialize (H Hm Hd)
    end. lra. }
  cbn [mbind result_bind].
  repeat match goal with
  | |- context [next_timestamp ?m ?o ?t ?g] =>
      destruct (next_timestamp m o t g) as [[? ?] ?]
  end.
  cbn [mbind result_bind]. eauto.
Qed.


(** *** Negotiation *)

(** The request tails for version "1": one per dialect, of the first six. *)
Lemma smb1_request_tails E :
  (6 ≤ length (smb_dialects E))%nat →
  smb_req_tail_arr E "1" =
    map (fun dia => SMBNegociate_Protocol_Request_Tail (Some dia))
      (take 6 (smb_dialects E)) ∧
  length (smb_req_tail_arr E "1") = 6%nat.
Proof.
  intros H. unfold smb_req_tail_arr, smb_req_dialects. rewrite String.eqb_refl.
  destruct (take 6 (smb_dialects E)) as [|d ds] eqn:Ht.
  - apply (f_equal length) in Ht. rewrite length_take in Ht.
    change (length (@nil string)) with 0%nat in Ht. lia.
  - rewrite <- Ht. split; [reflexivity|].
    rewrite length_map, length_take. lia.
Qed.

(** The legacy response: the NetBIOS wrapper and one SMB1 header. *)
Definition legacy_response (E : Env) (p : Packet) : Prop :=
  ∃ pid mid blob,
    let head := SMBNegociate_Protocol_Response_Advanced_Security
                  smb1_start pid mid 5 blob in
    payload p = [NBTSession 0 (Z.of_nat (len E head)); head].

(** The SMB2 response: the NetBIOS wrapper, the SMB2 sync header and the
    negotiate protocol response with capabilities and security blob. *)
Definition smb2_shape (E : Env) (p : Packet) (body : layer) : Prop :=
  ∃ blob caps size systime start guid,
    body = SMB2_Negotiate_Protocol_Response 0x02ff 124 (Z.of_nat (String.length blob))
             blob caps size size size systime start guid ∧
    payload p = [NBTSession 0 (Z.of_nat (len E (SMB2_SYNC_Header 1))
                               + Z.of_nat (len E body));
                 SMB2_SYNC_Header 1; body].

(** The negotiation packets of a connection to a target that hosts SMB:
    message 3 is the request, message 4 its acknowledgement, message 5
    the response. *)
Definition negotiation (E : Env) (c : conn) (out : list emitted) : Prop :=
  ∃ req ack_req rsp,
    out !! 3%nat = Some req ∧ out !! 4%nat = Some ack_req ∧ out !! 5%nat = Some rsp ∧
    (∃ nbt head, payload (pkt req) =
                   nbt :: head :: smb_req_tail_arr E (smb_version c)) ∧
    (smb_version c = "1" →
       legacy_response E (pkt rsp) ∧
       victim_seq rsp = victim_seq ack_req + sum_len E (payload (pkt rsp))) ∧
    (smb_version c ≠ "1" → hosting_version c ≠ "1" →
       ∃ body, smb2_shape E (pkt rsp) body ∧
               victim_seq rsp =
                 victim_seq ack_req
                 + (Z.of_nat (len E (NBTSession 0 (Z.of_nat (len E (SMB2_SYNC_Header 1))
                                                   + Z.of_nat (len E body))))
                    + Z.of_nat (len E (SMB2_SYNC_Header 1)))
                 + Z.of_nat (len E body)).

Lemma connection_negotiation E c tc g out tc' g' :
  connection E c tc g = Ok (out, tc', g') → hosts_smb c = true →
  negotiation E c out.
Proof.
  intros H Hh. unfold connection in H. conn_cases H. rewrite Hh in H.
  unfold hosting_packets in H. cbn [attacker_seq victim_seq] in H.
  conn_cases H. injection H as <- <- <-.
  eexists _, _, _. split; [reflexivity|]. split; [reflexivity|].
  split; [reflexivity|]. cbn [pkt payload victim_seq]. split; [eauto|].
  unfold smb2_response. split.
  - intros ->. rewrite String.eqb_refl. cbn [negb andb].
    split; [unfold legacy_response; cbn; eauto|].
    rewrite !sum_len_cons, sum_len_nil. lia.
  - intros H1 H2. apply String.eqb_neq in H1, H2. rewrite H1, H2. cbn [negb andb].
    eexists. split; [|reflexivity].
    unfold smb2_shape. cbn. eexists _, _, _, _, _, _. split; reflexivity.
Qed.


(** *** The loop over the targets *)

(** The connection [x] was built in the round of target [ip] that starts
    in state [s]. *)
Definition built (E : Env) (A0 : Attack) (sc : scan) (s : loop) (ip : string)
    (x : conn * list emitted) : Prop :=
  (∃ g0 tc1 g1, connection E x.1 (l_tc s) g0 = Ok (x.2, tc1, g1)) ∧
  ip_target x.1 ≠ Single (ip_source x.1) ∧
  smb_version x.1 = PROTOCOL_VERSION (params A0) ∧
  hosting_version x.1 = HOSTING_VERSION (params A0) ∧
  timestamp_next_pkt x.1 = l_timestamp_next_pkt s ∧
  min_delay x.1 = (get_reply_latency E (s_ip_source sc) (ip_target x.1)).1 ∧
  ((ip_target x.1 = Single ip ∧ hosts_smb x.1 = bool_decide (ip ∈ s_hosting_ip sc)) ∨
   ∃ m, s_mac_dest sc = MacStr m).

Ltac split_cases H :=
  repeat (match type of H with
          | context [match ?x with _ => _ end] => destruct x eqn:?
          | context [mbind _ ?x] => destruct x eqn:?
          end; cbn [mbind result_bind] in H; try discriminate H).

Lemma target_packets_spec E A0 sc s ip s' :
  target_packets E A0 sc s ip = Ok s' → ip ≠ s_ip_source sc →
  ∃ x, conns s' = conns s ++ [x] ∧ built E A0 sc s ip x ∧
       l_timestamp_next_pkt s' = l_timestamp_next_pkt s ∧
       model_default (l_tc s') = model_default (l_tc s).
Proof.
  intros H Hne. unfold target_packets in H. split_cases H.
  all: injection H as <-; cbn [conns l_timestamp_next_pkt l_tc].
  all: eexists; split; [reflexivity|].
  all: match goal with
       | Hc : connection _ _ _ _ = Ok _ |- _ =>
           pose proof (proj1 (connection_times _ _ _ _ _ _ _ Hc)) as Hmd
       end.
  all: split; [|split; [reflexivity | exact Hmd]].
  all: unfold built; cbn.
  all: repeat match goal with
       | Hl : get_reply_latency _ _ _ = _ |- _ => rewrite Hl; clear Hl
       end; cbn.
  all: repeat match goal with
       | Hq : context [ip_src_dst_catch_equal ?E ?a ?b] |- _ =>
           destruct (ip_src_dst_catch_equal E a b); cbn [mbind result_bind] in Hq
       end.
  all: simplify_eq.
  all: split_and!; eauto; try done; congruence.
Qed.

Lemma target_round_spec E A0 sc s ip s' :
  target_round E A0 sc s ip = Ok s' →
  ∃ new, conns s' = conns s ++ new ∧
         (new = [] ∨ ∃ x, new = [x] ∧ built E A0 sc s ip x) ∧
         current_timestamp (l_tc s') = l_timestamp_next_pkt s' ∧
         model_default (l_tc s') = model_default (l_tc s) ∧
         ((0 <= model_default (l_tc s))%Q →
          (l_timestamp_next_pkt s <= l_timestamp_next_pkt s')%Q).
Proof.
  unfold target_round. intros H.
  assert (Hstep : ∃ s1 new, conns s1 = conns s ++ new ∧
            (new = [] ∨ ∃ x, new = [x] ∧ built E A0 sc s ip x) ∧
            l_timestamp_next_pkt s1 = l_timestamp_next_pkt s ∧
            model_default (l_tc s1) = model_default (l_tc s) ∧
            (let tc := set_timestamp (l_timestamp_next_pkt s1) (l_tc s1) in
             let '(t, tc, g) := next_timestamp 0 None tc (l_g s1) in
             Ok (mkLoop (l_sport s1) t tc g (conns s1))) = Ok s').
  { destruct (decide (ip = s_ip_source sc)) as [Heq|Hne].
    - exists s, []. rewrite app_nil_r. split_and!; auto.
    - destruct (target_packets E A0 sc s ip) as [s1|] eqn:Hp; [|discriminate H].
      destruct (target_packets_spec _ _ _ _ _ _ Hp Hne) as (x & Hx & Hb & Ht & Hm).
      exists s1, [x]. split_and!; eauto. }
  destruct Hstep as (s1 & new & Hc & Hnew & Ht & Hm & Hend).
  cbn zeta in Hend.
  destruct (next_timestamp 0 None _ (l_g s1)) as [[t tc] g] eqn:Hts.
  injection Hend as <-. cbn.
  apply next_timestamp_spec in Hts as (Hcur & Hmd & Hle).
  cbn [set_timestamp model_default current_timestamp] in *.
  exists new. split_and!; try done.
  - congruence.
  - intros Hd. rewrite <- Ht. apply Hle; [lra | congruence].
Qed.


Lemma target_rounds_built E A0 sc l : ∀ s s',
  target_rounds E A0 sc s l = Ok s' →
  ∃ new, conns s' = conns s ++ new ∧
         Forall (fun x => ∃ s1 ip, built E A0 sc s1 ip x) new.
Proof.
  induction l as [|ip l IH]; intros s s' H; simpl in H.
  - injection H as <-. exists []. by rewrite app_nil_r.
  - destruct (target_round E A0 sc s ip) as [s1|] eqn:Hr; [|discriminate H].
    cbn [mbind result_bind] in H.
    destruct (target_round_spec _ _ _ _ _ _ Hr) as (new1 & Hc1 & Hnew1 & _).
    destruct (IH _ _ H) as (new2 & Hc2 & Hnew2).
    exists (new1 ++ new2). rewrite Hc2, Hc1, app_assoc. split; [done|].
    apply Forall_app. split; [|done].
    destruct Hnew1 as [->|(x & -> & Hb)]; [constructor|].
    constructor; [eauto | constructor].
Qed.

Definition syn_time (x : conn * list emitted) : Q := timestamp_next_pkt x.1.

Lemma Sorted_Qle_cons a l :
  Sorted Qle l → Forall (fun b => (a <= b)%Q) l → Sorted Qle (a :: l).
Proof.
  intros Hs Hf. constructor; [done|].
  destruct l; constructor. by inversion Hf.
Qed.

Lemma target_rounds_times E A0 sc l : ∀ s s',
  target_rounds E A0 sc s l = Ok s' →
  (∀ a b, (0 <= (get_reply_latency E a b).1)%Q) →
  (0 <= model_default (l_tc s))%Q →
  (l_timestamp_next_pkt s <= current_timestamp (l_tc s))%Q →
  ∃ new, conns s' = conns s ++ new ∧
         Forall (fun x => Sorted Qle (times x.2) ∧
                          (l_timestamp_next_pkt s <= syn_time x)%Q) new ∧
         Sorted Qle (map syn_time new).
Proof.
  induction l as [|ip l IH]; intros s s' H Hlat Hd Hcur; simpl in H.
  - injection H as <-. exists []. rewrite app_nil_r. split_and!; done.
  - destruct (target_round E A0 sc s ip) as [s1|] eqn:Hr; [|discriminate H].
    cbn [mbind result_bind] in H.
    destruct (target_round_spec _ _ _ _ _ _ Hr) as (new1 & Hc1 & Hnew1 & Hcur1 & Hmd1 & Hle1).
    specialize (Hle1 Hd).
    destruct (IH _ _ H Hlat) as (new2 & Hc2 & Hnew2 & Hs2);
      [by rewrite Hmd1 | rewrite Hcur1; apply Qle_refl |].
    assert (Hnew2' : Forall (fun x => Sorted Qle (times x.2) ∧
                               (l_timestamp_next_pkt s <= syn_time x)%Q) new2).
    { eapply Forall_impl; [exact Hnew2|]. intros x [? ?]. split; [done|lra]. }
    exists (new1 ++ new2). rewrite Hc2, Hc1, app_assoc. split; [done|].
    destruct Hnew1 as [->|(x & -> & Hb)]; [by split|].
    destruct Hb as ((g0 & tc1 & g1 & Hconn) & _ & _ & _ & Hts & Hmin & _).
    assert (Hx : syn_time x = l_timestamp_next_pkt s) by exact Hts.
    split.
    + constructor; [|done]. split; [|rewrite Hx; lra].
      apply (connection_times _ _ _ _ _ _ _ Hconn); [rewrite Hts; done| |done].
      rewrite Hmin. apply Hlat.
    + cbn [app map]. apply Sorted_Qle_cons; [done|].
      apply Forall_map. eapply Forall_impl; [exact Hnew2|].
      intros y [_ Hy]. cbn. rewrite Hx. lra.
Qed.

Ltac split_goal_cases :=
  repeat (match goal with
          | |- context [match ?x with _ => _ end] => destruct x eqn:?
          | |- context [mbind _ ?x] => destruct x eqn:?
          end; cbn [mbind result_bind]; try discriminate).

(** The run is the loop over the shuffled targets, started at the
    injection timestamp with the controller of the attack. *)
Lemma generate_attack_packets_loop E fuel A0 g A' g' cs :
  generate_attack_packets E fuel A0 g = Ok (A', g', cs) →
  ∃ sc sport g0 ip_dests s',
    target_rounds E A0 sc
      (mkLoop sport (INJECT_AT_TIMESTAMP (params A0)) (timestamp_controller A0) g0 [])
      ip_dests = Ok s' ∧
    cs = conns s' ∧
    packets A' = packets A0 ++ emitted_packets cs ∧
    attack_start_utime A' = INJECT_AT_TIMESTAMP (params A0).
Proof.
  unfold generate_attack_packets. split_goal_cases.
  all: intros [= <- <- <-]; eexists _, _, _, _, _; split; [eassumption|]; done.
Qed.


Lemma run_built E fuel A0 g A' g' cs :
  generate_attack_packets E fuel A0 g = Ok (A', g', cs) →
  ∃ sc, Forall (fun x => ∃ s1 ip, built E A0 sc s1 ip x) cs.
Proof.
  intros H. apply generate_attack_packets_loop in H
    as (sc & sport & g0 & ip_dests & s' & Hl & -> & _).
  apply target_rounds_built in Hl as (new & Hc & Hnew). cbn in Hc.
  exists sc. by rewrite Hc.
Qed.

Lemma connection_syn E c tc g out tc' g' :
  connection E c tc g = Ok (out, tc', g') →
  ∃ e rest, out = e :: rest ∧ ptime (pkt e) = timestamp_next_pkt c ∧
            flags (tcp (pkt e)) = S_.
Proof.
  intros H. unfold connection in H. conn_cases H. destruct (hosts_smb c).
  - destruct (hosting_packets _ _ _ _ _ _) as [[[l ?] ?]|]; [|discriminate H].
    cbn [mbind result_bind] in H. injection H as <- <- <-. eauto.
  - injection H as <- <- <-. eauto.
Qed.

(** [sorted] as a test. *)
Fixpoint is_sorted (l : list Q) : bool :=
  match l with
  | [] => true
  | x :: l' => match l' with
               | [] => true
               | y :: _ => Qle_bool x y && is_sorted l'
               end
  end.

Lemma Sorted_is_sorted l : Sorted Qle l → is_sorted l = true.
Proof.
  induction 1 as [|x l Hs IH Hhd]; [done|].
  destruct l as [|y l]; [done|].
  change (is_sorted (x :: y :: l)) with (Qle_bool x y && is_sorted (y :: l)).
  inversion Hhd; subst. rewrite IH, andb_true_r. by apply Qle_bool_iff.
Qed.

(** The reading of the timestamp rule in which the packets of a run are
    emitted in the order of their timestamps. *)
Definition emission_ordered (A0 : Attack) : Prop :=
  Sorted Qle (map ptime (packets A0)).

(** *** The claims about the packets of a run *)

(** C1. In every connection of a run the two sequence counters change
    from packet to packet only by the length of the segment sent: the
    sender's counter grows by 1 for a SYN or a FIN plus the bytes of the
    layers above TCP (the NetBIOS wrapper, the SMB header and the
    payload), the other counter stays; so both never decrease. *)
Theorem sequence_counters E fuel A0 g A' g' cs :
  generate_attack_packets E fuel A0 g = Ok (A', g', cs) →
  Forall (fun x =>
            seq_chain E x.1 (attacker_seq0 x.1) (victim_seq0 x.1) x.2 ∧
            Sorted Z.le (attacker_seq0 x.1 :: map attacker_seq x.2) ∧
            Sorted Z.le (victim_seq0 x.1 :: map victim_seq x.2)) cs.
Proof.
  intros H. destruct (run_built _ _ _ _ _ _ _ H) as (sc & Hb).
  eapply Forall_impl; [exact Hb|]. intros [c out] (s1 & ip0 & Hx).
  destruct Hx as ((g0 & tc1 & g1 & Hconn) & Hne & _). cbn [fst snd] in *.
  pose proof (connection_seq_chain _ _ _ _ _ _ _ Hconn Hne) as Hchain.
  split; [exact Hchain|]. by apply (seq_chain_monotone E c).
Qed.

Lemma sequence_counters_witness :
  ∃ A' g' cs,
    generate_attack_packets (sample_env 20 sample_pool) 0 (sample_attack 2 "1")
      sample_rng = Ok (A', g', cs) ∧
    length cs = 2%nat ∧
    Forall (fun x => Sorted Z.le (attacker_seq0 x.1 :: map attacker_seq x.2)) cs.
Proof.
  destruct (generate_attack_packets (sample_env 20 sample_pool) 0 (sample_attack 2 "1")
              sample_rng) as [[[A' g'] cs]|] eqn:H.
  - exists A', g', cs. split; [reflexivity|].
    pose proof (sequence_counters _ _ _ _ _ _ _ H) as Hs.
    split.
    + vm_compute in H. injection H as _ _ <-. reflexivity.
    + eapply Forall_impl; [exact Hs|]. intros x (_ & Ha & _). exact Ha.
  - vm_compute in H. discriminate H.
Defined.


(** C2 (as amended). When no reply latency is negative, the default
    delay of the controller is not negative and the controller is at the
    injection timestamp or later when the run starts, the timestamps of
    the packets of each connection do not decrease in emission order,
    and neither do the timestamps of the SYN packets from one connection
    to the next. *)
Theorem timestamps_per_connection E fuel A0 g A' g' cs :
  generate_attack_packets E fuel A0 g = Ok (A', g', cs) →
  (∀ a b, (0 <= (get_reply_latency E a b).1)%Q) →
  (0 <= model_default (timestamp_controller A0))%Q →
  (INJECT_AT_TIMESTAMP (params A0) <= current_timestamp (timestamp_controller A0))%Q →
  Forall (fun x => Sorted Qle (times x.2) ∧
                   ∃ e rest, x.2 = e :: rest ∧ ptime (pkt e) = syn_time x) cs ∧
  Sorted Qle (map syn_time cs).
Proof.
  intros H Hlat Hd Hcur.
  destruct (run_built _ _ _ _ _ _ _ H) as (sc0 & Hb).
  apply generate_attack_packets_loop in H
    as (sc & sport & g0 & ip_dests & s' & Hl & -> & _).
  apply target_rounds_times in Hl as (new & Hc & Hnew & Hs); try done.
  cbn in Hc. rewrite Hc in *. split; [|done].
  apply Forall_forall. intros x Hx.
  rewrite Forall_forall in Hnew, Hb.
  destruct (Hnew x Hx) as [Hsorted _].
  destruct (Hb x Hx) as (s1 & ip0 & (g1 & tc1 & g2 & Hconn) & _).
  split; [done|]. by apply connection_syn in Hconn as (e & rest & ? & ? & _); eauto.
Qed.

Lemma timestamps_per_connection_witness :
  ∃ A' g' cs,
    generate_attack_packets (sample_env 20 sample_pool) 0 (sample_attack 2 "1")
      sample_rng = Ok (A', g', cs) ∧
    Forall (fun x => Sorted Qle (times x.2)) cs ∧ Sorted Qle (map syn_time cs).
Proof.
  destruct (generate_attack_packets (sample_env 20 sample_pool) 0 (sample_attack 2 "1")
              sample_rng) as [[[A' g'] cs]|] eqn:H.
  - exists A', g', cs. split; [reflexivity|].
    destruct (timestamps_per_connection _ _ _ _ _ _ _ H) as [Hs Hsyn].
    + intros a b. vm_compute. discriminate.
    + vm_compute. discriminate.
    + vm_compute. discriminate.
    + split; [|exact Hsyn].
      eapply Forall_impl; [exact Hs|]. intros x [Hx _]. exact Hx.
  - vm_compute in H. discriminate H.
Defined.

(** C2 as stated fails: with two targets of which the first hosts SMB,
    its last acknowledgement is emitted with timestamp 109 and the SYN
    to the second target after it with timestamp 100.5. *)
Lemma next_connection_starts_earlier :
  ∃ A' g' cs,
    generate_attack_packets (sample_env 20 sample_pool) 0 (sample_attack 2 "1")
      sample_rng = Ok (A', g', cs) ∧
    ¬ emission_ordered A'.
Proof.
  destruct (generate_attack_packets (sample_env 20 sample_pool) 0 (sample_attack 2 "1")
              sample_rng) as [[[A' g'] cs]|] eqn:H.
  - exists A', g', cs. split; [reflexivity|].
    intros Hs. apply Sorted_is_sorted in Hs.
    vm_compute in H. injection H as <- _ _. vm_compute in Hs. discriminate Hs.
  - vm_compute in H. discriminate H.
Qed.

(** C4. In a connection to a target that hosts SMB, the request carries
    one tail for each offered dialect, which for protocol version "1"
    are the first six of [smb_dialects]; for protocol version "1" the
    response is the NetBIOS wrapper around the SMB1 negotiate response
    header; when neither the protocol version nor the hosting version is
    "1" (as for protocol version "2"), the response is the wrapper
    around the SMB2 sync header and the negotiate protocol response
    body, and the victim counter advances by the length of that body on
    top of the wrapper and the header. *)
Theorem negotiation_layout E fuel A0 g A' g' cs :
  generate_attack_packets E fuel A0 g = Ok (A', g', cs) →
  Forall (fun x =>
    hosts_smb x.1 = true →
    ∃ req ack_req rsp,
      x.2 !! 3%nat = Some req ∧ x.2 !! 4%nat = Some ack_req ∧ x.2 !! 5%nat = Some rsp ∧
      (PROTOCOL_VERSION (params A0) = "1" →
         ((6 ≤ length (smb_dialects E))%nat →
          ∃ nbt head, payload (pkt req) = nbt :: head ::
            map (fun dia => SMBNegociate_Protocol_Request_Tail (Some dia))
              (take 6 (smb_dialects E))) ∧
         legacy_response E (pkt rsp) ∧
         victim_seq rsp = victim_seq ack_req + sum_len E (payload (pkt rsp))) ∧
      (PROTOCOL_VERSION (params A0) ≠ "1" → HOSTING_VERSION (params A0) ≠ "1" →
         ∃ body, smb2_shape E (pkt rsp) body ∧
                 victim_seq rsp =
                   victim_seq ack_req
                   + (Z.of_nat (len E (NBTSession 0
                                  (Z.of_nat (len E (SMB2_SYNC_Header 1))
                                   + Z.of_nat (len E body))))
                      + Z.of_nat (len E (SMB2_SYNC_Header 1)))
                   + Z.of_nat (len E body))) cs.
Proof.
  intros H. destruct (run_built _ _ _ _ _ _ _ H) as (sc & Hb).
  eapply Forall_impl; [exact Hb|]. intros [c out] (s1 & ip0 & Hx) Hh.
  destruct Hx as ((g0 & tc1 & g1 & Hconn) & _ & Hv & Hhv & _). cbn [fst snd] in *.
  destruct (connection_negotiation _ _ _ _ _ _ _ Hconn Hh)
    as (req & ack_req & rsp & H3 & H4 & H5 & (nbt & head & Hreq) & H1 & H2).
  exists req, ack_req, rsp. split_and!; try done.
  - intros Hp. rewrite Hv, Hp in *. split; [|by apply H1].
    intros H6. exists nbt, head. rewrite Hreq.
    by rewrite (proj1 (smb1_request_tails E H6)).
  - intros Hp Hhp. apply H2; congruence.
Qed.

Lemma negotiation_layout_witness :
  ∃ A' g' c out rest req,
    generate_attack_packets (sample_env 20 sample_pool) 0 (sample_attack 2 "2.1")
      sample_rng = Ok (A', g', (c, out) :: rest) ∧
    hosts_smb c = true ∧ out !! 3%nat = Some req.
Proof.
  destruct (generate_attack_packets (sample_env 20 sample_pool) 0
              (sample_attack 2 "2.1") sample_rng) as [[[A' g'] cs]|] eqn:H.
  - pose proof (negotiation_layout _ _ _ _ _ _ _ H) as Hn.
    destruct cs as [|[c out] rest].
    + exfalso. vm_compute in H. discriminate H.
    + assert (Hh : hosts_smb c = true).
      { vm_compute in H. by injection H as _ _ <- _ _. }
      inversion Hn as [|? ? Hx _]; subst.
      destruct (Hx Hh) as (req & _ & _ & Hreq & _).
      exists A', g', c, out, rest, req. split_and!; done.
  - exfalso. vm_compute in H. discriminate H.
Defined.


(** *** Target selection *)

Lemma target_packets_ok E A0 sc s ip :
  well_behaved E → (∀ m, s_mac_dest sc ≠ MacStr m) →
  (0 <= model_default (l_tc s))%Q →
  ∃ s', target_packets E A0 sc s ip = Ok s'.
Proof.
  intros Hwb Hmac Hd.
  destruct (target_packets E A0 sc s ip) as [s'|e] eqn:H; [eauto|exfalso].
  unfold target_packets in H. split_cases H.
  all: try match goal with
       | Hm : ∀ m0, MacStr ?m ≠ MacStr m0 |- _ => by destruct (Hm m)
       end.
  all: try match goal with
       | Hr : randint 1000 50000 _ = Raise _ |- _ =>
           unfold randint, randrange in Hr; cbn in Hr; discriminate Hr
       end.
  all: match goal with
       | Hc : connection ?E' ?c ?tc ?g = Raise _ |- _ =>
           destruct (connection_ok E' c tc g) as (? & ? & ? & Hok);
             [done | | done | congruence]
       end.
  all: cbn [min_delay].
  all: match goal with
       | Hl : get_reply_latency ?E' ?a ?b = _ |- _ =>
           pose proof (wb_latency E' Hwb a b) as Hlat; by rewrite Hl in Hlat
       end.
Qed.

(** The flags of the packets of a target: the full sequence for a target
    that hosts SMB, the SYN and one reset for any other. *)
Definition target_served (hosting_ip : list string) (ip : string)
    (x : conn * list emitted) : Prop :=
  ip_target x.1 = Single ip ∧
  hosts_smb x.1 = bool_decide (ip ∈ hosting_ip) ∧
  flag_list x.2 = if bool_decide (ip ∈ hosting_ip)
                  then [S_; SA; A; PA; A; PA; A; FA; FA; A] else [S_; RA].

Lemma target_rounds_ok E A0 sc l :
  well_behaved E → (∀ m, s_mac_dest sc ≠ MacStr m) → s_ip_source sc ∉ l →
  ∀ s, (0 <= model_default (l_tc s))%Q →
  ∃ s' new, target_rounds E A0 sc s l = Ok s' ∧ conns s' = conns s ++ new ∧
            Forall2 (target_served (s_hosting_ip sc)) l new.
Proof.
  intros Hwb Hmac. induction l as [|ip l IH]; intros Hsrc s Hd.
  - exists s, []. rewrite app_nil_r. split_and!; [done | done | constructor].
  - apply not_elem_of_cons in Hsrc as [Hne Hsrc]. cbn [target_rounds].
    destruct (target_round E A0 sc s ip) as [s1|e] eqn:Hr.
    + cbn [mbind result_bind].
      destruct (target_round_spec _ _ _ _ _ _ Hr) as (new1 & Hc1 & Hnew1 & _ & Hmd & _).
      destruct (IH Hsrc s1) as (s' & new2 & Hl & Hc2 & Hf); [by rewrite Hmd|].
      assert (Hx : ∃ x, new1 = [x] ∧ built E A0 sc s ip x).
      { destruct Hnew1 as [->|Hx]; [|done]. exfalso.
        unfold target_round in Hr.
        destruct (decide (ip = s_ip_source sc)) as [->|_]; [done|].
        destruct (target_packets E A0 sc s ip) as [s2|] eqn:Hp; [|discriminate Hr].
        apply target_packets_spec in Hp as (x & Hx & _ & _); [|done].
        cbn [mbind result_bind] in Hr.
        destruct (next_timestamp _ _ _ _) as [[? ?] ?]. injection Hr as <-.
        cbn in Hc1. rewrite Hx, app_nil_r in Hc1.
        apply (f_equal length) in Hc1. rewrite length_app in Hc1. simpl in Hc1. lia. }
      destruct Hx as (x & -> & Hb).
      exists s', ([x] ++ new2). rewrite Hc2, Hc1, app_assoc. split_and!; try done.
      constructor; [|done].
      destruct Hb as ((g0 & tc1 & g1 & Hconn) & _ & _ & _ & _ & _ & [[Hip Hh]|[m Hm]]);
        [|by destruct (Hmac m)].
      unfold target_served. rewrite <- Hh. split_and!; try done.
      by apply connection_flags in Hconn.
    + exfalso. unfold target_round in Hr.
      destruct (decide (ip = s_ip_source sc)) as [->|_]; [done|].
      destruct (target_packets_ok E A0 sc s ip) as (s2 & Hp); try done.
      rewrite Hp in Hr. cbn [mbind result_bind] in Hr.
      destruct (next_timestamp _ _ _ _) as [[? ?] ?]. discriminate Hr.
Qed.

Lemma remove_first_absent x l : x ∉ l → remove_first x l = l.
Proof.
  induction l as [|y l IH]; [done|]. intros [Hne Hl]%not_elem_of_cons.
  simpl. destruct (decide (x = y)); [done|]. by rewrite IH.
Qed.

Lemma filter_all (h l : list string) :
  (∀ x, x ∈ l → x ∈ h) → filter (fun x => x ∈ h) l = l.
Proof.
  induction l as [|y l IH]; [done|]. intros H.
  rewrite filter_cons_True by (apply H; left).
  f_equal. apply IH. intros x Hx. apply H. by right.
Qed.

Lemma filter_none (h l : list string) :
  (∀ x, x ∈ l → x ∉ h) → filter (fun x => x ∈ h) l = [].
Proof.
  induction l as [|y l IH]; [done|]. intros H.
  rewrite filter_cons_False by (apply H; left).
  apply IH. intros x Hx. apply H. by right.
Qed.

(** Of a list without duplicates, as many members are among its first
    [n] as the list of the first [n] is long, in whatever order. *)
Lemma count_first n (l l' : list string) :
  NoDup l → l' ≡ₚ l →
  length (filter (fun x => x ∈ take n l) l') = length (take n l).
Proof.
  intros Hnd Hp. rewrite Hp.
  rewrite <- (take_drop n l) in Hnd. apply NoDup_app in Hnd as (_ & Hdis & _).
  remember (take n l) as h eqn:Hh.
  rewrite <- (take_drop n l), <- Hh, filter_app.
  rewrite filter_all by done.
  rewrite filter_none; [by rewrite app_nil_r|].
  intros x Hx Hin. by apply (Hdis x).
Qed.

Lemma served_count h l new :
  Forall2 (target_served h) l new →
  length (filter (fun x => hosts_smb x.1 = true) new) =
  length (filter (fun ip => ip ∈ h) l).
Proof.
  induction 1 as [|ip x l new (_ & Hh & _) _ IH]; [done|].
  destruct (decide (ip ∈ h)) as [Hin|Hnin].
  - rewrite (filter_cons_True (fun ip => ip ∈ h)) by done.
    rewrite filter_cons_True by (rewrite Hh; by apply bool_decide_eq_true).
    simpl. by rewrite IH.
  - rewrite (filter_cons_False (fun ip => ip ∈ h)) by done.
    rewrite filter_cons_False; [done|].
    rewrite Hh. rewrite bool_decide_eq_false_2 by done. done.
Qed.


(** Scenario A: ten targets are asked for, half of them hosting SMB; no
    target and no hosting address is given by the user, no destination
    MAC is given as one address, the source address is kept; the capture
    holds more than ten addresses, and the ten that the statistics pick
    at random are distinct and none is the source address. *)
Record scenario_A (E : Env) (A0 : Attack) (g : Rng) (l : list string) : Prop :=
  mkScenarioA {
  sa_env : well_behaved E;
  sa_count : TARGET_COUNT (params A0) = 10;
  sa_percentage : HOSTING_PERCENTAGE (params A0) = (1 # 2)%Q;
  sa_dst : IP_DESTINATION (params A0) = Single "1.1.1.1";
  sa_hosting : HOSTING_IP (params A0) = Single "1.1.1.1";
  sa_mac : ∀ m, MAC_DESTINATION (params A0) ≠ MacStr m;
  sa_src : IP_SOURCE_RANDOMIZE (params A0) = false;
  sa_version : PROTOCOL_VERSION (params A0) ∈ smb_versions E;
  sa_hversion : HOSTING_VERSION (params A0) ∈ smb_versions E;
  sa_population : 11 ≤ get_ip_address_count E;
  sa_sample : as_list (get_random_ip_address E 10 g).1 = l;
  sa_distinct : NoDup l;
  sa_ten : length l = 10%nat;
  sa_not_source : IP_SOURCE (params A0) ∉ l;
  sa_default : (0 <= model_default (timestamp_controller A0))%Q
}.

Lemma select_targets_A E A0 g l :
  scenario_A E A0 g l →
  select_targets E (params A0) g = (l, take 5 l, (get_random_ip_address E 10 g).2).
Proof.
  intros H. unfold select_targets.
  rewrite (sa_count _ _ _ _ H), (sa_dst _ _ _ _ H), (sa_hosting _ _ _ _ H),
    (sa_percentage _ _ _ _ H).
  pose proof (sa_population _ _ _ _ H) as Hpop.
  destruct (Z.ltb_spec (get_ip_address_count E) (10 + 1)) as [|_]; [lia|].
  cbn [user_defined]. destruct (decide ("1.1.1.1" = "1.1.1.1")); [|done].
  pose proof (sa_sample _ _ _ _ H) as Hs.
  destruct (get_random_ip_address E 10 g) as [r g1]. cbn [fst snd] in *.
  cbn [app]. rewrite Hs.
  rewrite (remove_first_absent _ _ (sa_not_source _ _ _ _ H)).
  rewrite (sa_ten _ _ _ _ H). reflexivity.
Qed.

Definition full_sequence : list tcp_flags := [S_; SA; A; PA; A; PA; A; FA; FA; A].

Lemma served_targets h l new :
  Forall2 (target_served h) l new →
  map (fun x => ip_target x.1) new = map Single l ∧
  Forall (fun x => flag_list x.2 = if hosts_smb x.1 then full_sequence else [S_; RA])
    new.
Proof.
  induction 1 as [|ip x l new (Hip & Hh & Hf) _ [IH1 IH2]]; [done|].
  split.
  - cbn [map]. by rewrite Hip, IH1.
  - constructor; [|done]. by rewrite Hh, Hf.
Qed.

(** C3 (as amended). In scenario A the run gives packets to each of the
    ten picked addresses; five of them are hosting peers and get the
    full sequence of ten packets (handshake, negotiation, teardown); the
    five others get the SYN and exactly one reset. *)
Theorem scenario_A_targets E fuel A0 g l :
  scenario_A E A0 g l →
  ∃ A' g' cs,
    generate_attack_packets E fuel A0 g = Ok (A', g', cs) ∧
    map (fun x => ip_target x.1) cs ≡ₚ map Single l ∧
    length (filter (fun x => hosts_smb x.1 = true) cs) = 5%nat ∧
    length cs = 10%nat ∧
    Forall (fun x => flag_list x.2 = if hosts_smb x.1 then full_sequence else [S_; RA])
      cs.
Proof.
  intros H. unfold generate_attack_packets.
  rewrite (select_targets_A _ _ _ _ H).
  pose proof (sa_env _ _ _ _ H) as Hwb.
  pose proof (wb_shuffle E Hwb l (get_random_ip_address E 10 g).2) as Hp1.
  destruct (shuffle E l _) as [l1 g1]. cbn [fst] in Hp1.
  unfold check_smb_version.
  rewrite !bool_decide_eq_true_2
    by (apply (sa_version _ _ _ _ H) || apply (sa_hversion _ _ _ _ H)).
  cbn [mbind result_bind].
  destruct (if PORT_SOURCE_RANDOMIZE (params A0) then _ else _) as [sport g2].
  pose proof (sa_mac _ _ _ _ H) as Hm. rewrite (sa_src _ _ _ _ H).
  destruct (MAC_DESTINATION (params A0)) as [|m|ms]; [|by destruct (Hm m)|].
  all: cbn [mbind result_bind as_list].
  all: pose proof (wb_shuffle E Hwb l1 g2) as Hp2.
  all: destruct (shuffle E l1 g2) as [l2 g3]; cbn [fst] in Hp2.
  all: destruct (get_ip_data E _ g3) as [sd g4].
  all: match goal with
       | |- context [target_rounds _ _ ?sc ?s0 _] =>
           destruct (target_rounds_ok E A0 sc l2 Hwb) with (s := s0)
             as (s' & new & Hl & Hc & Hf)
       end; [done | cbn; rewrite Hp2, Hp1; apply (sa_not_source _ _ _ _ H)
            | apply (sa_default _ _ _ _ H) | ].
  all: rewrite Hl; cbn [mbind result_bind]; cbn in Hc, Hf; rewrite Hc.
  all: eexists _, _, _; split; [reflexivity|].
  all: destruct (served_targets _ _ _ Hf) as [Hips Hflags].
  all: split_and!; [by rewrite Hips, Hp2, Hp1 | | | done].
  all: try (rewrite (served_count _ _ _ Hf), (count_first 5 l l2), length_take,
              (sa_ten _ _ _ _ H);
            [done | apply (sa_distinct _ _ _ _ H) | by rewrite Hp2, Hp1]).
  all: rewrite <- (Forall2_length _ _ _ Hf), Hp2, Hp1; apply (sa_ten _ _ _ _ H).
Qed.


Lemma sample_env_well_behaved count pool : well_behaved (sample_env count pool).
Proof.
  constructor; cbn.
  - intros x y. apply Qfloor_resp_le.
  - intros _ _. discriminate.
  - intros _. eauto.
  - intros l _. symmetry. apply Permutation_rev.
Qed.

Lemma scenario_A_targets_witness :
  ∃ A' g' cs,
    generate_attack_packets (sample_env 20 sample_pool) 0 (sample_attack 10 "1")
      sample_rng = Ok (A', g', cs) ∧
    length (filter (fun x => hosts_smb x.1 = true) cs) = 5%nat ∧
    length cs = 10%nat.
Proof.
  destruct (scenario_A_targets (sample_env 20 sample_pool) 0 (sample_attack 10 "1")
              sample_rng (take 10 sample_pool))
    as (A' & g' & cs & Hrun & _ & Hhost & Hlen & _).
  - constructor; try reflexivity.
    + apply sample_env_well_behaved.
    + intros m. discriminate.
    + vm_compute. set_solver.
    + vm_compute. set_solver.
    + vm_compute. discriminate.
    + apply (bool_decide_unpack _). vm_compute. exact I.
    + apply (bool_decide_unpack _). vm_compute. exact I.
    + vm_compute. discriminate.
  - exists A', g', cs. split_and!; assumption.
Defined.

(** The reading of scenario A in which target.count = 10 and
    hosting.percentage = 0.5 are all it takes: five connections with at
    least nine packets and five with exactly one reset. *)
Definition five_and_five (cs : list (conn * list emitted)) : Prop :=
  length (filter (fun x => (9 ≤ length x.2)%nat) cs) = 5%nat ∧
  length (filter (fun x => length (filter (fun f => f = RA) (flag_list x.2)) = 1%nat) cs)
    = 5%nat.

(** C3 as stated fails. On a capture with only four addresses the ten
    targets are capped to four, of which two host SMB. On a capture with
    twenty addresses of which the random pick contains the source
    address, nine targets are left, of which four host SMB. *)
Lemma fewer_than_five_hosting_peers :
  (∃ A' g' cs,
     generate_attack_packets (sample_env 4 sample_pool) 0 (sample_attack 10 "1")
       sample_rng = Ok (A', g', cs) ∧ ¬ five_and_five cs) ∧
  (∃ A' g' cs,
     generate_attack_packets (sample_env 20 ("192.168.0.1" :: sample_pool)) 0
       (sample_attack 10 "1") sample_rng = Ok (A', g', cs) ∧ ¬ five_and_five cs).
Proof.
  split.
  - destruct (generate_attack_packets (sample_env 4 sample_pool) 0
                (sample_attack 10 "1") sample_rng) as [[[A' g'] cs]|] eqn:H.
    + exists A', g', cs. split; [reflexivity|].
      vm_compute in H. injection H as _ _ <-. intros [H9 _].
      vm_compute in H9. discriminate H9.
    + vm_compute in H. discriminate H.
  - destruct (generate_attack_packets (sample_env 20 ("192.168.0.1" :: sample_pool)) 0
                (sample_attack 10 "1") sample_rng) as [[[A' g'] cs]|] eqn:H.
    + exists A', g', cs. split; [reflexivity|].
      vm_compute in H. injection H as _ _ <-. intros [H9 _].
      vm_compute in H9. discriminate H9.
    + vm_compute in H. discriminate H.
Qed.


(** *** The pcap of the attack *)

Lemma insert_by_time_Permutation p l : insert_by_time p l ≡ₚ p :: l.
Proof.
  induction l as [|q l IH]; [done|]. simpl.
  destruct (Qle_bool (ptime p) (ptime q)); [done|].
  rewrite IH. apply Permutation_swap.
Qed.

Lemma insert_by_time_HdRel q p l :
  (ptime q <= ptime p)%Q → HdRel Qle (ptime q) (map ptime l) →
  HdRel Qle (ptime q) (map ptime (insert_by_time p l)).
Proof.
  intros Hqp Hl. destruct l as [|r l]; simpl; [by constructor|].
  destruct (Qle_bool (ptime p) (ptime r)); simpl; constructor; [done|].
  by inversion Hl.
Qed.

Lemma insert_by_time_Sorted p l :
  Sorted Qle (map ptime l) → Sorted Qle (map ptime (insert_by_time p l)).
Proof.
  induction l as [|q l IH]; intros Hs; simpl.
  - repeat constructor.
  - destruct (Qle_bool (ptime p) (ptime q)) eqn:Hle; simpl.
    + constructor; [done|]. constructor. by apply Qle_bool_iff.
    + inversion Hs as [|? ? Hs' Hhd]; subst. constructor; [by apply IH|].
      apply insert_by_time_HdRel; [|done].
      destruct (Qlt_le_dec (ptime q) (ptime p)) as [Hlt|Hge]; [by apply Qlt_le_weak|].
      apply Qle_bool_iff in Hge. congruence.
Qed.

Lemma sorted_by_time_Permutation l : sorted_by_time l ≡ₚ l.
Proof.
  induction l as [|p l IH]; [done|]. simpl.
  by rewrite insert_by_time_Permutation, IH.
Qed.

Lemma sorted_by_time_Sorted l : Sorted Qle (map ptime (sorted_by_time l)).
Proof.
  induction l as [|p l IH]; simpl; [constructor|]. by apply insert_by_time_Sorted.
Qed.

(** C10. For an attack with packets, [generate_attack_pcap] hands the
    packets to the pcap writer sorted by ascending timestamp (the same
    packets, whatever the order of emission), stores the timestamp of
    the packet emitted last as the end time of the attack, and returns
    the number of packets with the path the writer returns. *)
Theorem attack_pcap_sorted E A0 :
  packets A0 ≠ [] →
  ∃ p A1,
    last (packets A0) = Some p ∧
    generate_attack_pcap E A0 =
      Ok (Z.of_nat (length (packets A0)),
          write_attack_pcap E (sorted_by_time (packets A0)), A1) ∧
    sorted_by_time (packets A0) ≡ₚ packets A0 ∧
    Sorted Qle (map ptime (sorted_by_time (packets A0))) ∧
    attack_end_utime A1 = ptime p ∧
    packets A1 = packets A0 ∧ attack_start_utime A1 = attack_start_utime A0.
Proof.
  intros Hne. unfold generate_attack_pcap.
  destruct (last (packets A0)) as [p|] eqn:Hl.
  - exists p. eexists. split; [reflexivity|]. split; [reflexivity|]. cbn.
    split_and!; try done.
    + apply sorted_by_time_Permutation.
    + apply sorted_by_time_Sorted.
  - apply last_None in Hl. done.
Qed.

(** Two packets emitted against the order of their timestamps. *)
Definition late_then_early : list Packet :=
  [mkPacket (mkEther "a" "b") (mkIP (Single "192.168.0.1") (Single "10.0.0.1") 64 true)
     (mkTCP 49152 445 A 1639 (Some 1583) (Some 8192) None) [] 109;
   mkPacket (mkEther "a" "c") (mkIP (Single "192.168.0.1") (Single "10.0.0.2") 64 true)
     (mkTCP 49152 445 S_ 1500 None (Some 8192) (Some 1460)) [] (201 # 2)].

Lemma attack_pcap_sorted_witness :
  ∃ A1, generate_attack_pcap (sample_env 20 sample_pool)
          (mkAttack (sample_params 2 "1") late_then_early 100 0 (mkTC 100 1) "win7")
        = Ok (2, "attack.pcap", A1) ∧
        attack_end_utime A1 = (201 # 2)%Q ∧
        map ptime (sorted_by_time late_then_early) = [(201 # 2)%Q; 109%Q].
Proof.
  destruct (attack_pcap_sorted (sample_env 20 sample_pool)
              (mkAttack (sample_params 2 "1") late_then_early 100 0 (mkTC 100 1) "win7"))
    as (p & A1 & Hl & Hrun & _ & _ & Hend & _).
  - discriminate.
  - injection Hl as <-. exists A1. split_and!; [exact Hrun | exact Hend | reflexivity].
Defined.


(** *** More about the packets of a run *)

(** What holds of every connection holds of the connections of a run. *)
Lemma run_connections E fuel A0 g A' g' cs (P : conn → list emitted → Prop) :
  (∀ c tc g0 out tc' g1,
     connection E c tc g0 = Ok (out, tc', g1) →
     ip_target c ≠ Single (ip_source c) → P c out) →
  generate_attack_packets E fuel A0 g = Ok (A', g', cs) →
  Forall (fun x => P x.1 x.2) cs.
Proof.
  intros HP H. apply run_built in H as (sc & Hb).
  eapply Forall_impl; [exact Hb|].
  intros x (s1 & ip & (g0 & tc1 & g1 & Hc) & Hne & _). by eapply HP.
Qed.

(** A packet of the source to the target, and one of the target to the
    source. *)
Definition from_source (E : Env) (c : conn) (p : Packet) : Prop :=
  ether p = mkEther (mac_source c) (mac_destination c) ∧
  ip_src (ip p) = Single (ip_source c) ∧ ip_dst (ip p) = ip_target c ∧
  ttl (ip p) = source_ttl_value c ∧
  sport (tcp p) = c_sport c ∧ dport (tcp p) = smb_port E.

Definition from_target (E : Env) (c : conn) (p : Packet) : Prop :=
  ether p = mkEther (mac_destination c) (mac_source c) ∧
  ip_src (ip p) = ip_target c ∧ ip_dst (ip p) = Single (ip_source c) ∧
  ttl (ip p) = destination_ttl_value c ∧
  sport (tcp p) = smb_port E ∧ dport (tcp p) = c_sport c.

(** Who sends the packets of a connection: [true] for the source. *)
Definition senders (hosts : bool) : list bool :=
  if hosts then [true; false; true; true; false; false; true; true; false; true]
  else [true; false].

Definition sent_by (E : Env) (c : conn) (d : bool) (e : emitted) : Prop :=
  if d then from_source E c (pkt e) else from_target E c (pkt e).

Lemma connection_senders E c tc g out tc' g' :
  connection E c tc g = Ok (out, tc', g') →
  Forall2 (sent_by E c) (senders (hosts_smb c)) out.
Proof.
  intros H. unfold connection in H. conn_cases H. destruct (hosts_smb c).
  - unfold hosting_packets in H. cbn [attacker_seq victim_seq] in H.
    conn_cases H. injection H as <- <- <-.
    unfold senders. repeat constructor.
  - injection H as <- <- <-. unfold senders. repeat constructor.
Qed.

(** X13. Every packet of a connection goes from the source to the target of
    the connection, from the source port to the SMB port and with the
    TTL of the source, or back with addresses and ports swapped and the
    TTL of the target; the source sends the SYN, the second ACK, the
    request, the ACK of the response, its FIN and the last ACK. No
    packet has the same source and destination address. *)
Theorem packets_between_source_and_target E fuel A0 g A' g' cs :
  generate_attack_packets E fuel A0 g = Ok (A', g', cs) →
  Forall (fun x =>
    Forall2 (sent_by E x.1) (senders (hosts_smb x.1)) x.2 ∧
    Forall (fun e => ip_src (ip (pkt e)) ≠ ip_dst (ip (pkt e))) x.2) cs.
Proof.
  apply (run_connections E fuel A0 g A' g' cs
           (fun c out => Forall2 (sent_by E c) (senders (hosts_smb c)) out ∧
                         Forall (fun e => ip_src (ip (pkt e)) ≠ ip_dst (ip (pkt e))) out)).
  intros c tc g0 out tc' g1 Hc Hne.
  pose proof (connection_senders _ _ _ _ _ _ _ Hc) as Hs. split; [done|]. clear Hc.
  induction Hs as [|d e ds es Hd _ IH]; [constructor|]. constructor; [|done].
  destruct d; cbn in Hd; destruct Hd as (_ & -> & -> & _); congruence.
Qed.

Lemma packets_between_source_and_target_witness :
  ∃ A' g' cs,
    generate_attack_packets (sample_env 20 sample_pool) 0 (sample_attack 2 "1")
      sample_rng = Ok (A', g', cs) ∧
    Forall (fun x => Forall (fun e => ip_src (ip (pkt e)) ≠ ip_dst (ip (pkt e))) x.2) cs.
Proof.
  destruct (generate_attack_packets (sample_env 20 sample_pool) 0 (sample_attack 2 "1")
              sample_rng) as [[[A' g'] cs]|] eqn:H; [|vm_compute in H; discriminate H].
  exists A', g', cs. split; [reflexivity|].
  eapply Forall_impl; [exact (packets_between_source_and_target _ _ _ _ _ _ _ H)|].
  by intros x [_ ?].
Defined.

(** Empty, or a NetBIOS session message of type 0 whose length is the
    number of bytes of the layers after it; the byte count of an SMB1
    request header is the number of bytes of the dialects after it. *)
Definition framed (E : Env) (p : Packet) : Prop :=
  match payload p with
  | [] => True
  | NBTSession t n :: rest =>
      t = 0 ∧ n = sum_len E rest ∧
      match rest with
      | SMBNegociate_Protocol_Request_Header _ _ _ bc :: tails => bc = sum_len E tails
      | _ => True
      end
  | _ => False
  end.

Lemma connection_framed E c tc g out tc' g' :
  connection E c tc g = Ok (out, tc', g') → Forall (fun e => framed E (pkt e)) out.
Proof.
  intros H. unfold connection in H. conn_cases H. destruct (hosts_smb c).
  - unfold hosting_packets in H. cbn [attacker_seq victim_seq] in H.
    conn_cases H. injection H as <- <- <-.
    repeat constructor; unfold framed; cbn [pkt payload]; try done.
    all: destruct (smb2_response c); rewrite ?sum_len_cons, ?sum_len_nil;
      split_and?; try done; lia.
  - injection H as <- <- <-. repeat constructor.
Qed.

(** X14. The payload of every packet of a run is empty or framed: the length
    field of the NetBIOS session message counts the bytes of the SMB
    layers that follow it, and the byte count of the negotiate request
    counts the bytes of the dialects. *)
Theorem payloads_framed E fuel A0 g A' g' cs :
  generate_attack_packets E fuel A0 g = Ok (A', g', cs) →
  Forall (framed E) (emitted_packets cs).
Proof.
  intros H.
  pose proof (run_connections E fuel A0 g A' g' cs
                (fun c out => Forall (fun e => framed E (pkt e)) out)
                (fun c tc g0 out tc' g1 Hc _ => connection_framed _ _ _ _ _ _ _ Hc) H)
    as Hf.
  unfold emitted_packets. apply Forall_concat, Forall_map.
  eapply Forall_impl; [exact Hf|]. intros x Hx. by apply Forall_map.
Qed.

Lemma payloads_framed_witness :
  ∃ A' g' cs,
    generate_attack_packets (sample_env 20 sample_pool) 0 (sample_attack 2 "2.1")
      sample_rng = Ok (A', g', cs) ∧
    length (filter (fun p => payload p ≠ []) (emitted_packets cs)) = 2%nat ∧
    Forall (framed (sample_env 20 sample_pool)) (emitted_packets cs).
Proof.
  destruct (generate_attack_packets (sample_env 20 sample_pool) 0 (sample_attack 2 "2.1")
              sample_rng) as [[[A' g'] cs]|] eqn:H; [|vm_compute in H; discriminate H].
  exists A', g', cs. split; [reflexivity|]. split.
  - vm_compute in H. by injection H as _ _ <-.
  - exact (payloads_framed _ _ _ _ _ _ _ H).
Defined.


(** The connections to targets that host SMB. *)
Definition hosting_conns (cs : list (conn * list emitted)) : nat :=
  length (filter (fun x => hosts_smb x.1 = true) cs).

Lemma emitted_count cs :
  Forall (fun x => length x.2 = if hosts_smb x.1 then 10%nat else 2%nat) cs →
  length (emitted_packets cs) = (10 * hosting_conns cs + 2 * (length cs - hosting_conns cs))%nat.
Proof.
  unfold emitted_packets, hosting_conns. induction 1 as [|x cs Hx _ IH]; [done|].
  cbn [map concat]. rewrite length_app, length_map, Hx, IH.
  pose proof (length_filter (fun x => hosts_smb x.1 = true) cs).
  destruct (hosts_smb x.1) eqn:Hh.
  - rewrite filter_cons_True by done. cbn [length]. lia.
  - rewrite filter_cons_False by (by rewrite Hh). cbn [length]. lia.
Qed.

(** X15. A run appends ten packets for every target that hosts SMB and two
    for every other target to the packets that the attack holds, and
    keeps those. [generate_attack_pcap] after the run returns the number
    of all of them; it raises [IndexError] when there is none, which is
    when the attack held no packet and the run had no target. *)
Theorem run_packet_count E fuel A0 g A' g' cs :
  generate_attack_packets E fuel A0 g = Ok (A', g', cs) →
  let added := (10 * hosting_conns cs + 2 * (length cs - hosting_conns cs))%nat in
  packets A' = packets A0 ++ emitted_packets cs ∧
  length (emitted_packets cs) = added ∧
  (packets A0 = [] → cs = [] → generate_attack_pcap E A' = Raise IndexError) ∧
  (packets A0 ≠ [] ∨ cs ≠ [] →
   ∃ path A'', generate_attack_pcap E A' =
                 Ok (Z.of_nat (length (packets A0) + added), path, A'')).
Proof.
  intros H. cbn zeta.
  assert (Hlen : Forall (fun x => length x.2 = if hosts_smb x.1 then 10%nat else 2%nat) cs).
  { eapply Forall_impl;
      [exact (run_connections E fuel A0 g A' g' cs
                (fun c out => flag_list out =
                   if hosts_smb c then [S_; SA; A; PA; A; PA; A; FA; FA; A] else [S_; RA])
                (fun c tc g0 out tc' g1 Hc _ => connection_flags _ _ _ _ _ _ _ Hc) H)|].
    intros x Hx. apply (f_equal length) in Hx. unfold flag_list in Hx.
    rewrite length_map in Hx. rewrite Hx. by destruct (hosts_smb x.1). }
  apply emitted_count in Hlen.
  apply generate_attack_packets_loop in H as (sc & sp & g0 & l & s' & _ & _ & Hp & _).
  split_and!; [done | done | |].
  - intros H0 ->. unfold generate_attack_pcap. rewrite Hp, H0. reflexivity.
  - intros Hne. unfold generate_attack_pcap.
    destruct (last (packets A')) as [p|] eqn:Hl.
    + eexists _, _. cbn [packets]. rewrite Hp at 1. by rewrite length_app, Hlen.
    + apply last_None in Hl. rewrite Hp in Hl. apply app_eq_nil in Hl as [H0 He].
      destruct Hne as [Hne|Hne]; [done|].
      apply (f_equal length) in He. rewrite Hlen in He.
      pose proof (length_filter (fun x => hosts_smb x.1 = true) cs).
      unfold hosting_conns in He. destruct cs; [done|]. cbn [length] in *. lia.
Qed.

Lemma run_packet_count_witness :
  ∃ A' g' cs path A'',
    generate_attack_packets (sample_env 20 sample_pool) 0 (sample_attack 10 "1")
      sample_rng = Ok (A', g', cs) ∧
    generate_attack_pcap (sample_env 20 sample_pool) A' = Ok (60, path, A'').
Proof.
  destruct (generate_attack_packets (sample_env 20 sample_pool) 0 (sample_attack 10 "1")
              sample_rng) as [[[A' g'] cs]|] eqn:H; [|vm_compute in H; discriminate H].
  destruct (run_packet_count _ _ _ _ _ _ _ H) as (_ & _ & _ & Hpcap).
  destruct Hpcap as (path & A'' & Hpcap).
  { right. vm_compute in H. by injection H as _ _ <-. }
  exists A', g', cs, path, A''. split; [reflexivity|]. rewrite Hpcap.
  do 3 f_equal. vm_compute in H. by injection H as _ _ <-.
Defined.


Lemma Sorted_Qle_head a l : Sorted Qle (a :: l) → Forall (fun b => (a <= b)%Q) l.
Proof.
  intros H. apply Sorted_StronglySorted in H; [by inversion H|].
  intros x y z. apply Qle_trans.
Qed.

(** X16. Under the conditions of the timestamp rule (no negative reply
    latency, no negative default delay, the controller at the injection
    timestamp or later) no packet of a run is earlier than the injection
    timestamp, which the run stores as the start time of the attack. *)
Theorem no_packet_before_injection E fuel A0 g A' g' cs :
  generate_attack_packets E fuel A0 g = Ok (A', g', cs) →
  (∀ a b, (0 <= (get_reply_latency E a b).1)%Q) →
  (0 <= model_default (timestamp_controller A0))%Q →
  (INJECT_AT_TIMESTAMP (params A0) <= current_timestamp (timestamp_controller A0))%Q →
  attack_start_utime A' = INJECT_AT_TIMESTAMP (params A0) ∧
  Forall (fun p => (attack_start_utime A' <= ptime p)%Q) (emitted_packets cs).
Proof.
  intros H Hlat Hd Hcur.
  destruct (run_built _ _ _ _ _ _ _ H) as (sc0 & Hb).
  apply generate_attack_packets_loop in H
    as (sc & sport & g0 & ip_dests & s' & Hl & -> & _ & Hstart).
  split; [done|]. rewrite Hstart.
  apply target_rounds_times in Hl as (new & Hc & Hnew & _); try done.
  cbn in Hc. rewrite Hc in *. unfold emitted_packets.
  apply Forall_concat, Forall_map, Forall_forall. intros x Hx.
  rewrite Forall_forall in Hnew, Hb.
  destruct (Hnew x Hx) as [Hsorted Hsyn]. cbn [l_timestamp_next_pkt] in Hsyn.
  destruct (Hb x Hx) as (s1 & ip0 & (g1 & tc1 & g2 & Hconn) & _).
  apply connection_syn in Hconn as (e & rest & Hout & Htime & _).
  rewrite Hout in *. unfold times in Hsorted. cbn [map] in *.
  rewrite Htime in Hsorted. constructor.
  - rewrite Htime. exact Hsyn.
  - apply Sorted_Qle_head in Hsorted. rewrite Forall_map in Hsorted.
    apply Forall_map. eapply Forall_impl; [exact Hsorted|].
    intros e' He'. cbn in *. unfold syn_time in Hsyn. lra.
Qed.

Lemma no_packet_before_injection_witness :
  ∃ A' g' cs,
    generate_attack_packets (sample_env 20 sample_pool) 0 (sample_attack 2 "1")
      sample_rng = Ok (A', g', cs) ∧
    attack_start_utime A' = 100%Q ∧
    Forall (fun p => (attack_start_utime A' <= ptime p)%Q) (emitted_packets cs).
Proof.
  destruct (generate_attack_packets (sample_env 20 sample_pool) 0 (sample_attack 2 "1")
              sample_rng) as [[[A' g'] cs]|] eqn:H; [|vm_compute in H; discriminate H].
  destruct (no_packet_before_injection _ _ _ _ _ _ _ H) as [Hs Hf].
  - intros a b. cbn. lra.
  - cbn. lra.
  - cbn. lra.
  - exists A', g', cs. split_and!; [reflexivity | exact Hs | exact Hf].
Defined.


(** *** The source of a run and its targets *)

Lemma fresh_source_spec E fuel l : ∀ a g a' g',
  fresh_source E fuel l a g = Ok (a', g') → a' ∉ l.
Proof.
  induction fuel as [|fuel IH]; intros a g a' g'; cbn [fresh_source].
  - destruct (bool_decide (a ∈ l)) eqn:Ha; [done|].
    intros [= <- <-]. by apply bool_decide_eq_false in Ha.
  - destruct (bool_decide (a ∈ l)) eqn:Ha.
    + destruct (generate_random_ipv4_address E g) as [a1 g1]. apply IH.
    + intros [= <- <-]. by apply bool_decide_eq_false in Ha.
Qed.

(** The loop of a run, with what it is started with: the source, the
    source port, the hosting addresses and the targets that the run
    stores in the parameters. *)
Lemma generate_attack_packets_scan E fuel A0 g A' g' cs :
  generate_attack_packets E fuel A0 g = Ok (A', g', cs) →
  ∃ sc sport g0 ip_dests s' dests hosting,
    target_rounds E A0 sc
      (mkLoop sport (INJECT_AT_TIMESTAMP (params A0)) (timestamp_controller A0) g0 [])
      ip_dests = Ok s' ∧
    cs = conns s' ∧
    IP_DESTINATION (params A') = Many dests ∧ HOSTING_IP (params A') = Many hosting ∧
    s_hosting_ip sc = hosting ∧ s_mac_dest sc = MAC_DESTINATION (params A0) ∧
    (IP_SOURCE_RANDOMIZE (params A0) = false →
     s_ip_source sc = IP_SOURCE (params A0) ∧ s_mac_source sc = MAC_SOURCE (params A0)) ∧
    (IP_SOURCE_RANDOMIZE (params A0) = true → s_ip_source sc ∉ ip_dests) ∧
    (PORT_SOURCE_RANDOMIZE (params A0) = false → sport = PORT_SOURCE (params A0)) ∧
    ((∀ m, MAC_DESTINATION (params A0) ≠ MacStr m) →
     ∃ g1 g2, ip_dests = (shuffle E (shuffle E dests g1).1 g2).1).
Proof.
  unfold generate_attack_packets. split_goal_cases.
  all: intros [= <- <- <-]; eexists _, _, _, _, _, _, _; split; [eassumption|].
  all: cbn [params with_targets IP_DESTINATION HOSTING_IP s_hosting_ip s_mac_dest
            s_ip_source s_mac_source].
  all: split_and!; try done; try (intros; congruence).
  all: try (intros _; match goal with
            | Hq : context [fresh_source] |- _ =>
                split_cases Hq; revert Hq; intros [= <- <- <-]
            end;
            match goal with
            | Hf : fresh_source _ _ _ _ _ = Ok _ |- _ =>
                by apply fresh_source_spec in Hf
            end).
  all: try (intros Hm; match goal with
            | Hd : MAC_DESTINATION _ = MacStr _ |- _ => by destruct (Hm _ Hd)
            end).
  all: try (intros Hp; match goal with
            | Hq : (if PORT_SOURCE_RANDOMIZE _ then _ else _) = _ |- _ =>
                rewrite Hp in Hq; by injection Hq as <- _
            end).
  all: intros _; cbn [as_list];
    repeat match goal with
    | Hs : shuffle ?E ?l ?g = (_, _) |- _ =>
        apply (f_equal fst) in Hs; cbn [fst] in Hs
    end; eexists _, _; subst; reflexivity.
Qed.

Lemma randint_bounds a b g x g' : randint a b g = Ok (x, g') → a ≤ x ≤ b.
Proof. unfold randint. intros H. apply randrange_bounds in H. lia. Qed.

(** What the body of a round fixes in the connection it builds. *)
Definition of_scan (A0 : Attack) (sc : scan) (s s' : loop) (x : conn * list emitted)
  : Prop :=
  1000 ≤ attacker_seq0 x.1 ≤ 50000 ∧ 1000 ≤ victim_seq0 x.1 ≤ 50000 ∧
  ip_source x.1 = s_ip_source sc ∧ mac_source x.1 = s_mac_source sc ∧
  c_sport x.1 = l_sport s' ∧
  (PORT_SOURCE_RANDOMIZE (params A0) = false → l_sport s' = l_sport s).

Lemma target_packets_conn E A0 sc s ip s' :
  target_packets E A0 sc s ip = Ok s' →
  ∃ x, conns s' = conns s ++ [x] ∧ of_scan A0 sc s s' x.
Proof.
  intros H. unfold target_packets in H. split_cases H.
  all: injection H as <-; cbn [conns l_sport].
  all: eexists; split; [reflexivity|].
  all: unfold of_scan; cbn.
  all: repeat match goal with
       | Hr : randint _ _ _ = Ok _ |- _ => apply randint_bounds in Hr
       end.
  all: split_and!; try done; try lia.
  all: intros Hp; congruence.
Qed.

(** What all connections of the loop have in common. *)
Definition scanned (A0 : Attack) (sc : scan) (sport0 : Z) (s : loop) : Prop :=
  (PORT_SOURCE_RANDOMIZE (params A0) = false → l_sport s = sport0) ∧
  Forall (fun x =>
    1000 ≤ attacker_seq0 x.1 ≤ 50000 ∧ 1000 ≤ victim_seq0 x.1 ≤ 50000 ∧
    ip_source x.1 = s_ip_source sc ∧ mac_source x.1 = s_mac_source sc ∧
    (PORT_SOURCE_RANDOMIZE (params A0) = false → c_sport x.1 = sport0)) (conns s).

Lemma target_rounds_scanned E A0 sc sport0 l : ∀ s s',
  target_rounds E A0 sc s l = Ok s' → scanned A0 sc sport0 s → scanned A0 sc sport0 s'.
Proof.
  induction l as [|ip l IH]; intros s s' H Hs; cbn [target_rounds] in H.
  - by injection H as <-.
  - destruct (target_round E A0 sc s ip) as [s1|] eqn:Hr; [|discriminate H].
    cbn [mbind result_bind] in H. apply (IH _ _ H). clear IH H.
    unfold target_round in Hr.
    assert (Hmid : ∃ s2, scanned A0 sc sport0 s2 ∧
              (let tc := set_timestamp (l_timestamp_next_pkt s2) (l_tc s2) in
               let '(t, tc, g) := next_timestamp 0 None tc (l_g s2) in
               Ok (mkLoop (l_sport s2) t tc g (conns s2))) = Ok s1).
    { destruct (decide (ip = s_ip_source sc)) as [_|_]; [by exists s|].
      destruct (target_packets E A0 sc s ip) as [s2|] eqn:Hp; [|discriminate Hr].
      exists s2. split; [|exact Hr].
      apply target_packets_conn in Hp as (x & Hc & H1 & H2 & H3 & H4 & H5 & H6).
      destruct Hs as [Hport Hall]. split.
      - intros Hn. rewrite (H6 Hn). by apply Hport.
      - rewrite Hc. apply Forall_app. split; [done|]. constructor; [|done].
        split_and!; try done; try lia. intros Hn. rewrite H5, (H6 Hn). by apply Hport. }
    destruct Hmid as (s2 & Hs2 & Hend). cbn zeta in Hend.
    destruct (next_timestamp 0 None _ (l_g s2)) as [[t tc] g].
    by injection Hend as <-.
Qed.

Lemma connection_first_seq E c tc g out tc' g' :
  connection E c tc g = Ok (out, tc', g') →
  ∃ e rest, out = e :: rest ∧ seq (tcp (pkt e)) = attacker_seq0 c ∧
            (hosts_smb c = true →
             ∃ e2 rest2, rest = e2 :: rest2 ∧ seq (tcp (pkt e2)) = victim_seq0 c).
Proof.
  intros H. unfold connection in H. conn_cases H. destruct (hosts_smb c).
  - unfold hosting_packets in H. cbn [attacker_seq victim_seq] in H.
    conn_cases H. injection H as <- <- <-. eexists _, _. split_and!; eauto.
  - injection H as <- <- <-. eexists _, _. split_and!; eauto. done.
Qed.

(** X17. Every connection of a run starts with new sequence numbers between
    1000 and 50000: the one of the source is the sequence number of the
    SYN, the one of a target that hosts SMB is the sequence number of
    its SYN-ACK. *)
Theorem initial_sequence_numbers E fuel A0 g A' g' cs :
  generate_attack_packets E fuel A0 g = Ok (A', g', cs) →
  Forall (fun x =>
    ∃ e rest, x.2 = e :: rest ∧ flags (tcp (pkt e)) = S_ ∧
      1000 ≤ seq (tcp (pkt e)) ≤ 50000 ∧
      (hosts_smb x.1 = true →
       ∃ e2 rest2, rest = e2 :: rest2 ∧ 1000 ≤ seq (tcp (pkt e2)) ≤ 50000)) cs.
Proof.
  intros H. destruct (run_built _ _ _ _ _ _ _ H) as (sc0 & Hb).
  apply generate_attack_packets_scan in H
    as (sc & sport & g0 & l & s' & dests & hosting & Hl & -> & _).
  apply (target_rounds_scanned _ _ _ sport) in Hl as [_ Hs]; [|by split].
  apply Forall_forall. intros x Hx. rewrite Forall_forall in Hs, Hb.
  destruct (Hs x Hx) as (Ha & Hv & _).
  destruct (Hb x Hx) as (s1 & ip0 & (g1 & tc1 & g2 & Hconn) & _).
  destruct (connection_syn _ _ _ _ _ _ _ Hconn) as (e & rest & Hout & _ & Hsyn).
  destruct (connection_first_seq _ _ _ _ _ _ _ Hconn) as (e' & rest' & Hout' & Hseq & Hh).
  rewrite Hout in Hout'. injection Hout' as <- <-.
  exists e, rest. split_and!; [done | done | lia | lia |].
  intros Hhost. destruct (Hh Hhost) as (e2 & rest2 & -> & Hseq2).
  exists e2, rest2. split; [done | lia].
Qed.

Lemma initial_sequence_numbers_witness :
  ∃ A' g' cs,
    generate_attack_packets (sample_env 20 sample_pool) 0 (sample_attack 2 "1")
      sample_rng = Ok (A', g', cs) ∧ length cs = 2%nat ∧
    Forall (fun x => ∃ e rest, x.2 = e :: rest ∧ 1000 ≤ seq (tcp (pkt e)) ≤ 50000) cs.
Proof.
  destruct (generate_attack_packets (sample_env 20 sample_pool) 0 (sample_attack 2 "1")
              sample_rng) as [[[A' g'] cs]|] eqn:H; [|vm_compute in H; discriminate H].
  exists A', g', cs. split; [reflexivity|]. split.
  - vm_compute in H. by injection H as _ _ <-.
  - eapply Forall_impl; [exact (initial_sequence_numbers _ _ _ _ _ _ _ H)|].
    clear H. intros x (e & rest & Hx & _ & Hseq & _).
    exists e, rest. split; [exact Hx | exact Hseq].
Defined.

(** X18. All connections of a run have one source address and one source
    MAC address: those of the parameters, unless a random source is
    asked for, which is then none of the targets. Unless random source
    ports are asked for, every connection starts at the source port of
    the parameters. *)
Theorem one_source E fuel A0 g A' g' cs :
  generate_attack_packets E fuel A0 g = Ok (A', g', cs) →
  ∃ src mac,
    Forall (fun x => ip_source x.1 = src ∧ mac_source x.1 = mac ∧
                     ip_target x.1 ≠ Single src) cs ∧
    (IP_SOURCE_RANDOMIZE (params A0) = false →
     src = IP_SOURCE (params A0) ∧ mac = MAC_SOURCE (params A0)) ∧
    (PORT_SOURCE_RANDOMIZE (params A0) = false →
     Forall (fun x => c_sport x.1 = PORT_SOURCE (params A0)) cs).
Proof.
  intros H. destruct (run_built _ _ _ _ _ _ _ H) as (sc0 & Hb).
  apply generate_attack_packets_scan in H
    as (sc & sport & g0 & l & s' & dests & hosting & Hl & -> & _ & _ & _ & _
        & Hsrc & _ & Hport & _).
  apply (target_rounds_scanned _ _ _ sport) in Hl as [_ Hs]; [|by split].
  exists (s_ip_source sc), (s_mac_source sc). split_and!; [|done|].
  - apply Forall_forall. intros x Hx. rewrite Forall_forall in Hs, Hb.
    destruct (Hs x Hx) as (_ & _ & Hi & Hm & _).
    destruct (Hb x Hx) as (s1 & ip0 & _ & Hne & _).
    split_and!; [done | done | by rewrite <- Hi].
  - intros Hn. eapply Forall_impl; [exact Hs|].
    intros x (_ & _ & _ & _ & Hp). rewrite (Hp Hn). by apply Hport.
Qed.

Lemma one_source_witness :
  ∃ A' g' cs,
    generate_attack_packets (sample_env 20 sample_pool) 0 (sample_attack 2 "1")
      sample_rng = Ok (A', g', cs) ∧ length cs = 2%nat ∧
    Forall (fun x => ip_source x.1 = "192.168.0.1") cs.
Proof.
  destruct (generate_attack_packets (sample_env 20 sample_pool) 0 (sample_attack 2 "1")
              sample_rng) as [[[A' g'] cs]|] eqn:H; [|vm_compute in H; discriminate H].
  exists A', g', cs. split; [reflexivity|]. split.
  - vm_compute in H. by injection H as _ _ <-.
  - destruct (one_source _ _ _ _ _ _ _ H) as (src & mac & Hall & Hsrc & _).
    destruct (Hsrc eq_refl) as [-> _]. clear H.
    eapply Forall_impl; [exact Hall|]. intros x (Hx & _). exact Hx.
Defined.


Lemma target_round_target E A0 sc s ip s' :
  target_round E A0 sc s ip = Ok s' → (∀ m, s_mac_dest sc ≠ MacStr m) →
  (ip = s_ip_source sc ∧ conns s' = conns s) ∨
  (ip ≠ s_ip_source sc ∧
   ∃ x, conns s' = conns s ++ [x] ∧ ip_target x.1 = Single ip ∧
        hosts_smb x.1 = bool_decide (ip ∈ s_hosting_ip sc)).
Proof.
  unfold target_round. intros H Hmac.
  destruct (decide (ip = s_ip_source sc)) as [Heq|Hne].
  - left. split; [done|]. cbn [mbind result_bind] in H.
    destruct (next_timestamp 0 None _ (l_g s)) as [[t tc] g].
    by injection H as <-.
  - right. split; [done|].
    destruct (target_packets E A0 sc s ip) as [s1|] eqn:Hp; [|discriminate H].
    cbn [mbind result_bind] in H.
    destruct (next_timestamp 0 None _ (l_g s1)) as [[t tc] g].
    injection H as <-. cbn [conns].
    apply target_packets_spec in Hp as (x & Hc & Hb & _); [|done].
    exists x. split; [done|].
    destruct Hb as (_ & _ & _ & _ & _ & _ & [[? ?] | [m Hm]]); [done|].
    by destruct (Hmac m).
Qed.

Lemma target_rounds_targets E A0 sc l : ∀ s s',
  target_rounds E A0 sc s l = Ok s' → (∀ m, s_mac_dest sc ≠ MacStr m) →
  ∃ new, conns s' = conns s ++ new ∧
    map (fun x => ip_target x.1) new =
      map Single (filter (fun ip => ip ≠ s_ip_source sc) l) ∧
    Forall (fun x => ∃ ip, ip_target x.1 = Single ip ∧
                           hosts_smb x.1 = bool_decide (ip ∈ s_hosting_ip sc)) new.
Proof.
  induction l as [|ip l IH]; intros s s' H Hmac; cbn [target_rounds] in H.
  - injection H as <-. exists []. by rewrite app_nil_r.
  - destruct (target_round E A0 sc s ip) as [s1|] eqn:Hr; [|discriminate H].
    cbn [mbind result_bind] in H.
    destruct (IH _ _ H Hmac) as (new & Hc & Hm & Hf).
    destruct (target_round_target _ _ _ _ _ _ Hr Hmac)
      as [[Heq Hc1] | (Hne & x & Hc1 & Hx & Hh)].
    + exists new. rewrite Hc, Hc1. split; [done|].
      rewrite filter_cons_False by (intros Hn; apply Hn, Heq).
      split; [exact Hm | exact Hf].
    + exists (x :: new). rewrite Hc, Hc1, <- app_assoc. split; [done|].
      rewrite filter_cons_True by done. cbn [map]. rewrite Hx, Hm. split; [done|].
      constructor; [by exists ip | done].
Qed.

(** X19. The targets of a run without a given destination MAC address, when
    the shuffle permutes. The run stores its targets and the addresses
    that host SMB in the parameters; every stored target other than the
    source gets one connection, and the target of a connection hosts SMB
    exactly when it is among the stored hosting addresses. A random
    source is none of the targets, so that every target gets a
    connection. *)
Theorem targets_of_a_run E fuel A0 g A' g' cs :
  generate_attack_packets E fuel A0 g = Ok (A', g', cs) →
  (∀ m, MAC_DESTINATION (params A0) ≠ MacStr m) →
  (∀ l g0, (shuffle E l g0).1 ≡ₚ l) →
  ∃ src dests hosting,
    IP_DESTINATION (params A') = Many dests ∧ HOSTING_IP (params A') = Many hosting ∧
    map (fun x => ip_target x.1) cs ≡ₚ map Single (filter (fun ip => ip ≠ src) dests) ∧
    Forall (fun x => ∃ ip, ip_target x.1 = Single ip ∧
                           hosts_smb x.1 = bool_decide (ip ∈ hosting)) cs ∧
    (IP_SOURCE_RANDOMIZE (params A0) = false → src = IP_SOURCE (params A0)) ∧
    (IP_SOURCE_RANDOMIZE (params A0) = true →
     map (fun x => ip_target x.1) cs ≡ₚ map Single dests).
Proof.
  intros H Hmac Hsh.
  apply generate_attack_packets_scan in H
    as (sc & sport & g0 & l & s' & dests & hosting & Hl & -> & Hd & Hh & Hhost & Hmd
        & Hsrc & Hrnd & _ & Hperm).
  destruct (Hperm Hmac) as (g1 & g2 & ->).
  assert (Hp : (shuffle E (shuffle E dests g1).1 g2).1 ≡ₚ dests) by by rewrite !Hsh.
  apply target_rounds_targets in Hl as (new & Hc & Hm & Hf);
    [|by rewrite Hmd]. cbn [conns app] in Hc. subst new.
  subst hosting. exists (s_ip_source sc), dests, (s_hosting_ip sc).
  split_and!; [done | done | | done | by intros Hn; destruct (Hsrc Hn) |].
  - rewrite Hm. by rewrite Hp.
  - intros Hr. specialize (Hrnd Hr). rewrite Hm.
    assert (Hid : ∀ l0 : list string, s_ip_source sc ∉ l0 →
              filter (fun ip => ip ≠ s_ip_source sc) l0 = l0).
    { induction l0 as [|a l0 IH]; [done|]. intros [Ha Hl]%not_elem_of_cons.
      rewrite filter_cons_True by done. by rewrite IH. }
    rewrite Hid by done. by rewrite Hp.
Qed.

Lemma targets_of_a_run_witness :
  ∃ A' g' cs,
    generate_attack_packets (sample_env 20 sample_pool) 0 (sample_attack 2 "1")
      sample_rng = Ok (A', g', cs) ∧
    IP_DESTINATION (params A') = Many ["10.0.0.1"; "10.0.0.2"] ∧
    map (fun x => ip_target x.1) cs ≡ₚ [Single "10.0.0.1"; Single "10.0.0.2"].
Proof.
  destruct (generate_attack_packets (sample_env 20 sample_pool) 0 (sample_attack 2 "1")
              sample_rng) as [[[A' g'] cs]|] eqn:H; [|vm_compute in H; discriminate H].
  destruct (targets_of_a_run _ _ _ _ _ _ _ H)
    as (src & dests & hosting & Hd & _ & Hp & _ & Hsrc & _).
  - intros m. discriminate.
  - intros l g0. cbn. symmetry. apply Permutation_rev.
  - assert (HA : IP_DESTINATION (params A') = Many ["10.0.0.1"; "10.0.0.2"]).
    { clear -H. vm_compute in H. by injection H as <- _ _. }
    rewrite HA in Hd. injection Hd as <-. rewrite (Hsrc eq_refl) in Hp. clear H.
    exists A', g', cs. split_and!; [reflexivity | exact HA | exact Hp].
Defined.

End SMBScanAttack.

(** ** Core/Controller.py *)

Module Controller.

(** The world outside the controller, of type [W]: the files, the
    attack controller with the statistics and the labels behind it, and
    the module globals of ID2TLib.Utility. The record lists the calls
    that [process_attacks] makes into code that is not among the
    sources, each as a function on the world, and the string functions
    of Python that it uses on paths. *)
Record World (W : Type) : Type := mkWorld {
  (* Core.AttackController *)
  set_seed : Z → W → W;
  process_attack : string → list string → bool → W → (string * Q) * W;
  total_packets : W → Z;
  (* Core.Statistics *)
  stats_summary_post_attack : Z → W → W;
  (* ID2TLib.PcapFile: PcapFile(a).merge_attack(b) *)
  merge_attack : string → string → W → string * W;
  (* Core.LabelManager: write_label_file(p) and label_file_path *)
  write_label_file : string → W → string * W;
  (* ID2TLib.Utility *)
  OUT_DIR : W → string;
  MISC_OUT_FILES : W → list (string * option string);
  (* os, shutil *)
  os_remove : string → W → W;
  os_rename : string → string → W → W;
  shutil_copy : string → string → W → W;
  (* str.replace, str.endswith, str.rpartition(sep)[2], os.path.splitext(p)[0] *)
  replace : string → string → string → string;
  endswith : string → string → bool;
  rpartition_tail : string → string → string;
  splitext_root : string → string
}.

Arguments set_seed {W}. Arguments process_attack {W}. Arguments total_packets {W}.
Arguments stats_summary_post_attack {W}. Arguments merge_attack {W}.
Arguments write_label_file {W}. Arguments OUT_DIR {W}. Arguments MISC_OUT_FILES {W}.
Arguments os_remove {W}. Arguments os_rename {W}. Arguments shutil_copy {W}.
Arguments replace {W}. Arguments endswith {W}. Arguments rpartition_tail {W}.
Arguments splitext_root {W}.

(** The fields of the controller that [process_attacks] uses. *)
Record Controller : Type := mkController {
  pcap_src_path : string;
  pcap_dest_path : string;
  pcap_out_path : option string;
  written_pcaps : list string;
  non_verbose : bool;
  durations : list Q;
  added_packets : Z
}.

(** The wall clock as [process_attacks] reads it:
    [time.strftime("%Y%m%d")] and [time.strftime("%X")]. *)
Record Clock : Type := mkClock { strftime_Ymd : string; strftime_X : string }.

(** [int.from_bytes(os.urandom(16), sys.byteorder)], drawn from the
    entropy source [g]. *)
Definition urandom16 (g : Rng) : Z * Rng :=
  let '(x, g') := draw g in (x mod 2 ^ 128, g').

Section ProcessAttacks.

Context {W : Type} (X : World W).

(** The seed of attack number [i]. *)
Definition rng_seed (seeds : option (list (list Z))) (i : nat) (g : Rng)
  : result (Z * Rng) :=
  match seeds with
  | Some l =>
      if (i <? length l)%nat then
        match l !! i with
        | Some (s :: _) => Ok (s, g)
        | _ => Raise IndexError
        end
      else Ok (urandom16 g)
  | None => Ok (urandom16 g)
  end.

(** [for attack in attacks_config], from attack number [i] on. *)
Fixpoint load_attacks (attacks_config : list (list string))
    (seeds : option (list (list Z))) (measure_time : bool) (i : nat)
    (c : Controller) (w : W) (g : Rng) : result (Controller * W * Rng) :=
  match attacks_config with
  | [] => Ok (c, w, g)
  | attack :: rest =>
      '(seed, g) ← rng_seed seeds i g;
      let w := set_seed X seed w in
      match attack with
      | [] => Raise IndexError
      | name :: attack_params =>
          let '(temp_attack_pcap, duration, w) :=
            process_attack X name attack_params measure_time w in
          let added := added_packets c + total_packets X w in
          let w := if non_verbose c then w else stats_summary_post_attack X added w in
          let c := mkController (pcap_src_path c) (pcap_dest_path c) (pcap_out_path c)
                     (written_pcaps c ++ [temp_attack_pcap]) (non_verbose c)
                     (durations c ++ [duration]) added in
          load_attacks rest seeds measure_time (S i) c w g
      end
  end.

(** [for i in range(0, len(self.written_pcaps) - 1)], [n] rounds from
    round [i] on; returns the list and the path of the last merge. *)
Fixpoint merge_written (n i : nat) (written : list string) (last_path : option string)
    (w : W) : result (list string * option string * W) :=
  match n with
  | O => Ok (written, last_path, w)
  | S n' =>
      match written !! i, written !! S i with
      | Some a, Some b =>
          let '(attacks_pcap_path, w) := merge_attack X a b w in
          let w := os_remove X b w in
          merge_written n' (S i) (<[S i := attacks_pcap_path]> written)
            (Some attacks_pcap_path) w
      | _, _ => Raise IndexError
      end
  end.

(** [for k, v in Util.MISC_OUT_FILES.items()] *)
Fixpoint move_misc_files (pcap_root : string) (files : list (string * option string))
    (w : W) : W :=
  match files with
  | [] => w
  | (k, None) :: rest => move_misc_files pcap_root rest w
  | (k, Some v) :: rest =>
      move_misc_files pcap_root rest (os_rename X v (pcap_root +:+ "_" +:+ k) w)
  end.

Definition truthy (s : option string) : bool :=
  match s with
  | Some (String _ _) => true
  | _ => false
  end.

(** What [process_attacks] does once the attacks are loaded. *)
Definition merge_and_write (c : Controller) (inject_empty : bool) (clock : Clock) (w : W)
  : result (Controller * W) :=
  (* merge attack pcaps to get single attack pcap *)
  '(written, attacks_pcap_path, w) ←
    (if (1 <? length (written_pcaps c))%nat then
       merge_written (length (written_pcaps c) - 1) 0 (written_pcaps c) None w
     else match written_pcaps c with
          | [p] => Ok (written_pcaps c, Some p, w)
          | _ => Ok (written_pcaps c, None, w)
          end);
  let c := mkController (pcap_src_path c) (pcap_dest_path c) (pcap_out_path c)
             written (non_verbose c) (durations c) (added_packets c) in
  let '(c, w) :=
    match attacks_pcap_path with
    | Some path =>
        if truthy attacks_pcap_path then
          let '(dest, w) :=
            if inject_empty then
              (* copy the attack pcap to the directory of the base PCAP *)
              let timestamp := "_" +:+ strftime_Ymd clock +:+ "-"
                               +:+ replace X (strftime_X clock) ":" "" in
              let dest := replace X (pcap_src_path c) ".pcap" (timestamp +:+ ".pcap") in
              (dest, shutil_copy X path dest w)
            else
              (* merge single attack pcap with all attacks into base pcap *)
              merge_attack X (pcap_src_path c) path w in
          let '(out_path, result_path) :=
            if truthy (pcap_out_path c) then
              let o := default "" (pcap_out_path c) in
              let o := if endswith X o ".pcap" then o else o +:+ ".pcap" in
              (Some o, o)
            else (pcap_out_path c, OUT_DIR X w +:+ rpartition_tail X dest "/") in
          let w := os_rename X dest result_path w in
          (* process/move other created files *)
          let w := move_misc_files (splitext_root X result_path) (MISC_OUT_FILES X w) w in
          (* delete intermediate PCAP files *)
          let w := os_remove X path w in
          (* write label file with attacks *)
          let '(_, w) := write_label_file X result_path w in
          (mkController (pcap_src_path c) result_path out_path (written_pcaps c)
             (non_verbose c) (durations c) (added_packets c), w)
        else (c, w)
    | None => (c, w)
    end in
  (* print summary statistics *)
  let w := if non_verbose c then w else stats_summary_post_attack X (added_packets c) w in
  Ok (c, w).

Definition process_attacks (c : Controller) (attacks_config : list (list string))
    (seeds : option (list (list Z))) (measure_time inject_empty : bool)
    (clock : Clock) (w : W) (g : Rng) : result (Controller * W * Rng) :=
  (* load attacks sequentially *)
  '(c, w, g) ← load_attacks attacks_config seeds measure_time 0 c w g;
  '(c, w) ← merge_and_write c inject_empty clock w;
  Ok (c, w, g).

(** What a run leaves behind: the controller and the world. *)
Definition outcome (r : result (Controller * W * Rng)) : result (Controller * W) :=
  match r with
  | Ok (c, w, _) => Ok (c, w)
  | Raise e => Raise e
  end.










(** *** More about process_attacks *)

(** The chain of merges: the pcap [acc] is merged with each pcap of
    [rest] in turn, each merge with the result of the one before, and
    the pcap that was merged in is removed. *)
Definition merge_chain (acc : string) (rest : list string) (w : W) : string * W :=
  foldl (fun '(a, w) b => let '(p, w) := merge_attack X a b w in (p, os_remove X b w))
    (acc, w) rest.

Lemma merge_written_spec n : ∀ i l last_path w a,
  l !! i = Some a → (i + n < length l)%nat →
  ∃ l', merge_written n i l last_path w =
          Ok (l', match n with
                  | O => last_path
                  | _ => Some (merge_chain a (take n (drop (S i) l)) w).1
                  end,
              (merge_chain a (take n (drop (S i) l)) w).2) ∧
        length l' = length l ∧
        l' !! (i + n)%nat = Some (merge_chain a (take n (drop (S i) l)) w).1 ∧
        take (S i) l' = take (S i) l.
Proof.
  induction n as [|n IH]; intros i l last_path w a Ha Hlen; cbn [merge_written].
  - exists l. rewrite Nat.add_0_r. by rewrite take_0.
  - rewrite Ha. destruct (lookup_lt_is_Some_2 l (S i)) as [b Hb]; [lia|]. rewrite Hb.
    destruct (merge_attack X a b w) as [p w1] eqn:Hm.
    destruct (IH (S i) (<[S i := p]> l) (Some p) (os_remove X b w1) p)
      as (l' & Hrun & Hl' & Hlast & Hpre).
    { apply list_lookup_insert_eq. lia. }
    { rewrite length_insert. lia. }
    assert (Hchain : merge_chain a (take (S n) (drop (S i) l)) w =
              merge_chain p (take n (drop (S (S i)) (<[S i := p]> l))) (os_remove X b w1)).
    { rewrite drop_insert_lt by lia. rewrite (drop_S l b (S i) Hb).
      cbn [take]. unfold merge_chain. cbn [foldl]. by rewrite Hm. }
    rewrite Hchain. exists l'. rewrite Hrun, Hl', length_insert.
    replace (i + S n)%nat with (S i + n)%nat by lia.
    split_and!; [by destruct n | done | done |].
    apply (f_equal (take (S i))) in Hpre. rewrite !take_take in Hpre.
    rewrite !Nat.min_l in Hpre by lia. rewrite Hpre.
    by rewrite take_insert_ge by lia.
Qed.



(** X20. The attack pcaps, when there are two or more, are merged in a chain
    from the first on: each pcap is merged into the result of the merge
    before it and then removed. The merge raises nothing, the path of
    the last merge is the one handed on, and it is also the last entry
    of the list of written pcaps, whose first entry stays. *)
Theorem attack_pcaps_merged_in_chain first rest w :
  rest ≠ [] →
  ∃ l', merge_written (length (first :: rest) - 1) 0 (first :: rest) None w =
          Ok (l', Some (merge_chain first rest w).1, (merge_chain first rest w).2) ∧
        length l' = length (first :: rest) ∧
        last l' = Some (merge_chain first rest w).1 ∧ head l' = Some first.
Proof.
  intros Hne.
  destruct (merge_written_spec (length (first :: rest) - 1) 0 (first :: rest) None w first)
    as (l' & Hrun & Hlen & Hlast & Hpre); [done | simpl; destruct rest; [done|simpl; lia] |].
  assert (Ht : take (length (first :: rest) - 1) (drop 1 (first :: rest)) = rest).
  { cbn. rewrite Nat.sub_0_r. apply take_ge. lia. }
  rewrite Ht in *. exists l'. split_and!; [|done| |].
  - rewrite Hrun. by destruct rest.
  - rewrite last_lookup, Hlen. cbn [length] in *.
    by replace (Nat.pred (S (length rest))) with (0 + (S (length rest) - 1))%nat by lia.
  - destruct l' as [|x l']; [discriminate Hlen|]. by injection Hpre as ->.
Qed.






End ProcessAttacks.

(** *** A sample run *)

(** A world that keeps a journal of what is done to it. *)
Definition journal_world : World (list (string * Z)) :=
  mkWorld _
    (fun seed w => ("seed", seed) :: w)
    (fun name _ _ w => (name +:+ ".pcap", 0%Q, ("attack " +:+ name, 0) :: w))
    (fun w => Z.of_nat (length w))
    (fun n w => ("summary", n) :: w)
    (fun a b w => (a +:+ "+" +:+ b, ("merge " +:+ a +:+ " " +:+ b, 0) :: w))
    (fun p w => (p +:+ ".labels", ("labels " +:+ p, 0) :: w))
    (fun _ => "out/")
    (fun _ => [])
    (fun p w => ("remove " +:+ p, 0) :: w)
    (fun a b w => ("rename " +:+ a +:+ " " +:+ b, 0) :: w)
    (fun a b w => ("copy " +:+ a +:+ " " +:+ b, 0) :: w)
    (fun s _ _ => s)
    (fun _ _ => true)
    (fun s _ => s)
    (fun s => s).

Definition three_attacks : list (list string) :=
  [["PortscanAttack"; "ip.src=192.168.178.2"]; ["SMBScanAttack"]; ["DDoSAttack"]].

Definition fresh_controller : Controller :=
  mkController "base.pcap" "" None [] true [] 0.


(** A world with the state of the random generator beside the journal.
    Seeding sets the state; an attack takes its draw from the state,
    which the journal keeps with the attack, and moves the state on. *)
Definition generator_world : World (Z * list (string * Z)) :=
  mkWorld _
    (fun seed w => (seed, ("seed", seed) :: w.2))
    (fun name _ _ w => (name +:+ ".pcap", 0%Q,
                        ((w.1 * 31 + 7) mod 1000, ("attack " +:+ name, w.1) :: w.2)))
    (fun w => Z.of_nat (length w.2))
    (fun n w => (w.1, ("summary", n) :: w.2))
    (fun a b w => (a +:+ "+" +:+ b, (w.1, ("merge " +:+ a +:+ " " +:+ b, 0) :: w.2)))
    (fun p w => (p +:+ ".labels", (w.1, ("labels " +:+ p, 0) :: w.2)))
    (fun _ => "out/")
    (fun _ => [])
    (fun p w => (w.1, ("remove " +:+ p, 0) :: w.2))
    (fun a b w => (w.1, ("rename " +:+ a +:+ " " +:+ b, 0) :: w.2))
    (fun a b w => (w.1, ("copy " +:+ a +:+ " " +:+ b, 0) :: w.2))
    (fun s _ _ => s)
    (fun _ _ => true)
    (fun s _ => s)
    (fun s => s).



(** Two runs on the same input, on different days, with different
    secure random sources and with the generator in different states. *)
Definition run_on (seeds : option (list (list Z))) (clock : Clock) (state : Z) (g : Rng)
  : result (Controller * (Z * list (string * Z)) * Rng) :=
  process_attacks generator_world fresh_controller three_attacks seeds false false
    clock (state, []) g.




(** Without seeds the two runs take their seeds from their secure
    random sources, and what they leave differs. *)
Lemma unseeded_runs_differ :
  outcome (run_on None (mkClock "20180101" "10:00:00") 1 (mkRng (fun _ => 0) 0)) ≠
  outcome (run_on None (mkClock "20180302" "23:15:00") 2 (mkRng (fun n => Z.of_nat n) 7)).
Proof. vm_compute. discriminate. Qed.


Lemma attack_pcaps_merged_in_chain_witness :
  ∃ l', merge_written journal_world 2 0 ["a.pcap"; "b.pcap"; "c.pcap"] None []
        = Ok (l', Some "a.pcap+b.pcap+c.pcap",
              [("remove c.pcap", 0); ("merge a.pcap+b.pcap c.pcap", 0);
               ("remove b.pcap", 0); ("merge a.pcap b.pcap", 0)]) ∧
        head l' = Some "a.pcap".
Proof.
  destruct (attack_pcaps_merged_in_chain journal_world "a.pcap" ["b.pcap"; "c.pcap"] [])
    as (l' & Hrun & _ & _ & Hhead); [discriminate|].
  exists l'. split; [exact Hrun | exact Hhead].
Defined.



End Controller.
